(** * audit-service: the messaging ingestion core and the migration runner

    A shallow embedding of

    - [controllers/events.controller.ts]  (push-mode event handlers),
    - [consumers/rabbitmq.consumer.ts]    (pull-mode consumer, reconnect),
    - [app.ts]                            (consumer state, shutdown),
    - [db/migrationRunner.ts]             (migration runner),
    - [db/connection.ts], [db/index.ts]   (connection pool, initialisation),
    - [validators/config.validator.ts], [config/index.ts],
      [core/secretManager.ts]             (configuration and secrets),
    - [core/logger.ts]                    (the logger bound to a trace),

    followed by the properties of the service's specification that are
    settled on it, and by further properties of the code. *)

From Stdlib Require Import ZArith Lia.
From stdpp Require Import base option list strings pretty gmap sorting.

Local Open Scope Z_scope.

(** ** JavaScript values, exceptions and the state-and-exception monad *)

Module Js.

(** The values [JSON.parse] can return, and [undefined]. *)
#[local] Unset Elimination Schemes.
Inductive JsValue : Type :=
| JUndefined
| JNull
| JBool (b : bool)
| JNum (n : Z)
| JStr (s : string)
| JArr (items : list JsValue)
| JObj (fields : list (string * JsValue)).
#[local] Set Elimination Schemes.

Variant JsError : Type :=
| TypeError (message : string)
| SyntaxError (message : string)
| Error (message : string).

Definition message_of (e : JsError) : string :=
  match e with TypeError m | SyntaxError m | Error m => m end.

(** The outcome of evaluating a piece of code: a value, or a thrown
    exception (a rejected promise for [async] code). *)
Variant Result (A : Type) : Type :=
| Ok (a : A)
| Throw (e : JsError).
Arguments Ok {A} a.
Arguments Throw {A} e.

Definition is_ok {A} (r : Result A) : bool :=
  match r with Ok _ => true | Throw _ => false end.

(** Own field of an object literal, first binding of the key. *)
Fixpoint field (k : string) (fields : list (string * JsValue)) : JsValue :=
  match fields with
  | [] => JUndefined
  | (k', v) :: rest => if decide (k = k') then v else field k rest
  end.

(** [v.k] for the data properties the service reads ([id], [eventId],
    [data], [success]): reading a property of [null] or [undefined]
    throws a TypeError, primitives and arrays have no such property. *)
Definition get (v : JsValue) (k : string) : Result JsValue :=
  match v with
  | JUndefined | JNull =>
      Throw (TypeError ("Cannot read properties of null or undefined (reading '" +:+ k +:+ "')"))
  | JObj fields => Ok (field k fields)
  | _ => Ok JUndefined
  end.

(** [v?.k] *)
Definition get_opt (v : JsValue) (k : string) : JsValue :=
  match v with
  | JObj fields => field k fields
  | _ => JUndefined
  end.

(** ToBoolean *)
Definition truthy (v : JsValue) : bool :=
  match v with
  | JUndefined | JNull => false
  | JBool b => b
  | JNum n => negb (n =? 0)
  | JStr s => negb (bool_decide (s = ""))
  | JArr _ | JObj _ => true
  end.

(** [v !== false] *)
Definition is_not_false (v : JsValue) : bool :=
  match v with JBool false => false | _ => true end.

(** Code running against a store of type [S]: the store is threaded
    through, and what was written before an exception stays written. *)
Definition M (S A : Type) : Type := S → Result A * S.

Definition ret {S A} (a : A) : M S A := λ s, (Ok a, s).

Definition bind {S A B} (m : M S A) (k : A → M S B) : M S B :=
  λ s, match m s with
       | (Ok a, s') => k a s'
       | (Throw e, s') => (Throw e, s')
       end.

Definition throw {S A} (e : JsError) : M S A := λ s, (Throw e, s).

(** [try { body } catch (e) { handler e }] *)
Definition try_catch {S A} (body : M S A) (handler : JsError → M S A) : M S A :=
  λ s, match body s with
       | (Ok a, s') => (Ok a, s')
       | (Throw e, s') => handler e s'
       end.

(** [try { body } finally { cleanup }], with a cleanup that does not throw *)
Definition try_finally {S A} (body : M S A) (cleanup : S → S) : M S A :=
  λ s, let '(r, s') := body s in (r, cleanup s').

Definition lift {S A} (r : Result A) : M S A := λ s, (r, s).
Definition modify {S} (f : S → S) : M S unit := λ s, (Ok tt, f s).
Definition gets {S A} (f : S → A) : M S A := λ s, (Ok (f s), s).

(** [for (const x of xs) { await body x }] *)
Fixpoint for_of {S A} (xs : list A) (body : A → M S unit) : M S unit :=
  match xs with
  | [] => ret tt
  | x :: rest => bind (body x) (λ _, for_of rest body)
  end.

End Js.
Export Js.

Notation "x <- m ;; k" := (Js.bind m (λ x, k))
  (at level 100, m at next level, right associativity, only parsing).
Notation "m ;;; k" := (Js.bind m (λ _, k))
  (at level 100, right associativity, only parsing).

(** ** The process: logger, consumer state, broker channel, timers *)

Module Process.

(** [core/logger.js] is a collaborator: a call appends one entry. The
    metadata object of a call is not kept, the level and the message are. *)
Variant Level : Type :=
| lvl_error | lvl_warn | lvl_info | lvl_debug | lvl_business | lvl_security.

Record LogEntry : Type := mkLog { level : Level; message : string }.

#[global] Instance Level_eq_dec : EqDecision Level.
Proof. solve_decision. Defined.
#[global] Instance LogEntry_eq_dec : EqDecision LogEntry.
Proof. solve_decision. Defined.

(** [consumerState] of app.ts *)
Record ConsumerState : Type := mkConsumerState {
  connected : bool;
  consuming : bool;
  messagesProcessed : Z;
  lastMessageAt : option Z;
}.

(** What the consumer sends on its channel for a delivery. *)
Variant ChannelOp : Type :=
| ack (deliveryTag : Z)
| nack (deliveryTag : Z) (allUpTo requeue : bool).

(** The fields of [RabbitMQConsumer] that change: [connection] and
    [channel] are [null] or a handle, [reconnectAttempts] is the counter. *)
Record RabbitMQConsumer : Type := mkConsumer {
  connection : option nat;
  channel : option nat;
  reconnectAttempts : Z;
}.

Record World : Type := mkWorld {
  consumerState : ConsumerState;
  clock : Z;                        (* what [new Date()] reads *)
  logs : list LogEntry;             (* oldest first *)
  responses : list (Z * JsValue);   (* [res.status(c).json(b)] sent over HTTP *)
  channelOps : list ChannelOp;      (* oldest first *)
  consumer : RabbitMQConsumer;      (* the singleton [rabbitmqConsumer] *)
  timers : list Z;                  (* armed reconnect timers, by delay *)
  scheduled : list Z;               (* every delay passed to [setTimeout] *)
  closeListeners : list nat;        (* connections with a 'close' listener *)
  nextHandle : nat;                 (* fresh connection and channel handles *)
  exitCode : option Z;              (* set by [process.exit] *)
  listening : list Z;               (* ports given to [app.listen] whose callback has not run *)
}.

Definition with_consumerState (f : ConsumerState → ConsumerState) (w : World) : World :=
  mkWorld (f (consumerState w)) (clock w) (logs w) (responses w) (channelOps w)
          (consumer w) (timers w) (scheduled w) (closeListeners w) (nextHandle w) (exitCode w)
          (listening w).
Definition with_logs (f : list LogEntry → list LogEntry) (w : World) : World :=
  mkWorld (consumerState w) (clock w) (f (logs w)) (responses w) (channelOps w)
          (consumer w) (timers w) (scheduled w) (closeListeners w) (nextHandle w) (exitCode w)
          (listening w).
Definition with_responses (f : list (Z * JsValue) → list (Z * JsValue)) (w : World) : World :=
  mkWorld (consumerState w) (clock w) (logs w) (f (responses w)) (channelOps w)
          (consumer w) (timers w) (scheduled w) (closeListeners w) (nextHandle w) (exitCode w)
          (listening w).
Definition with_channelOps (f : list ChannelOp → list ChannelOp) (w : World) : World :=
  mkWorld (consumerState w) (clock w) (logs w) (responses w) (f (channelOps w))
          (consumer w) (timers w) (scheduled w) (closeListeners w) (nextHandle w) (exitCode w)
          (listening w).
Definition with_consumer (f : RabbitMQConsumer → RabbitMQConsumer) (w : World) : World :=
  mkWorld (consumerState w) (clock w) (logs w) (responses w) (channelOps w)
          (f (consumer w)) (timers w) (scheduled w) (closeListeners w) (nextHandle w) (exitCode w)
          (listening w).
Definition with_timers (f : list Z → list Z) (w : World) : World :=
  mkWorld (consumerState w) (clock w) (logs w) (responses w) (channelOps w)
          (consumer w) (f (timers w)) (scheduled w) (closeListeners w) (nextHandle w) (exitCode w)
          (listening w).
Definition with_scheduled (f : list Z → list Z) (w : World) : World :=
  mkWorld (consumerState w) (clock w) (logs w) (responses w) (channelOps w)
          (consumer w) (timers w) (f (scheduled w)) (closeListeners w) (nextHandle w) (exitCode w)
          (listening w).
Definition with_closeListeners (f : list nat → list nat) (w : World) : World :=
  mkWorld (consumerState w) (clock w) (logs w) (responses w) (channelOps w)
          (consumer w) (timers w) (scheduled w) (f (closeListeners w)) (nextHandle w) (exitCode w)
          (listening w).
Definition with_nextHandle (f : nat → nat) (w : World) : World :=
  mkWorld (consumerState w) (clock w) (logs w) (responses w) (channelOps w)
          (consumer w) (timers w) (scheduled w) (closeListeners w) (f (nextHandle w)) (exitCode w)
          (listening w).
Definition with_exitCode (c : option Z) (w : World) : World :=
  mkWorld (consumerState w) (clock w) (logs w) (responses w) (channelOps w)
          (consumer w) (timers w) (scheduled w) (closeListeners w) (nextHandle w) c
          (listening w).
Definition with_listening (f : list Z → list Z) (w : World) : World :=
  mkWorld (consumerState w) (clock w) (logs w) (responses w) (channelOps w)
          (consumer w) (timers w) (scheduled w) (closeListeners w) (nextHandle w) (exitCode w)
          (f (listening w)).

Definition logger (l : Level) (msg : string) : M World unit :=
  modify (with_logs (λ ls, ls ++ [mkLog l msg])).

(** app.ts, [trackMessageProcessed] *)
Definition trackMessageProcessed : M World unit :=
  modify (λ w, with_consumerState
    (λ s, mkConsumerState (connected s) (consuming s)
                          (messagesProcessed s + 1) (Some (clock w))) w).

(** A process that has just been loaded. *)
Definition boot (now : Z) : World :=
  mkWorld (mkConsumerState false false 0 None) now [] [] []
          (mkConsumer None None 0) [] [] [] 0%nat None [].

End Process.
Export Process.

(** ** controllers/events.controller.ts *)

Module EventsController.

Record Request : Type := mkRequest { body : JsValue }.

(** The response object a handler is given: Express's in push mode, the
    consumer's stand-in ([createMockResponse]) in pull mode. *)
Variant Response : Type := ExpressResponse | MockResponse.

(** [res.status(code).json(payload)] *)
Definition status_json (res : Response) (code : Z) (payload : JsValue) : M World unit :=
  match res with
  | ExpressResponse => modify (with_responses (λ rs, rs ++ [(code, payload)]))
  | MockResponse => ret tt
  end.

Definition SUCCESS : JsValue := JObj [("status", JStr "SUCCESS")].

(** The [logFunction] of a handler evaluates the argument of one logger
    call and makes the call: it yields the entry, or throws before it. *)
Definition LogFunction : Type := JsValue → Result LogEntry.

Definition run_logFunction (f : LogFunction) (event : JsValue) : M World unit :=
  match f event with
  | Ok entry => modify (with_logs (λ ls, ls ++ [entry]))
  | Throw e => throw e
  end.

(** Generic event handler wrapper *)
Definition handleEvent (eventName : string) (logFunction : LogFunction)
  : Request → Response → M World unit :=
  λ req res,
    try_catch
      (trackMessageProcessed ;;;
       let event := body req in
       run_logFunction logFunction event ;;;
       status_json res 200 SUCCESS)
      (λ error,
         logger lvl_error ("Error handling " +:+ eventName +:+ " event") ;;;
         status_json res 200 SUCCESS).

(** The shape shared by the log functions: the object literal passed to
    the logger starts with [eventId: event.eventId], the one property
    read that is not guarded by [?.]; the remaining fields are read
    through [event.data?.x], [event.metadata?.x] and [event.source ||
    default], which do not throw once [event.eventId] was read. The
    field mapping itself is not kept. *)
Definition logs_as (l : Level) (action : string) : LogFunction :=
  λ event,
    match get event "eventId" with
    | Ok _ => Ok (mkLog l action)
    | Throw e => Throw e
    end.

(** [handleLogin]'s log function: [event.data?.success !== false]
    chooses between the business and the security entry. *)
Definition login_logFunction : LogFunction :=
  λ event,
    match get event "data" with
    | Throw e => Throw e
    | Ok data =>
        let success := is_not_false (get_opt data "success") in
        if success then logs_as lvl_business "USER_LOGIN" event
        else logs_as lvl_security "USER_LOGIN_FAILED" event
    end.

(* Auth Events *)
Definition handleUserRegistered := handleEvent "auth.user.registered" (logs_as lvl_business "USER_REGISTERED").
Definition handleLogin := handleEvent "auth.login" login_logFunction.
Definition handleEmailVerificationRequested := handleEvent "auth.email.verification.requested" (logs_as lvl_business "EMAIL_VERIFICATION_REQUESTED").
Definition handlePasswordResetRequested := handleEvent "auth.password.reset.requested" (logs_as lvl_security "PASSWORD_RESET_REQUESTED").
Definition handlePasswordResetCompleted := handleEvent "auth.password.reset.completed" (logs_as lvl_security "PASSWORD_RESET_COMPLETED").
Definition handleAccountReactivationRequested := handleEvent "auth.account.reactivation.requested" (logs_as lvl_business "ACCOUNT_REACTIVATION_REQUESTED").
(* User Events *)
Definition handleUserCreated := handleEvent "user.created" (logs_as lvl_business "USER_CREATED").
Definition handleUserUpdated := handleEvent "user.updated" (logs_as lvl_business "USER_UPDATED").
Definition handleUserDeleted := handleEvent "user.deleted" (logs_as lvl_security "USER_DELETED").
Definition handleEmailVerified := handleEvent "email.verified" (logs_as lvl_business "EMAIL_VERIFIED").
Definition handlePasswordChanged := handleEvent "password.changed" (logs_as lvl_security "PASSWORD_CHANGED").
(* Order Events *)
Definition handleOrderCreated := handleEvent "order.created" (logs_as lvl_business "ORDER_CREATED").
Definition handleOrderCancelled := handleEvent "order.cancelled" (logs_as lvl_business "ORDER_CANCELLED").
Definition handleOrderConfirmed := handleEvent "order.confirmed" (logs_as lvl_business "ORDER_CONFIRMED").
Definition handleOrderShipped := handleEvent "order.shipped" (logs_as lvl_business "ORDER_SHIPPED").
Definition handleOrderDelivered := handleEvent "order.delivered" (logs_as lvl_business "ORDER_DELIVERED").
Definition handleOrderCompleted := handleEvent "order.completed" (logs_as lvl_business "ORDER_COMPLETED").
Definition handleOrderRefunded := handleEvent "order.refunded" (logs_as lvl_business "ORDER_REFUNDED").
(* Payment Events *)
Definition handlePaymentReceived := handleEvent "payment.received" (logs_as lvl_business "PAYMENT_RECEIVED").
Definition handlePaymentFailed := handleEvent "payment.failed" (logs_as lvl_security "PAYMENT_FAILED").
(* Product Events *)
Definition handleProductCreated := handleEvent "product.created" (logs_as lvl_business "PRODUCT_CREATED").
Definition handleProductUpdated := handleEvent "product.updated" (logs_as lvl_business "PRODUCT_UPDATED").
Definition handleProductDeleted := handleEvent "product.deleted" (logs_as lvl_business "PRODUCT_DELETED").
Definition handleProductPriceChanged := handleEvent "product.price.changed" (logs_as lvl_business "PRODUCT_PRICE_CHANGED").
(* Cart Events *)
Definition handleCartItemAdded := handleEvent "cart.item.added" (logs_as lvl_business "CART_ITEM_ADDED").
Definition handleCartItemRemoved := handleEvent "cart.item.removed" (logs_as lvl_business "CART_ITEM_REMOVED").
Definition handleCartCleared := handleEvent "cart.cleared" (logs_as lvl_business "CART_CLEARED").
Definition handleCartAbandoned := handleEvent "cart.abandoned" (logs_as lvl_business "CART_ABANDONED").
(* Inventory Events *)
Definition handleInventoryStockUpdated := handleEvent "inventory.stock.updated" (logs_as lvl_business "INVENTORY_STOCK_UPDATED").
Definition handleInventoryRestock := handleEvent "inventory.restock" (logs_as lvl_business "INVENTORY_RESTOCK").
Definition handleInventoryLowStockAlert := handleEvent "inventory.low.stock.alert" (logs_as lvl_business "INVENTORY_LOW_STOCK_ALERT").
Definition handleInventoryReserved := handleEvent "inventory.reserved" (logs_as lvl_business "INVENTORY_RESERVED").
(* Review Events *)
Definition handleReviewCreated := handleEvent "review.created" (logs_as lvl_business "REVIEW_CREATED").
Definition handleReviewUpdated := handleEvent "review.updated" (logs_as lvl_business "REVIEW_UPDATED").
Definition handleReviewDeleted := handleEvent "review.deleted" (logs_as lvl_business "REVIEW_DELETED").
Definition handleReviewModerated := handleEvent "review.moderated" (logs_as lvl_business "REVIEW_MODERATED").
Definition handleReviewFlagged := handleEvent "review.flagged" (logs_as lvl_security "REVIEW_FLAGGED").
(* Notification Events *)
Definition handleNotificationSent := handleEvent "notification.sent" (logs_as lvl_business "NOTIFICATION_SENT").
Definition handleNotificationDelivered := handleEvent "notification.delivered" (logs_as lvl_business "NOTIFICATION_DELIVERED").
Definition handleNotificationFailed := handleEvent "notification.failed" (logs_as lvl_business "NOTIFICATION_FAILED").
Definition handleNotificationOpened := handleEvent "notification.opened" (logs_as lvl_business "NOTIFICATION_OPENED").
(* Admin Events *)
Definition handleAdminActionPerformed := handleEvent "admin.action.performed" (logs_as lvl_security "ADMIN_ACTION_PERFORMED").
Definition handleAdminUserCreated := handleEvent "admin.user.created" (logs_as lvl_security "ADMIN_USER_CREATED").
Definition handleAdminConfigChanged := handleEvent "admin.config.changed" (logs_as lvl_security "ADMIN_CONFIG_CHANGED").

End EventsController.
Export EventsController.

(** ** consumers/rabbitmq.consumer.ts *)

Module RabbitMQ.

Definition Handler : Type := JsValue → M World unit.

(** Create mock Express request object for handler compatibility *)
Definition createMockRequest (event : JsValue) : Request := mkRequest event.

(** Create mock Express response object for handler compatibility *)
Definition createMockResponse : Response := MockResponse.

(** [async (event) => { await h(createMockRequest(event), createMockResponse()); }] *)
Definition via (h : Request → Response → M World unit) : Handler :=
  λ event, h (createMockRequest event) createMockResponse.

(** Topic to handler mapping, in the order of the object literal. *)
Definition TOPIC_HANDLERS_literal : list (string * Handler) :=
  [ (* Auth Events (6) *)
    ("auth.user.registered", via handleUserRegistered);
    ("auth.login", via handleLogin);
    ("auth.email.verification.requested", via handleEmailVerificationRequested);
    ("auth.password.reset.requested", via handlePasswordResetRequested);
    ("auth.password.reset.completed", via handlePasswordResetCompleted);
    ("auth.account.reactivation.requested", via handleAccountReactivationRequested);
    (* User Events (5) *)
    ("user.created", via handleUserCreated);
    ("user.updated", via handleUserUpdated);
    ("user.deleted", via handleUserDeleted);
    ("email.verified", via handleEmailVerified);
    ("password.changed", via handlePasswordChanged);
    (* Order Events (3) *)
    ("order.created", via handleOrderCreated);
    ("order.cancelled", via handleOrderCancelled);
    ("order.delivered", via handleOrderDelivered);
    (* Payment Events (2) *)
    ("payment.received", via handlePaymentReceived);
    ("payment.failed", via handlePaymentFailed);
    (* Product Events (4) *)
    ("product.created", via handleProductCreated);
    ("product.updated", via handleProductUpdated);
    ("product.deleted", via handleProductDeleted);
    ("product.price.changed", via handleProductPriceChanged);
    (* Cart Events (4) *)
    ("cart.item.added", via handleCartItemAdded);
    ("cart.item.removed", via handleCartItemRemoved);
    ("cart.cleared", via handleCartCleared);
    ("cart.abandoned", via handleCartAbandoned);
    (* Inventory Events (4) *)
    ("inventory.stock.updated", via handleInventoryStockUpdated);
    ("inventory.restock", via handleInventoryRestock);
    ("inventory.low.stock.alert", via handleInventoryLowStockAlert);
    ("inventory.reserved", via handleInventoryReserved);
    (* Review Events (5) *)
    ("review.created", via handleReviewCreated);
    ("review.updated", via handleReviewUpdated);
    ("review.deleted", via handleReviewDeleted);
    ("review.moderated", via handleReviewModerated);
    ("review.flagged", via handleReviewFlagged);
    (* Notification Events (4) *)
    ("notification.sent", via handleNotificationSent);
    ("notification.delivered", via handleNotificationDelivered);
    ("notification.failed", via handleNotificationFailed);
    ("notification.opened", via handleNotificationOpened);
    (* Admin Events (3) *)
    ("admin.action.performed", via handleAdminActionPerformed);
    ("admin.user.created", via handleAdminUserCreated);
    ("admin.config.changed", via handleAdminConfigChanged) ].

(** The own properties of the dispatch table, as a finite map on the
    keys the literal lists. *)
Definition TOPIC_HANDLERS : gmap string Handler := list_to_map TOPIC_HANDLERS_literal.

(** [JSON.parse] gave an object or an array. *)
Definition is_object (v : JsValue) : bool :=
  match v with JArr _ | JObj _ => true | _ => false end.

(** What [ToObject(undefined)] throws. *)
Definition not_an_object : JsError :=
  TypeError "Cannot convert undefined or null to object".

(** The table is an object literal, so it also has the properties of
    [Object.prototype]. They are listed with what the call
    [handler(event)] of the consume callback does when [handler] is that
    property: a built-in called this way has [undefined] as [this]. [Ok]
    is a call that returns (a value that is not a promise), [Throw] one
    that throws. *)
Definition Object_prototype : list (string * (JsValue → Result unit)) :=
  [ ("constructor", λ event, Ok tt);                 (* Object(event) *)
    ("__defineGetter__", λ event, Throw not_an_object);
    ("__defineSetter__", λ event, Throw not_an_object);
    ("hasOwnProperty", λ event, Throw not_an_object);
    ("__lookupGetter__", λ event, Throw not_an_object);
    ("__lookupSetter__", λ event, Throw not_an_object);
    (* false for a primitive, before [this] is looked at *)
    ("isPrototypeOf", λ event, if is_object event then Throw not_an_object else Ok tt);
    ("propertyIsEnumerable", λ event, Throw not_an_object);
    ("toString", λ event, Ok tt);                    (* "[object Undefined]" *)
    ("valueOf", λ event, Throw not_an_object);
    (* the prototype object itself, which cannot be called *)
    ("__proto__", λ event, Throw (TypeError "handler is not a function"));
    ("toLocaleString", λ event, Throw not_an_object) ].

(** The inherited property of a name, if it is one. *)
Definition inherited (name : string) : option (JsValue → Result unit) :=
  (list_to_map Object_prototype : gmap string (JsValue → Result unit)) !! name.

(** [TOPIC_HANDLERS[routingKey]]: the own property, else the inherited
    one; [None] is [undefined]. *)
Definition TOPIC_HANDLERS_get (routingKey : string) : option Handler :=
  match TOPIC_HANDLERS !! routingKey with
  | Some handler => Some handler
  | None => (λ member event, lift (member event)) <$> inherited routingKey
  end.

(** [Object.keys(TOPIC_HANDLERS)] *)
Definition topics : list string := TOPIC_HANDLERS_literal.*1.

(** A delivery. [content] is [msg.content.toString()] as [JSON.parse]
    sees it: text that is not JSON, or the value the text denotes. *)
Variant Content : Type :=
| NotJSON (text : string)
| JSON (value : JsValue).

Record Message : Type := mkMessage {
  routingKey : string;   (* msg.fields.routingKey *)
  content : Content;
  deliveryTag : Z;
}.

Definition JSON_parse (c : Content) : M World JsValue :=
  match c with
  | NotJSON text => throw (SyntaxError ("Unexpected token in JSON: " +:+ text))
  | JSON value => ret value
  end.

Definition channel_ack (msg : Message) : M World unit :=
  modify (with_channelOps (λ ops, ops ++ [ack (deliveryTag msg)])).

Definition channel_nack (msg : Message) (allUpTo requeue : bool) : M World unit :=
  modify (with_channelOps (λ ops, ops ++ [nack (deliveryTag msg) allUpTo requeue])).

(** The callback passed to [channel.consume] in [subscribe]; [None] is
    the [null] the library delivers when the consumer is cancelled. *)
Definition onMessage (delivery : option Message) : M World unit :=
  match delivery with
  | None => ret tt
  | Some msg =>
      let routingKey := routingKey msg in
      let content := content msg in
      try_catch
        (event <- JSON_parse content ;;
         let handler := TOPIC_HANDLERS_get routingKey in
         match handler with
         | Some handler =>
             handler event ;;;
             trackMessageProcessed ;;;
             channel_ack msg ;;;
             (* the metadata object of logger.debug: eventId: event.id || event.eventId *)
             _eventId <- (id <- lift (get event "id") ;;
                          if truthy id then ret id else lift (get event "eventId")) ;;
             logger lvl_debug ("Processed audit event: " +:+ routingKey)
         | None =>
             logger lvl_warn ("No handler for topic: " +:+ routingKey) ;;;
             (* Acknowledge unknown topics to prevent requeue *)
             channel_ack msg
         end)
        (λ error,
           logger lvl_error ("Error processing audit event: " +:+ routingKey) ;;;
           (* Reject and requeue on error *)
           channel_nack msg false true)
  end.

(** The first broker call of a connection attempt that fails, if any. *)
Variant Stage : Type :=
| AtImport          (* import('amqplib') *)
| AtConnect         (* amqp.connect *)
| AtCreateChannel   (* connection.createChannel *)
| AtAssert          (* prefetch, assertExchange, assertQueue *)
| AtBind            (* channel.bindQueue *)
| AtConsume.        (* channel.consume *)

#[global] Instance Stage_eq_dec : EqDecision Stage.
Proof. solve_decision. Defined.

Definition fails_at (broker : option Stage) (s : Stage) (what : string) : M World unit :=
  if decide (broker = Some s) then throw (Error what) else ret tt.

Definition fresh : M World nat :=
  λ w, (Ok (nextHandle w), with_nextHandle S w).

Definition set_connection (c : option nat) : M World unit :=
  modify (with_consumer (λ r, mkConsumer c (channel r) (reconnectAttempts r))).
Definition set_channel (c : option nat) : M World unit :=
  modify (with_consumer (λ r, mkConsumer (connection r) c (reconnectAttempts r))).
Definition set_reconnectAttempts (n : Z) : M World unit :=
  modify (with_consumer (λ r, mkConsumer (connection r) (channel r) n)).

Definition maxReconnectAttempts : Z := 10.
Definition reconnectDelay : Z := 5000.

(** Connect to RabbitMQ *)
Definition connect (broker : option Stage) : M World unit :=
  fails_at broker AtImport "RabbitMQ provider requires amqplib package" ;;;
  fails_at broker AtConnect "connect ECONNREFUSED" ;;;
  c <- fresh ;;
  set_connection (Some c) ;;;
  fails_at broker AtCreateChannel "createChannel failed" ;;;
  ch <- fresh ;;
  set_channel (Some ch) ;;;
  fails_at broker AtAssert "channel setup failed" ;;;
  modify (with_closeListeners (λ ls, ls ++ [c])) ;;;
  logger lvl_info "RabbitMQ connection established".

(** Subscribe to all audit topics *)
Definition subscribe (broker : option Stage) : M World unit :=
  ch <- gets (λ w, channel (consumer w)) ;;
  match ch with
  | None => throw (Error "Channel not initialized")
  | Some _ =>
      for_of topics (λ topic,
        fails_at broker AtBind "bindQueue failed" ;;;
        logger lvl_debug ("Bound queue to topic: " +:+ topic)) ;;;
      fails_at broker AtConsume "consume failed" ;;;
      logger lvl_info ("Subscribed to " +:+ pretty (length topics) +:+ " audit topics")
  end.

(** Handle reconnection with exponential backoff. [setTimeout] arms a
    timer; its callback is [reconnectCallback] below. *)
Definition handleReconnect : M World unit :=
  attempts <- gets (λ w, reconnectAttempts (consumer w)) ;;
  if decide (attempts >= maxReconnectAttempts) then
    logger lvl_error "Max reconnection attempts reached"
  else
    set_reconnectAttempts (attempts + 1) ;;;
    attempts <- gets (λ w, reconnectAttempts (consumer w)) ;;
    let delay := reconnectDelay * 2 ^ (attempts - 1) in
    logger lvl_info ("Attempting reconnection in " +:+ pretty delay +:+ "ms (attempt "
                     +:+ pretty attempts +:+ ")") ;;;
    modify (with_scheduled (λ ds, ds ++ [delay])) ;;;
    modify (with_timers (λ ds, ds ++ [delay])).

(** The callback given to [setTimeout] by [handleReconnect]. *)
Definition reconnectCallback (broker : option Stage) : M World unit :=
  try_catch
    (connect broker ;;;
     subscribe broker ;;;
     set_reconnectAttempts 0 ;;;
     logger lvl_info "Reconnection successful")
    (λ error,
       logger lvl_error "Reconnection failed" ;;;
       handleReconnect).

(** The oldest armed timer expires; [broker] is what the callback's
    connection attempt meets. A process that has exited runs nothing. *)
Definition fireTimer (broker : option Stage) (w : World) : World :=
  match exitCode w, timers w with
  | None, _ :: rest => (reconnectCallback broker (with_timers (λ _, rest) w)).2
  | _, _ => w
  end.

(** The 'close' listener that [connect] registers. *)
Definition onConnectionClose : M World unit :=
  logger lvl_warn "RabbitMQ connection closed" ;;;
  handleReconnect.

(** Start the RabbitMQ consumer and subscribe to all audit topics *)
Definition start (broker : option Stage) : M World unit :=
  try_catch
    (connect broker ;;;
     subscribe broker ;;;
     logger lvl_info "RabbitMQ consumer started successfully")
    (λ error,
       logger lvl_error "Failed to start RabbitMQ consumer" ;;;
       handleReconnect).

(** Which [close()] of [stop] rejects, if any. *)
Variant CloseFault : Type := ChannelCloseFails | ConnectionCloseFails.

#[global] Instance CloseFault_eq_dec : EqDecision CloseFault.
Proof. solve_decision. Defined.

(** Stop the consumer gracefully *)
Definition stop (fault : option CloseFault) : M World unit :=
  try_catch
    (ch <- gets (λ w, channel (consumer w)) ;;
     (if ch is Some _ then
        (if decide (fault = Some ChannelCloseFails) then throw (Error "channel close failed") else ret tt) ;;;
        set_channel None
      else ret tt) ;;;
     c <- gets (λ w, connection (consumer w)) ;;
     (if c is Some _ then
        (if decide (fault = Some ConnectionCloseFails) then throw (Error "connection close failed") else ret tt) ;;;
        set_connection None
      else ret tt) ;;;
     logger lvl_info "RabbitMQ consumer stopped")
    (λ error, logger lvl_error "Error stopping RabbitMQ consumer").

End RabbitMQ.
Export RabbitMQ.

(** ** routes/events.routes.ts and app.ts *)

Module App.

(** [router.post(path, handler)], in the order of registration. *)
Definition eventRoutes : list (string * (Request → Response → M World unit)) :=
  [
    ("/events/auth/user-registered", handleUserRegistered);
    ("/events/auth/login", handleLogin);
    ("/events/auth/email-verification-requested", handleEmailVerificationRequested);
    ("/events/auth/password-reset-requested", handlePasswordResetRequested);
    ("/events/auth/password-reset-completed", handlePasswordResetCompleted);
    ("/events/auth/account-reactivation-requested", handleAccountReactivationRequested);
    ("/events/user/created", handleUserCreated);
    ("/events/user/updated", handleUserUpdated);
    ("/events/user/deleted", handleUserDeleted);
    ("/events/user/email-verified", handleEmailVerified);
    ("/events/user/password-changed", handlePasswordChanged);
    ("/events/order/created", handleOrderCreated);
    ("/events/order/confirmed", handleOrderConfirmed);
    ("/events/order/shipped", handleOrderShipped);
    ("/events/order/delivered", handleOrderDelivered);
    ("/events/order/completed", handleOrderCompleted);
    ("/events/order/cancelled", handleOrderCancelled);
    ("/events/order/refunded", handleOrderRefunded);
    ("/events/order/payment-received", handlePaymentReceived);
    ("/events/order/payment-failed", handlePaymentFailed);
    ("/events/product/created", handleProductCreated);
    ("/events/product/updated", handleProductUpdated);
    ("/events/product/deleted", handleProductDeleted);
    ("/events/product/price-changed", handleProductPriceChanged);
    ("/events/cart/item-added", handleCartItemAdded);
    ("/events/cart/item-removed", handleCartItemRemoved);
    ("/events/cart/cleared", handleCartCleared);
    ("/events/cart/abandoned", handleCartAbandoned);
    ("/events/inventory/stock-updated", handleInventoryStockUpdated);
    ("/events/inventory/restock", handleInventoryRestock);
    ("/events/inventory/low-stock-alert", handleInventoryLowStockAlert);
    ("/events/inventory/reserved", handleInventoryReserved);
    ("/events/review/created", handleReviewCreated);
    ("/events/review/updated", handleReviewUpdated);
    ("/events/review/deleted", handleReviewDeleted);
    ("/events/review/moderated", handleReviewModerated);
    ("/events/review/flagged", handleReviewFlagged);
    ("/events/notification/sent", handleNotificationSent);
    ("/events/notification/delivered", handleNotificationDelivered);
    ("/events/notification/failed", handleNotificationFailed);
    ("/events/notification/opened", handleNotificationOpened);
    ("/events/admin/action-performed", handleAdminActionPerformed);
    ("/events/admin/user-created", handleAdminUserCreated);
    ("/events/admin/config-changed", handleAdminConfigChanged)
  ].

Definition set_consuming (b : bool) : M World unit :=
  modify (with_consumerState
    (λ s, mkConsumerState (connected s) b (messagesProcessed s) (lastMessageAt s))).
Definition set_connected (b : bool) : M World unit :=
  modify (with_consumerState
    (λ s, mkConsumerState b (consuming s) (messagesProcessed s) (lastMessageAt s))).

Definition process_exit (code : Z) : M World unit :=
  modify (with_exitCode (Some code)).

(** A collaborator's call ([consulDeregister], [closeDatabaseConnections])
    that rejects when [fails]. *)
Definition external (fails : bool) (what : string) : M World unit :=
  if fails then throw (Error what) else ret tt.

(** Graceful shutdown *)
Definition gracefulShutdown (signal : string) (consulFails dbCloseFails : bool)
    (fault : option CloseFault) : M World unit :=
  logger lvl_info (signal +:+ " received, starting graceful shutdown...") ;;;
  try_catch
    (set_consuming false ;;;
     (* Deregister from Consul *)
     external consulFails "consul deregistration failed" ;;;
     (* Stop RabbitMQ consumer if running *)
     stop fault ;;;
     (* Close database connections *)
     external dbCloseFails "closing the pool failed" ;;;
     set_connected false ;;;
     logger lvl_info "Graceful shutdown completed" ;;;
     process_exit 0)
    (λ error,
       logger lvl_error "Error during graceful shutdown:" ;;;
       process_exit 1).

End App.
Export App.

(** ** db/migrationRunner.ts and db/index.ts *)

Module MigrationRunner.

Record Migration : Type := mkMigration {
  name : string;
  filePath : string;
  content : string;
  checksum : string;
}.

Record MigrationRecord : Type := mkRecord {
  id : Z;
  migration_name : string;
  executed_at : Z;
  execution_time_ms : Z;
  recorded_checksum : string;   (* the column [checksum] *)
}.

(** The database. [tables] is everything but [migration_history], which
    is [None] until it is created; [reachable] tells whether
    [pool.connect()] succeeds. *)
Record Database (Tables : Type) : Type := mkDatabase {
  reachable : bool;
  tables : Tables;
  migration_history : option (list MigrationRecord);
  migration_history_id_seq : Z;
}.
Arguments mkDatabase {Tables} _ _ _ _.
Arguments reachable {Tables} _.
Arguments tables {Tables} _.
Arguments migration_history {Tables} _.
Arguments migration_history_id_seq {Tables} _.

(** What the runner takes from outside: SHA-256, the clock, and the
    database engine running the text of a migration. [run_sql] gives the
    state the statements reached and the error of the one that failed, if
    one did. *)
Class Platform (Tables : Type) : Type := mkPlatform {
  sha256_hex : string → string;
  Date_now : nat → Z;
  run_sql : string → Database Tables → Database Tables * option JsError;
}.

(** The migrations directory ([None]: [readdir] fails; a file maps to its
    text, or to [None] when [readFile] fails on it), the client's view of
    the database with the state [ROLLBACK] returns to while a transaction
    is open, the log, the number of clock readings so far and the number
    of pool clients not yet released. *)
Record Env (Tables : Type) : Type := mkEnv {
  migrationsDir : option (gmap string (option string));
  db : Database Tables;
  snapshot : option (Database Tables);
  log : list LogEntry;
  clockReads : nat;
  checkedOut : nat;
}.
Arguments mkEnv {Tables} _ _ _ _ _ _.
Arguments migrationsDir {Tables} _.
Arguments db {Tables} _.
Arguments snapshot {Tables} _.
Arguments log {Tables} _.
Arguments clockReads {Tables} _.
Arguments checkedOut {Tables} _.

Section Runner.
Context {Tables : Type} `{!Platform Tables}.

Definition with_db (f : Database Tables → Database Tables) (e : Env Tables) : Env Tables :=
  mkEnv (migrationsDir e) (f (db e)) (snapshot e) (log e) (clockReads e) (checkedOut e).
Definition with_snapshot (s : option (Database Tables)) (e : Env Tables) : Env Tables :=
  mkEnv (migrationsDir e) (db e) s (log e) (clockReads e) (checkedOut e).
Definition with_log (f : list LogEntry → list LogEntry) (e : Env Tables) : Env Tables :=
  mkEnv (migrationsDir e) (db e) (snapshot e) (f (log e)) (clockReads e) (checkedOut e).
Definition with_clockReads (f : nat → nat) (e : Env Tables) : Env Tables :=
  mkEnv (migrationsDir e) (db e) (snapshot e) (log e) (f (clockReads e)) (checkedOut e).
Definition with_checkedOut (f : nat → nat) (e : Env Tables) : Env Tables :=
  mkEnv (migrationsDir e) (db e) (snapshot e) (log e) (clockReads e) (f (checkedOut e)).

Definition logger_ (l : Level) (msg : string) : M (Env Tables) unit :=
  modify (with_log (λ ls, ls ++ [mkLog l msg])).

(** [Date.now()] *)
Definition now : M (Env Tables) Z :=
  λ e, (Ok (Date_now (clockReads e)), with_clockReads S e).

(** [await this.pool.connect()] *)
Definition pool_connect : M (Env Tables) unit :=
  λ e, if reachable (db e) then (Ok tt, with_checkedOut S e)
       else (Throw (Error "connect ECONNREFUSED"), e).

(** [client.release()] *)
Definition release (e : Env Tables) : Env Tables := with_checkedOut Nat.pred e.

(** [s.endsWith(suffix)] *)
Definition endsWith (s suffix : string) : bool :=
  let n := String.length s in
  let k := String.length suffix in
  if (k <=? n)%nat then bool_decide (String.substring (n - k) k s = suffix) else false.

(** [basename(file, ext)] on a directory entry (no separator in it) *)
Definition basename (file ext : string) : string :=
  if endsWith file ext
  then String.substring 0 (String.length file - String.length ext) file
  else file.

(** [s.includes(part)] *)
Definition includes (s part : string) : bool :=
  if String.index 0 part s is Some _ then true else false.

Definition join (dir file : string) : string := dir +:+ "/" +:+ file.

(** Calculate SHA-256 checksum of migration content *)
Definition calculateChecksum (content : string) : string := sha256_hex content.

(** Ensure the migration_history table exists *)
Definition ensureMigrationHistoryTable : M (Env Tables) unit :=
  pool_connect ;;;
  try_finally
    ((* CREATE TABLE IF NOT EXISTS migration_history ...; CREATE INDEX IF NOT EXISTS ... *)
     modify (with_db (λ d, mkDatabase (reachable d) (tables d)
                                      (Some (default [] (migration_history d)))
                                      (migration_history_id_seq d))) ;;;
     logger_ lvl_debug "Migration history table ensured")
    release.

(** [fs.readdir(this.migrationsDir)] *)
Definition readdir : M (Env Tables) (list string) :=
  λ e, match migrationsDir e with
       | Some dir => (Ok (map_to_list dir).*1, e)
       | None => (Throw (Error "ENOENT: no such file or directory, scandir"), e)
       end.

(** [fs.readFile(join(this.migrationsDir, file), 'utf8')] *)
Definition readFile (file : string) : M (Env Tables) string :=
  λ e, match migrationsDir e ≫= (.!! file) with
       | Some (Some text) => (Ok text, e)
       | _ => (Throw (Error "readFile failed"), e)
       end.

(** The loop of [getAvailableMigrations] *)
Fixpoint readMigrations (sqlFiles : list string) : M (Env Tables) (list Migration) :=
  match sqlFiles with
  | [] => ret []
  | file :: rest =>
      let filePath := join "src/db/migrations" file in
      content <- readFile file ;;
      let checksum := calculateChecksum content in
      migrations <- readMigrations rest ;;
      ret (mkMigration (basename file ".sql") filePath content checksum :: migrations)
  end.

(** Get all available migration files. [sort()] without a comparator
    orders strings code unit by code unit; file names are byte strings
    here, ordered by [String.le]. *)
Definition getAvailableMigrations : M (Env Tables) (list Migration) :=
  try_catch
    (files <- readdir ;;
     let sqlFiles := merge_sort String.le (filter (λ file, endsWith file ".sql" = true) files) in
     readMigrations sqlFiles)
    (λ error,
       logger_ lvl_error "Failed to read migration files" ;;;
       throw error).

(** [ORDER BY executed_at ASC] *)
Definition by_executed_at (r1 r2 : MigrationRecord) : Prop := executed_at r1 ≤ executed_at r2.

#[global] Instance by_executed_at_dec : RelDecision by_executed_at.
Proof. intros r1 r2. unfold by_executed_at. apply _. Defined.

(** [SELECT * FROM migration_history ORDER BY executed_at ASC] *)
Definition select_history : M (Env Tables) (list MigrationRecord) :=
  λ e, match migration_history (db e) with
       | Some rows => (Ok (merge_sort by_executed_at rows), e)
       | None => (Throw (Error "relation migration_history does not exist"), e)
       end.

(** Get executed migrations from database *)
Definition getExecutedMigrations : M (Env Tables) (list MigrationRecord) :=
  pool_connect ;;;
  try_finally
    (try_catch select_history
       (λ error,
          (* If table doesn't exist, return empty array *)
          if includes (message_of error) "does not exist" then ret [] else throw error))
    release.

(** [INSERT INTO migration_history (migration_name, execution_time_ms,
    checksum) VALUES ($1, $2, $3)]: [id] is taken from the sequence,
    [executed_at] from the clock, and [migration_name] is UNIQUE. *)
Definition insert_history (name : string) (elapsed : Z) (checksum : string)
  : M (Env Tables) unit :=
  executed_at <- now ;;
  λ e, let d := db e in
       match migration_history d with
       | None => (Throw (Error "relation migration_history does not exist"), e)
       | Some rows =>
           let id := migration_history_id_seq d + 1 in
           if bool_decide (name ∈ migration_name <$> rows)
           then (Throw (Error "duplicate key value violates unique constraint"),
                 with_db (λ _, mkDatabase (reachable d) (tables d) (Some rows) id) e)
           else (Ok tt,
                 with_db (λ _, mkDatabase (reachable d) (tables d)
                            (Some (rows ++ [mkRecord id name executed_at elapsed checksum])) id) e)
       end.

(** [client.query(migration.content)] *)
Definition query_body (sql : string) : M (Env Tables) unit :=
  λ e, let '(d, failure) := run_sql sql (db e) in
       (if failure is Some error then Throw error else Ok tt, with_db (λ _, d) e).

Definition BEGIN : M (Env Tables) unit := λ e, (Ok tt, with_snapshot (Some (db e)) e).
Definition COMMIT : M (Env Tables) unit := modify (with_snapshot None).
Definition ROLLBACK : M (Env Tables) unit :=
  λ e, (Ok tt, with_snapshot None (with_db (λ d, default d (snapshot e)) e)).

(** Execute a single migration *)
Definition executeMigration (migration : Migration) : M (Env Tables) unit :=
  pool_connect ;;;
  startTime <- now ;;
  try_finally
    (try_catch
       ((* Start transaction *)
        BEGIN ;;;
        logger_ lvl_info ("Executing migration: " +:+ name migration) ;;;
        (* Execute migration SQL *)
        query_body (content migration) ;;;
        (* Record migration execution *)
        t <- now ;;
        insert_history (name migration) (t - startTime) (checksum migration) ;;;
        (* Commit transaction *)
        COMMIT ;;;
        t' <- now ;;
        let executionTime := t' - startTime in
        logger_ lvl_info ("Migration completed: " +:+ name migration))
       (λ error,
          (* Rollback transaction on error *)
          ROLLBACK ;;;
          logger_ lvl_error ("Migration failed: " +:+ name migration) ;;;
          throw error))
    release.

(** Run all pending migrations *)
Definition runMigrations : M (Env Tables) unit :=
  try_catch
    (logger_ lvl_info "Starting database migration process..." ;;;
     (* Ensure migration_history table exists *)
     ensureMigrationHistoryTable ;;;
     (* Get all migration files *)
     availableMigrations <- getAvailableMigrations ;;
     logger_ lvl_info ("Found " +:+ pretty (length availableMigrations) +:+ " migration files") ;;;
     (* Get executed migrations *)
     executedMigrations <- getExecutedMigrations ;;
     let executedNames : gset string := list_to_set (migration_name <$> executedMigrations) in
     (* Filter pending migrations *)
     let pendingMigrations := filter (λ migration, name migration ∉ executedNames) availableMigrations in
     if bool_decide (length pendingMigrations = 0%nat) then
       logger_ lvl_info "No pending migrations to execute"
     else
       logger_ lvl_info ("Executing " +:+ pretty (length pendingMigrations) +:+ " pending migrations") ;;;
       (* Execute each pending migration *)
       for_of pendingMigrations executeMigration ;;;
       logger_ lvl_info "All migrations completed successfully")
    (λ error,
       logger_ lvl_error "Migration process failed" ;;;
       throw error).

(** The loop of [validateMigrations] *)
Fixpoint validateEach (availableMigrations : list Migration)
    (executedMigrations : list MigrationRecord) : M (Env Tables) bool :=
  match executedMigrations with
  | [] =>
      logger_ lvl_info "All migration checksums validated" ;;;
      ret true
  | executed :: rest =>
      let available :=
        list_find (λ m, name m = migration_name executed) availableMigrations in
      match available with
      | None =>
          logger_ lvl_warn ("Migration file missing: " +:+ migration_name executed) ;;;
          validateEach availableMigrations rest
      | Some (_, available) =>
          if bool_decide (checksum available ≠ recorded_checksum executed) then
            logger_ lvl_error ("Migration checksum mismatch: " +:+ migration_name executed) ;;;
            ret false
          else validateEach availableMigrations rest
      end
  end.

(** Validate migration checksums (detect modified migrations) *)
Definition validateMigrations : M (Env Tables) bool :=
  try_catch
    (availableMigrations <- getAvailableMigrations ;;
     executedMigrations <- getExecutedMigrations ;;
     validateEach availableMigrations executedMigrations)
    (λ error,
       logger_ lvl_error "Migration validation failed" ;;;
       ret false).

(** db/index.ts, [initializeDatabase]: the pool is initialised and
    tested by [DatabaseConnection], whose connection test answers
    [connectionOk]. *)
Definition initializeDatabase (connectionOk : bool) : M (Env Tables) unit :=
  try_catch
    (logger_ lvl_info "Initializing database..." ;;;
     (if connectionOk then ret tt else throw (Error "Database connection test failed")) ;;;
     (* Run migrations *)
     runMigrations ;;;
     (* Validate migrations *)
     migrationsValid <- validateMigrations ;;
     (if migrationsValid then ret tt
      else logger_ lvl_warn "Migration validation warnings detected") ;;;
     logger_ lvl_info "Database initialization completed successfully")
    (λ error,
       logger_ lvl_error "Database initialization failed" ;;;
       throw error).

End Runner.
End MigrationRunner.
Export MigrationRunner.

(** ** Sample inputs, used by the examples below *)

Module Samples.

(** A small engine: a text starting with CREATE adds itself to the
    tables; any other text fails after having written a partial change. *)
Definition sample_run_sql (sql : string) (d : Database (list string))
  : Database (list string) * option JsError :=
  if String.prefix "CREATE" sql
  then (mkDatabase (reachable d) (tables d ++ [sql])
                   (migration_history d) (migration_history_id_seq d), None)
  else (mkDatabase (reachable d) (tables d ++ ["partial change"])
                   (migration_history d) (migration_history_id_seq d),
        Some (Error "syntax error")).

(** The digest is a stand-in that tags the text. *)
#[global] Instance sample_platform : Platform (list string) :=
  mkPlatform (list string)
             (λ text, "sha256:" +:+ text)
             (λ k, 1000 + 10 * Z.of_nat k)
             sample_run_sql.

Definition sample_dir : gmap string (option string) :=
  list_to_map [ ("002_indexes.sql", Some "CREATE INDEX i ON audit_logs(trace_id)");
                ("001_init.sql", Some "CREATE TABLE audit_logs (id SERIAL)");
                ("README.md", Some "notes") ].

Definition sample_env (dir : gmap string (option string)) : Env (list string) :=
  mkEnv (Some dir) (mkDatabase true [] None 0) None [] 0%nat 0%nat.

(** The second migration does not run. *)
Definition broken_dir : gmap string (option string) :=
  <[ "002_indexes.sql" := Some "CREATE INDEX i ON audit_logs(trace_id)" ]>
  (<[ "003_broken.sql" := Some "ALTER TABL" ]> sample_dir).

(** A migration whose body fails. *)
Definition broken_migration : Migration :=
  mkMigration "003_broken" "src/db/migrations/003_broken.sql" "ALTER TABL" "sha256:ALTER TABL".

(** The sample directory, migrated. *)
Definition migrated_env : Env (list string) := (runMigrations (sample_env sample_dir)).2.

(** Afterwards the first file is edited and the second is removed. *)
Definition tampered_dir : gmap string (option string) :=
  <[ "001_init.sql" := Some "CREATE TABLE audit_logs (id BIGSERIAL)" ]>
  (delete "002_indexes.sql" sample_dir).

Definition tampered_env : Env (list string) :=
  mkEnv (Some tampered_dir) (db migrated_env) None [] 0%nat 0%nat.

End Samples.
Export Samples.

(** ** Runs of the consumer *)

Module Runs.

(** The reconnect timer expires once per stage of [stages], and each
    time the attempt fails at that stage. *)
Fixpoint failing_reconnects (stages : list Stage) (w : World) : World :=
  match stages with
  | [] => w
  | s :: rest => failing_reconnects rest (fireTimer (Some s) w)
  end.

(** [backoff n]: the delay before the [n]-th attempt. *)
Definition backoff (n : nat) : Z := reconnectDelay * 2 ^ (Z.of_nat n - 1).

End Runs.
Export Runs.

(** ** The migrations directory, as the runner reads it *)

Module Disk.
Section Disk.
Context {Tables : Type} `{!Platform Tables}.

(** The [.sql] entries of the directory, sorted: the list
    [getAvailableMigrations] iterates over. *)
Definition sqlFiles (dir : gmap string (option string)) : list string :=
  merge_sort String.le (filter (λ file, endsWith file ".sql" = true) (map_to_list dir).*1).

(** The migration [getAvailableMigrations] builds from one entry. *)
Definition loadMigration (dir : gmap string (option string)) (file : string)
  : option Migration :=
  match dir !! file with
  | Some (Some text) =>
      Some (mkMigration (basename file ".sql") (join "src/db/migrations" file)
                        text (calculateChecksum text))
  | _ => None
  end.

(** What [getAvailableMigrations] returns; [None] when a file cannot be read. *)
Definition migrationsOnDisk (dir : gmap string (option string)) : option (list Migration) :=
  mapM (loadMigration dir) (sqlFiles dir).

(** The file of an executed migration is no longer in the directory. *)
Definition missingOnDisk (dir : gmap string (option string)) (r : MigrationRecord) : Prop :=
  dir !! (migration_name r +:+ ".sql") = None.

(** The file of an executed migration is there, with a text whose
    SHA-256 is not the recorded one. *)
Definition driftedOnDisk (dir : gmap string (option string)) (r : MigrationRecord) : Prop :=
  ∃ text, dir !! (migration_name r +:+ ".sql") = Some (Some text)
          ∧ calculateChecksum text ≠ recorded_checksum r.

(** The same two conditions, on the list [getAvailableMigrations]
    returned: what [validateMigrations] looks at. *)
Definition missingAmong (available : list Migration) (r : MigrationRecord) : Prop :=
  list_find (λ m, name m = migration_name r) available = None.

Definition driftedAmong (available : list Migration) (r : MigrationRecord) : Prop :=
  ∃ i m, list_find (λ m, name m = migration_name r) available = Some (i, m)
         ∧ checksum m ≠ recorded_checksum r.

(** The rows of the history table, none when the table does not exist. *)
Definition historyRows (d : Database Tables) : list MigrationRecord :=
  default [] (migration_history d).

#[global] Instance missingOnDisk_dec dir r : Decision (missingOnDisk dir r).
Proof. unfold missingOnDisk. apply _. Defined.

#[global] Instance missingAmong_dec available r : Decision (missingAmong available r).
Proof. unfold missingAmong. apply _. Defined.

(** The warning written for an executed migration whose file is missing. *)
Definition missingWarning (r : MigrationRecord) : LogEntry :=
  mkLog lvl_warn ("Migration file missing: " +:+ migration_name r).

(** The warnings for the records of a list, in the order of the list. *)
Definition missingWarnings (dir : gmap string (option string))
    (records : list MigrationRecord) : list LogEntry :=
  missingWarning <$> filter (missingOnDisk dir) records.

End Disk.
End Disk.
Export Disk.

(** ** Invariants of code in the monad *)

Module Invariants.

(** [m] keeps [P]: from a state where [P] holds it ends, returning or
    throwing, in a state where [P] holds. *)
Definition keeps {S} (P : S → Prop) {A} (m : M S A) : Prop :=
  ∀ s, P s → P (m s).2.

(** The runner is at rest: [n] clients are checked out of the pool and
    no transaction is open. *)
Definition settled (Tables : Type) (n : nat) (e : Env Tables) : Prop :=
  checkedOut e = n ∧ snapshot e = None.

End Invariants.
Export Invariants.

(** ** app.ts: starting the service *)

Module Startup.

(** What [startConsumer] meets: whether [validateConfig] and
    [initializeDatabase] throw, what the Dapr health probe answers, the
    value of MESSAGING_PROVIDER, what the broker does to the first
    connection attempt, and [config.port]. The port is
    [Number(process.env.PORT || 8012)] as config/index.ts computed it
    when it was loaded, [None] when that number is not an integer (8012.5,
    Infinity): [validateConfig] looks at [parseInt] of the variable, so a
    valid configuration does not make it one. *)
Record Surroundings : Type := mkSurroundings {
  configInvalid : bool;
  databaseFails : bool;
  daprHealthy : bool;
  MESSAGING_PROVIDER : option string;
  broker : option Stage;
  config_port : option Z;
}.

(** [config.port || 8012], when [server.listen] accepts it: an integer
    from 0 to 65535. *)
Definition listenPort (config_port : option Z) : option Z :=
  match config_port with
  | Some port =>
      let PORT := if bool_decide (port = 0) then 8012 else port in
      if bool_decide (0 ≤ PORT ≤ 65535) then Some PORT else None
  | None => None
  end.

(** Initialize and start Express server. Registering the middleware and
    the routers changes nothing here: what the server does with a POST on
    an event route is [eventRoutes]. [app.listen] throws on a port it
    refuses; otherwise its callback runs later, once the server listens. *)
Definition startExpressServer (config_port : option Z) : M World unit :=
  match listenPort config_port with
  | Some PORT => modify (with_listening (λ ports, ports ++ [PORT]))
  | None => throw (Error "options.port should be >= 0 and < 65536")
  end.

(** The callback given to [app.listen]; [registerFails]: [consulRegister]
    rejects. *)
Definition onListening (PORT : Z) (registerFails : bool) : M World unit :=
  external registerFails "consul registration failed" ;;;
  logger lvl_info ("Audit Service running on localhost:" +:+ pretty PORT) ;;;
  logger lvl_info "Ready to receive events from Dapr subscriptions".

(** The handlers app.ts registers on [process] for an uncaught exception
    and for an unhandled rejection. *)
Definition onUncaughtException (consulFails dbCloseFails : bool)
    (fault : option CloseFault) : M World unit :=
  logger lvl_error "Uncaught Exception:" ;;;
  gracefulShutdown "uncaughtException" consulFails dbCloseFails fault.

Definition onUnhandledRejection (consulFails dbCloseFails : bool)
    (fault : option CloseFault) : M World unit :=
  logger lvl_error "Unhandled Rejection" ;;;
  gracefulShutdown "unhandledRejection" consulFails dbCloseFails fault.

(** Check if Dapr sidecar is available: [response.ok], [false] when the
    probe fails. *)
Definition isDaprAvailable (s : Surroundings) : M World bool := ret (daprHealthy s).

(** [process.env.MESSAGING_PROVIDER || (daprAvailable ? 'dapr' : 'rabbitmq')] *)
Definition messagingProvider (s : Surroundings) (daprAvailable : bool) : string :=
  match MESSAGING_PROVIDER s with
  | Some v => if bool_decide (v = "") then (if daprAvailable then "dapr" else "rabbitmq") else v
  | None => if daprAvailable then "dapr" else "rabbitmq"
  end.

(** Start the consumer service *)
Definition startConsumer (s : Surroundings) : M World unit :=
  try_catch
    (logger lvl_info "Starting Audit Service Consumer..." ;;;
     (* Validate configuration *)
     external (configInvalid s) "Configuration validation failed" ;;;
     logger lvl_info "Configuration validated" ;;;
     (* Initialize database *)
     external (databaseFails s) "Database initialization failed" ;;;
     set_connected true ;;;
     logger lvl_info "Database initialized" ;;;
     (* Check Dapr availability *)
     daprAvailable <- isDaprAvailable s ;;
     let messagingProvider := messagingProvider s daprAvailable in
     if bool_decide (messagingProvider = "dapr") then
       (* Start Express server with Dapr event routes *)
       startExpressServer (config_port s) ;;;
       set_consuming true ;;;
       logger lvl_info "Audit Service Consumer started successfully with Dapr mode"
     else
       (* Start Express server (for health checks) and RabbitMQ consumer *)
       startExpressServer (config_port s) ;;;
       start (broker s) ;;;
       set_consuming true ;;;
       logger lvl_info "Audit Service Consumer started successfully with RabbitMQ mode")
    (λ error,
       logger lvl_error "Failed to start consumer:" ;;;
       process_exit 1).

End Startup.
Export Startup.

(** ** The running service, one event at a time *)

Module Lifecycle.

(** What happens to the process after it was loaded: [startConsumer]
    is called, the consumer's [start] or [stop] is called, one of the
    armed reconnect timers expires, a connection emits 'close' or
    'error', the broker delivers, a POST arrives on an event route, a
    server started by [app.listen] comes up or fails to, a signal
    arrives. The last three carry what the shutdown they may lead to
    meets. *)
Variant Event : Type :=
| Launches (surroundings : Surroundings)
| Starts (broker : option Stage)
| TimerExpires (timer : nat) (broker : option Stage)
| ConnectionCloses (connection : nat)
| ConnectionErrors (connection : nat)
| Delivers (delivery : option Message)
| Posts (path : string) (req : Request)
| Stops (fault : option CloseFault)
| ServerListens (registerFails : bool) (consulFails dbCloseFails : bool)
    (fault : option CloseFault)
| ServerFails (consulFails dbCloseFails : bool) (fault : option CloseFault)
| Signals (signal : string) (consulFails dbCloseFails : bool) (fault : option CloseFault).

(** The 'error' listener that [connect] registers. *)
Definition onConnectionError : M World unit :=
  logger lvl_error "RabbitMQ connection error".

(** The handler Express runs for a POST on [path]: the first route
    registered for it. *)
Definition route (path : string) : option (Request → Response → M World unit) :=
  snd <$> (snd <$> list_find (λ r, r.1 = path) eventRoutes).

(** The oldest server that has not come up yet does: the callback of
    [app.listen] runs, and when it rejects nobody handles the rejection. *)
Definition serverListens (registerFails consulFails dbCloseFails : bool)
    (fault : option CloseFault) (w : World) : World :=
  match listening w with
  | PORT :: rest =>
      match onListening PORT registerFails (with_listening (λ _, rest) w) with
      | (Ok _, w') => w'
      | (Throw _, w') => (onUnhandledRejection consulFails dbCloseFails fault w').2
      end
  | [] => w
  end.

(** It fails to instead (the address is in use): the server emits
    'error', which has no listener. *)
Definition serverFails (consulFails dbCloseFails : bool) (fault : option CloseFault)
    (w : World) : World :=
  match listening w with
  | _ :: rest =>
      (onUncaughtException consulFails dbCloseFails fault (with_listening (λ _, rest) w)).2
  | [] => w
  end.

(** A process that has exited runs nothing; a 'close' or 'error' event
    reaches the listener only for a connection that has one; a POST that matches no
    event route is left to the other routers, which are not part of this
    development. *)
Definition step (w : World) (ev : Event) : World :=
  if exitCode w is Some _ then w else
  match ev with
  | Launches surroundings => (startConsumer surroundings w).2
  | Starts broker => (start broker w).2
  | TimerExpires timer broker =>
      if timers w !! timer is Some _
      then (reconnectCallback broker (with_timers (delete timer) w)).2
      else w
  | ConnectionCloses c =>
      if bool_decide (c ∈ closeListeners w) then (onConnectionClose w).2 else w
  | ConnectionErrors c =>
      if bool_decide (c ∈ closeListeners w) then (onConnectionError w).2 else w
  | Delivers delivery => (onMessage delivery w).2
  | Posts path req =>
      if route path is Some handler then (handler req ExpressResponse w).2 else w
  | Stops fault => (stop fault w).2
  | ServerListens registerFails consulFails dbCloseFails fault =>
      serverListens registerFails consulFails dbCloseFails fault w
  | ServerFails consulFails dbCloseFails fault =>
      serverFails consulFails dbCloseFails fault w
  | Signals signal consulFails dbCloseFails fault =>
      (gracefulShutdown signal consulFails dbCloseFails fault w).2
  end.

Definition run (events : list Event) (w : World) : World := foldl step w events.

(** A delay [handleReconnect] can pass to [setTimeout]. *)
Definition isBackoffDelay (d : Z) : Prop :=
  ∃ k, 0 ≤ k < maxReconnectAttempts ∧ d = reconnectDelay * 2 ^ k.

(** The counter is within the cap, every delay ever scheduled is a
    backoff delay, and the armed timers are among the scheduled ones, in
    the order they were scheduled. *)
Definition reconnectInvariant (w : World) : Prop :=
  0 ≤ reconnectAttempts (consumer w) ≤ maxReconnectAttempts
  ∧ Forall isBackoffDelay (scheduled w)
  ∧ sublist (timers w) (scheduled w).

End Lifecycle.
Export Lifecycle.

(** ** validators/config.validator.ts, config/index.ts, core/secretManager.ts *)

Module Configuration.
Import Stdlib.Strings.Ascii.

(** The part of the process these modules touch: [process.env] and the
    console. Variable values and names are ASCII text, one byte per
    code unit. *)
Variant Stream : Type := console_log | console_warn | console_error.

Record Host : Type := mkHost {
  env : gmap string string;
  console : list (Stream * string);   (* oldest first *)
}.

Definition write (stream : Stream) (text : string) : M Host unit :=
  modify (λ h, mkHost (env h) (console h ++ [(stream, text)])).

Definition setenv (key value : string) : M Host unit :=
  modify (λ h, mkHost (<[key := value]> (env h)) (console h)).

(** [process.env[key]] *)
Definition getenv (key : string) : M Host (option string) :=
  gets (λ h, env h !! key).

(** [!value] for a value that is a string or [undefined] *)
Definition falsy (value : option string) : bool :=
  match value with
  | Some s => bool_decide (s = "")
  | None => true
  end.

(** [a || b] on such values *)
Definition or_else (value : option string) (fallback : string) : string :=
  match value with
  | Some s => if bool_decide (s = "") then fallback else s
  | None => fallback
  end.

(** [c.toLowerCase()] *)
Definition lower (c : Ascii.ascii) : Ascii.ascii :=
  let n := Ascii.nat_of_ascii c in
  if (65 <=? n)%nat && (n <=? 90)%nat then Ascii.ascii_of_nat (n + 32) else c.

Fixpoint toLowerCase (s : string) : string :=
  match s with
  | EmptyString => EmptyString
  | String c rest => String (lower c) (toLowerCase rest)
  end.

(** White space and line terminators, as [parseInt] skips them. *)
Definition isWhiteSpace (c : Ascii.ascii) : bool :=
  let n := Ascii.nat_of_ascii c in
  ((9 <=? n)%nat && (n <=? 13)%nat) || (n =? 32)%nat.

Fixpoint skipWhiteSpace (s : string) : string :=
  match s with
  | String c rest => if isWhiteSpace c then skipWhiteSpace rest else s
  | EmptyString => s
  end.

Definition digit (c : Ascii.ascii) : option Z :=
  let n := Ascii.nat_of_ascii c in
  if (48 <=? n)%nat && (n <=? 57)%nat then Some (Z.of_nat n - 48) else None.

(** The decimal digits [s] starts with, as a number; [acc] is [None]
    until a digit was read. *)
Fixpoint digits (s : string) (acc : option Z) : option Z :=
  match s with
  | String c rest =>
      match digit c with
      | Some d => digits rest (Some (10 * default 0 acc + d))
      | None => acc
      end
  | EmptyString => acc
  end.

(** [parseInt(s, 10)]; [None] is [NaN]. *)
Definition parseInt (s : string) : option Z :=
  match skipWhiteSpace s with
  | String "-"%char rest => Z.opp <$> digits rest None
  | String "+"%char rest => digits rest None
  | unsigned => digits unsigned None
  end.

(** Validates a port number *)
Definition isValidPort (port : string) : bool :=
  match parseInt port with
  | Some portNum => (0 <? portNum) && (portNum <=? 65535)
  | None => false
  end.

(** Validates log level *)
Definition isValidLogLevel (level : string) : bool :=
  bool_decide (toLowerCase level ∈
    ["error"; "warn"; "info"; "http"; "verbose"; "debug"; "silly"]).

(** Validates NODE_ENV *)
Definition isValidNodeEnv (env : string) : bool :=
  bool_decide (toLowerCase env ∈ ["development"; "production"; "test"]).

(** Validates AMQP URL format *)
Definition isValidAmqpUrl (url : string) : bool :=
  String.prefix "amqp://" url || String.prefix "amqps://" url.

(** [Boolean(value && value.length > 0)] *)
Definition isNonEmpty (value : string) : bool := negb (bool_decide (value = "")).

(** [\d+] at the start of [s]: what follows the digits, if there is one. *)
Fixpoint afterDigits (s : string) (seen : bool) : option string :=
  match s with
  | String c rest =>
      if digit c is Some _ then afterDigits rest true
      else if seen then Some s else None
  | EmptyString => if seen then Some s else None
  end.

Definition afterDot (s : string) : option string :=
  match s with
  | String "."%char rest => Some rest
  | _ => None
  end.

(** [/^\d+\.\d+\.\d+/.test(value)] *)
Definition startsWithSemver (value : string) : bool :=
  let matched : option string :=
    major ← afterDigits value false; minor ← afterDot major;
    dot ← afterDigits minor false; patch ← afterDot dot;
    afterDigits patch false in
  if matched is Some _ then true else false.

(** [['true', 'false'].includes(value?.toLowerCase())] *)
Definition isBooleanWord (value : string) : bool :=
  bool_decide (toLowerCase value ∈ ["true"; "false"]).

Record ValidationRule : Type := mkRule {
  required : bool;
  validator : string → bool;
  errorMessage : string;
  default_ : option string;   (* the field [default] *)
}.

(** Configuration validation rules for audit-service consumer *)
Definition validationRules : list (string * ValidationRule) :=
  [ (* Service Configuration *)
    ("NODE_ENV", mkRule false isValidNodeEnv
       "NODE_ENV must be one of: development, production, test" (Some "development"));
    ("PORT", mkRule false (λ value, isValidPort value)
       "PORT must be a valid port number (1-65535)" (Some "9012"));
    ("NAME", mkRule false isNonEmpty
       "NAME must be a non-empty string" (Some "audit-service"));
    ("VERSION", mkRule false (λ value, isNonEmpty value && startsWithSemver value)
       "VERSION must be in semantic version format (e.g., 1.0.0)" (Some "1.0.0"));
    (* Database Configuration *)
    ("POSTGRES_HOST", mkRule false isNonEmpty
       "POSTGRES_HOST must be a non-empty string" (Some "localhost"));
    ("POSTGRES_PORT", mkRule false (λ value, isValidPort value)
       "POSTGRES_PORT must be a valid port number" (Some "5432"));
    ("POSTGRES_DB", mkRule false isNonEmpty
       "POSTGRES_DB must be a non-empty string" (Some "audit_service_db"));
    ("POSTGRES_USER", mkRule false isNonEmpty
       "POSTGRES_USER must be a non-empty string" (Some "postgres"));
    ("POSTGRES_PASSWORD", mkRule false isNonEmpty
       "POSTGRES_PASSWORD must be a non-empty string" (Some "password"));
    ("DB_SSL", mkRule false isBooleanWord
       "DB_SSL must be true or false" (Some "false"));
    ("DB_POOL_MIN", mkRule false
       (λ value, if parseInt value is Some n then 0 <=? n else false)
       "DB_POOL_MIN must be a non-negative number" (Some "5"));
    ("DB_POOL_MAX", mkRule false
       (λ value, if parseInt value is Some n then 0 <? n else false)
       "DB_POOL_MAX must be a positive number" (Some "20"));
    (* Logging Configuration *)
    ("LOG_LEVEL", mkRule false isValidLogLevel
       "LOG_LEVEL must be one of: error, warn, info, http, verbose, debug, silly" (Some "info"));
    ("LOG_FORMAT", mkRule false
       (λ value, bool_decide (value = "")
                 || bool_decide (toLowerCase value ∈ ["json"; "console"]))
       "LOG_FORMAT must be either json or console" (Some "console"));
    ("LOG_TO_CONSOLE", mkRule false isBooleanWord
       "LOG_TO_CONSOLE must be true or false" (Some "true"));
    ("LOG_TO_FILE", mkRule false isBooleanWord
       "LOG_TO_FILE must be true or false" (Some "false"));
    ("LOG_FILE_PATH", mkRule false
       (λ value, bool_decide (value = "") || (isNonEmpty value && includes value "."))
       "LOG_FILE_PATH must be a valid file path with extension"
       (Some "./logs/audit-service.log")) ].

Section Validate.
(** [Object.entries(validationRules)], in the order of the literal. *)
Variable rules : list (string * ValidationRule).

(** The loop of [validateConfig] over the entries that remain, with the
    two arrays it fills. *)
Fixpoint validateEntries (entries : list (string * ValidationRule))
    (errors warnings : list string) : M Host (list string * list string) :=
  match entries with
  | [] => ret (errors, warnings)
  | (key, rule) :: rest =>
      value <- getenv key ;;
      (* Check if required variable is missing *)
      if required rule && falsy value then
        validateEntries rest (errors ++ ["❌ " +:+ key +:+ " is required but not set"]) warnings
      (* Skip validation if value is not set and not required *)
      else if falsy value && negb (required rule) then
        if default_ rule is Some default then
          if bool_decide (default = "") then validateEntries rest errors warnings
          else
            setenv key default ;;;
            validateEntries rest errors
              (warnings ++ ["⚠️  " +:+ key +:+ " not set, using default: " +:+ default])
        else validateEntries rest errors warnings
      (* Validate the value *)
      else
        match value with
        | Some value =>
            if negb (validator rule value) then
              validateEntries rest
                (errors ++
                 ["❌ " +:+ key +:+ ": " +:+ errorMessage rule;
                  if (100 <? String.length value)%nat
                  then "   Current value: " +:+ String.substring 0 100 value +:+ "..."
                  else "   Current value: " +:+ value])
                warnings
            else validateEntries rest errors warnings
        | None => validateEntries rest errors warnings
        end
  end.

(** Validates all environment variables according to the rules *)
Definition validateConfig : M Host unit :=
  let errors := [] in
  let warnings := [] in
  write console_log "[CONFIG] Validating audit-service environment configuration..." ;;;
  (* Validate each rule *)
  filled <- validateEntries rules errors warnings ;;
  let '(errors, warnings) := filled in
  (* Log warnings *)
  for_of warnings (write console_warn) ;;;
  (* If there are errors, log them and throw *)
  if (0 <? length errors)%nat then
    write console_error "[CONFIG] ❌ Configuration validation failed:" ;;;
    for_of errors (write console_error) ;;;
    write console_error
      (String "010"%char "💡 Please check your .env file and ensure all required variables are set correctly.") ;;;
    throw (Error ("Configuration validation failed with " +:+ pretty (length errors)
                  +:+ " error(s)"))
  else
    write console_log "[CONFIG] ✅ All required environment variables are valid".

(** The default [validateConfig] writes for [key], if the variable is
    unset or empty: that of the entry of [key], when the entry is not
    required and its default is not empty. *)
Definition defaultOf (key : string) : option string :=
  match list_find (λ entry, entry.1 = key) rules with
  | Some (_, (_, rule)) =>
      match required rule, default_ rule with
      | false, Some default => if bool_decide (default = "") then None else Some default
      | _, _ => None
      end
  | None => None
  end.

(** What [validateConfig] holds against the entry of a variable: the
    number of lines it adds to [errors]. *)
Definition complaints (h : Host) (entry : string * ValidationRule) : nat :=
  let '(key, rule) := entry in
  match env h !! key with
  | Some value =>
      if bool_decide (value = "") then (if required rule then 1 else 0)
      else if validator rule value then 0 else 2
  | None => if required rule then 1 else 0
  end%nat.

(** The variable of the entry is set, not empty, and its validator
    rejects it. *)
Definition isInvalid (h : Host) (entry : string * ValidationRule) : bool :=
  match env h !! entry.1 with
  | Some value => negb (bool_decide (value = "")) && negb (validator entry.2 value)
  | None => false
  end.

End Validate.

(** *** config/index.ts *)

(** [getEnv(key, defaultValue)]; [value || defaultValue] is [undefined]
    for an empty value without default. *)
Definition getEnv (key : string) (defaultValue : option string) : M Host (option string) :=
  value <- getenv key ;;
  match value, defaultValue with
  | None, None => throw (Error ("Environment variable " +:+ key +:+ " is required"))
  | _, _ => ret (if falsy value then defaultValue else value)
  end.

(** [getEnvBoolean(key, defaultValue)] *)
Definition getEnvBoolean (key : string) (defaultValue : option bool) : M Host bool :=
  value <- getenv key ;;
  match value, defaultValue with
  | None, None => throw (Error ("Environment variable " +:+ key +:+ " is required"))
  | _, _ =>
      let stringValue :=
        if falsy value
        then (λ b : bool, if b then "true" else "false") <$> defaultValue
        else toLowerCase <$> value in
      ret (bool_decide (stringValue = Some "true") || bool_decide (stringValue = Some "1"))
  end.

(** *** core/secretManager.ts *)

Record DatabaseConfig : Type := mkDatabaseConfig {
  host : string;
  port : option Z;      (* [None] is [NaN] *)
  database : string;
  username : string;
  password : string;
  ssl : bool;
}.

(** Get a secret value from environment variables. The calls of the
    logger in this module are not kept. *)
Definition getSecret (secretName : string) : M Host (option string) :=
  value <- getenv secretName ;;
  ret (if falsy value then None else value).

(** Get database configuration from environment variables *)
Definition getDatabaseConfig : M Host DatabaseConfig :=
  POSTGRES_HOST <- getenv "POSTGRES_HOST" ;;
  POSTGRES_PORT <- getenv "POSTGRES_PORT" ;;
  POSTGRES_DB <- getenv "POSTGRES_DB" ;;
  POSTGRES_USER <- getenv "POSTGRES_USER" ;;
  POSTGRES_PASSWORD <- getenv "POSTGRES_PASSWORD" ;;
  DB_SSL <- getenv "DB_SSL" ;;
  ret (mkDatabaseConfig
         (or_else POSTGRES_HOST "localhost")
         (parseInt (or_else POSTGRES_PORT "5432"))
         (or_else POSTGRES_DB "audit_service_db")
         (or_else POSTGRES_USER "postgres")
         (or_else POSTGRES_PASSWORD "password")
         (bool_decide (or_else DB_SSL "false" = "true"))).

(** Get message broker configuration from environment variables *)
Definition getMessageBrokerConfig : M Host (string * string) :=
  url <- getenv "MESSAGE_BROKER_URL" ;;
  queue <- getenv "MESSAGE_BROKER_QUEUE" ;;
  match url, queue with
  | Some url, Some queue =>
      if bool_decide (url = "") || bool_decide (queue = "")
      then throw (Error "Missing required MESSAGE_BROKER_URL or MESSAGE_BROKER_QUEUE environment variables")
      else ret (url, queue)
  | _, _ =>
      throw (Error "Missing required MESSAGE_BROKER_URL or MESSAGE_BROKER_QUEUE environment variables")
  end.

(** Get JWT configuration from environment variables *)
Definition getJwtConfig : M Host string :=
  secret <- getenv "JWT_SECRET" ;;
  match secret with
  | Some secret =>
      if bool_decide (secret = "")
      then throw (Error "JWT_SECRET environment variable not found")
      else ret secret
  | None => throw (Error "JWT_SECRET environment variable not found")
  end.

(** *** The secret manager on Dapr's secret store *)

(** [shouldUseDapr], computed when the module is loaded:
    [(process.env.MESSAGING_PROVIDER || 'dapr') === 'dapr'] *)
Definition shouldUseDapr : M Host bool :=
  MESSAGING_PROVIDER <- getenv "MESSAGING_PROVIDER" ;;
  ret (bool_decide (or_else MESSAGING_PROVIDER "dapr" = "dapr")).

Section Dapr.
(** The manager's own flag, and what the sidecar answers to
    [client.secret.get(store, name)]: the object it returns, whose
    values are strings, or [None] when loading the SDK or the call
    fails. *)
Variable shouldUseDapr : bool.
Variable sidecar : string → option (gmap string string).

(** Get a secret value from Dapr secret store *)
Definition dapr_getSecret (secretName : string) : M Host (option string) :=
  if negb shouldUseDapr then
    (* When not using Dapr, return null to fall back to environment variables *)
    ret None
  else
    try_catch
      (match sidecar secretName with
       | None => throw (Error "Dapr sidecar not reachable")
       | Some response =>
           (* Dapr returns an object like { secretName: 'value' } *)
           match response !! secretName with
           | Some value => ret (Some value)
           | None => ret None
           end
       end)
      (λ error, ret None).

(** [a || b || c] *)
Definition or_else2 (a b : option string) (c : string) : string :=
  or_else a (or_else b c).

(** Get database configuration from secrets *)
Definition dapr_getDatabaseConfig : M Host DatabaseConfig :=
  host <- dapr_getSecret "POSTGRES_HOST" ;;
  port <- dapr_getSecret "POSTGRES_PORT" ;;
  database <- dapr_getSecret "POSTGRES_DB" ;;
  username <- dapr_getSecret "POSTGRES_USER" ;;
  password <- dapr_getSecret "POSTGRES_PASSWORD" ;;
  ssl <- dapr_getSecret "DB_SSL" ;;
  (* Use environment variables as fallback *)
  POSTGRES_HOST <- getenv "POSTGRES_HOST" ;;
  POSTGRES_PORT <- getenv "POSTGRES_PORT" ;;
  POSTGRES_DB <- getenv "POSTGRES_DB" ;;
  POSTGRES_USER <- getenv "POSTGRES_USER" ;;
  POSTGRES_PASSWORD <- getenv "POSTGRES_PASSWORD" ;;
  DB_SSL <- getenv "DB_SSL" ;;
  ret (mkDatabaseConfig
         (or_else2 host POSTGRES_HOST "localhost")
         (parseInt (or_else2 port POSTGRES_PORT "5432"))
         (or_else2 database POSTGRES_DB "audit_service_db")
         (or_else2 username POSTGRES_USER "postgres")
         (or_else2 password POSTGRES_PASSWORD "password")
         (bool_decide (or_else2 ssl DB_SSL "false" = "true"))).

(** Get message broker configuration from secrets *)
Definition dapr_getMessageBrokerConfig : M Host (string * string) :=
  url <- dapr_getSecret "MESSAGE_BROKER_URL" ;;
  queue <- dapr_getSecret "MESSAGE_BROKER_QUEUE" ;;
  if falsy url || falsy queue
  then throw (Error "Missing required message broker secrets from Dapr")
  else ret (or_else url "", or_else queue "").

(** Get JWT configuration from secrets *)
Definition dapr_getJwtConfig : M Host string :=
  secret <- dapr_getSecret "JWT_SECRET" ;;
  if falsy secret
  then throw (Error "JWT_SECRET not found in Dapr secret store")
  else ret (or_else secret "").

(** What [dapr_getSecret] finds for a name. *)
Definition secretOf (secretName : string) : option string :=
  if shouldUseDapr then sidecar secretName ≫= (.!! secretName) else None.

(** The environment with the secrets laid over it: a secret that is
    found and not empty hides the variable of the same name. *)
Definition withSecrets (names : list string) (e : gmap string string) : gmap string string :=
  foldr (λ name m, if secretOf name is Some value
                   then (if bool_decide (value = "") then m else <[name := value]> m)
                   else m) e names.

End Dapr.

End Configuration.
Export Configuration.

(** ** db/connection.ts *)

Module Connection.

(** [PoolConfig], as [initialize] fills it. *)
Record PoolConfig : Type := mkPoolConfig {
  pool_host : string;
  pool_port : option Z;
  pool_database : string;
  pool_user : string;
  pool_password : string;
  pool_ssl : bool;
  pool_min : Z;
  pool_max : Z;
  idleTimeoutMillis : Z;
  connectionTimeoutMillis : Z;
}.

(** A [Pool]: which one it is, and what it was built with. *)
Record Pool : Type := mkPool { pool_id : nat; pool_config : PoolConfig }.

(** The fields of [config.database] read here; [config] is built once,
    when config/index.ts is loaded. *)
Record DatabaseSettings : Type := mkDatabaseSettings {
  settings_ssl : bool;
  poolMin : Z;
  poolMax : Z;
}.

(** The singleton [DatabaseConnection] and what it acts on: the
    process environment, the pools built so far, those that were ended,
    the clients checked out and not released, and the log. *)
Record Node : Type := mkNode {
  host_process : Host;
  pool : option Pool;           (* [this.pool] *)
  built : nat;                  (* pools created by [new Pool] *)
  ended : list nat;             (* pools on which [end()] completed *)
  clients : nat;
  entries : list LogEntry;
}.

Definition log_entry (l : Level) (msg : string) : M Node unit :=
  modify (λ n, mkNode (host_process n) (pool n) (built n) (ended n) (clients n)
                      (entries n ++ [mkLog l msg])).

(** Code of the secret manager, run on the environment of the node. *)
Definition on_host {A} (m : M Host A) : M Node A :=
  λ n, let '(r, h) := m (host_process n) in
       (r, mkNode h (pool n) (built n) (ended n) (clients n) (entries n)).

Section Connection.
Variable config_database : DatabaseSettings.

(** Initialize database connection pool *)
Definition initialize : M Node Pool :=
  this_pool <- gets pool ;;
  match this_pool with
  | Some this_pool => ret this_pool
  | None =>
      (* Load database configuration from environment variables *)
      dbConfig <- on_host getDatabaseConfig ;;
      log_entry lvl_info "Database configuration loaded from environment" ;;;
      let poolConfig :=
        mkPoolConfig (host dbConfig) (port dbConfig) (database dbConfig)
                     (username dbConfig) (password dbConfig)
                     (ssl dbConfig || settings_ssl config_database)
                     (poolMin config_database) (poolMax config_database)
                     30000 10000 in
      (* [new Pool(poolConfig)]; its 'error' listener only logs *)
      new_pool <- (λ n, (Ok (mkPool (built n) poolConfig),
                         mkNode (host_process n) (Some (mkPool (built n) poolConfig))
                                (S (built n)) (ended n) (clients n) (entries n))) ;;
      (* Log successful connection *)
      log_entry lvl_info "[SUCCESS] PostgreSQL connection pool initialized" ;;;
      ret new_pool
  end.

(** Get the connection pool *)
Definition getPool : M Node Pool :=
  this_pool <- gets pool ;;
  match this_pool with
  | None => throw (Error "Database pool not initialized. Call initialize() first.")
  | Some this_pool => ret this_pool
  end.

(** Test database connection; [connectFails]: [pool.connect()] rejects,
    [queryFails]: the query rejects or its result cannot be read. *)
Definition testConnection (connectFails queryFails : bool) : M Node bool :=
  try_catch
    (_pool <- initialize ;;
     (if connectFails then throw (Error "connect ECONNREFUSED")
      else modify (λ n, mkNode (host_process n) (pool n) (built n) (ended n)
                               (S (clients n)) (entries n))) ;;;
     try_finally
       ((if queryFails then throw (Error "query failed") else ret tt) ;;;
        log_entry lvl_info "[SUCCESS] Database connection test successful" ;;;
        ret true)
       (λ n, mkNode (host_process n) (pool n) (built n) (ended n)
                    (Nat.pred (clients n)) (entries n)))
    (λ error,
       log_entry lvl_error "[ERROR] Database connection test failed" ;;;
       ret false).

(** Close database connection pool; [endFails]: [pool.end()] rejects. *)
Definition close (endFails : bool) : M Node unit :=
  this_pool <- gets pool ;;
  match this_pool with
  | Some this_pool =>
      (if endFails then throw (Error "pool.end failed") else ret tt) ;;;
      modify (λ n, mkNode (host_process n) None (built n) (ended n ++ [pool_id this_pool])
                          (clients n) (entries n)) ;;;
      log_entry lvl_info "[SUCCESS] Database connection pool closed"
  | None => ret tt
  end.

(** What is done to the connection, one call at a time; between calls
    the environment may change. *)
Variant Call : Type :=
| Initialize
| GetPool
| TestConnection (connectFails queryFails : bool)
| Close (endFails : bool)
| Setenv (key value : string).

Definition perform (n : Node) (call : Call) : Node :=
  match call with
  | Initialize => (initialize n).2
  | GetPool => (getPool n).2
  | TestConnection connectFails queryFails => (testConnection connectFails queryFails n).2
  | Close endFails => (close endFails n).2
  | Setenv key value => (on_host (setenv key value) n).2
  end.

(** A pool that was ended is not the current one, pools are numbered
    in the order they were built, and no client is checked out. *)
Definition consistent (n : Node) : Prop :=
  (∀ p, pool n = Some p → (pool_id p < built n)%nat ∧ pool_id p ∉ ended n)
  ∧ Forall (λ i, (i < built n)%nat) (ended n)
  ∧ NoDup (ended n)
  ∧ clients n = 0%nat.

End Connection.

End Connection.
Export Connection.

(** ** core/logger.ts *)

Module CoreLogger.

(** A call of the winston logger: its level, the message and the
    metadata object. *)
Variant WinstonLevel : Type := winston_error | winston_warn | winston_info | winston_debug.

Record WinstonCall : Type := mkCall {
  call_level : WinstonLevel;
  call_message : string;
  call_meta : option (gmap string JsValue);   (* [None]: [undefined] *)
}.

Definition winstonLogger (l : WinstonLevel) (message : string)
    (meta : option (gmap string JsValue)) : M (list WinstonCall) unit :=
  modify (λ calls, calls ++ [mkCall l message meta]).

(** [{ ...meta }] of a value that is an object or [undefined] *)
Definition spread (meta : option (gmap string JsValue)) : gmap string JsValue :=
  default ∅ meta.

Definition info message meta := winstonLogger winston_info message meta.
Definition warn message meta := winstonLogger winston_warn message meta.
Definition error message meta := winstonLogger winston_error message meta.
Definition debug message meta := winstonLogger winston_debug message meta.

(** [{ ...meta, eventType: 'business' }] and the like: the key written
    last wins. *)
Definition business event meta :=
  winstonLogger winston_info event (Some (<["eventType" := JStr "business"]> (spread meta))).
Definition security event meta :=
  winstonLogger winston_warn event (Some (<["eventType" := JStr "security"]> (spread meta))).
Definition audit event meta :=
  winstonLogger winston_info event (Some (<["eventType" := JStr "audit"]> (spread meta))).

(** The methods of [Logger] and of the object [withTraceContext] returns. *)
Variant Method : Type :=
| m_debug | m_info | m_warn | m_error | m_business | m_security | m_audit.

Definition method (m : Method)
  : string → option (gmap string JsValue) → M (list WinstonCall) unit :=
  match m with
  | m_debug => debug | m_info => info | m_warn => warn | m_error => error
  | m_business => business | m_security => security | m_audit => audit
  end.

(** [{ traceId, ...(spanId && { spanId }) }] *)
Definition traceMetadata (traceId : string) (spanId : option string) : gmap string JsValue :=
  match spanId with
  | Some span => if bool_decide (span = "") then {[ "traceId" := JStr traceId ]}
                 else <["spanId" := JStr span]> {[ "traceId" := JStr traceId ]}
  | None => {[ "traceId" := JStr traceId ]}
  end.

(** Create a logger bound to a trace context (traceId and spanId):
    [{ ...metadata, ...traceMetadata }] is the union in which the trace
    metadata win. *)
Definition withTraceContext (traceId : string) (spanId : option string) (m : Method)
  : string → option (gmap string JsValue) → M (list WinstonCall) unit :=
  λ message metadata,
    method m message (Some (traceMetadata traceId spanId ∪ spread metadata)).

End CoreLogger.
Export CoreLogger.

(** * Properties *)

(** ** Push mode: the event routes *)

(** What a handler built by [handleEvent] does, whatever its log
    function does: it resolves, counts the message, logs the log
    function's entry or else the error, and answers once through [res]. *)
Lemma handleEvent_runs eventName logFunction req res w :
  ∃ w', handleEvent eventName logFunction req res w = (Ok tt, w')
    ∧ responses w' = responses w ++
        match res with ExpressResponse => [(200, SUCCESS)] | MockResponse => [] end
    ∧ logs w' = logs w ++
        [match logFunction (body req) with
         | Ok entry => entry
         | Throw _ => mkLog lvl_error ("Error handling " +:+ eventName +:+ " event")
         end]
    ∧ messagesProcessed (consumerState w') = messagesProcessed (consumerState w) + 1
    ∧ channelOps w' = channelOps w
    ∧ consumer w' = consumer w
    ∧ timers w' = timers w
    ∧ scheduled w' = scheduled w
    ∧ exitCode w' = exitCode w.
Proof.
  unfold handleEvent, try_catch, bind, run_logFunction, trackMessageProcessed, modify, logger.
  destruct (logFunction (body req)) as [entry|e]; destruct res; simpl;
    eexists; (split; [reflexivity|]); simpl; rewrite ?app_nil_r; tauto.
Qed.

Lemma eventRoutes_are_wrapped :
  Forall (λ route, ∃ eventName logFunction, route.2 = handleEvent eventName logFunction)
         eventRoutes.
Proof.
  unfold eventRoutes.
  repeat (apply List.Forall_cons; [eexists _, _; reflexivity|]).
  apply List.Forall_nil.
Qed.

(** C9. In push mode every registered event route answers 200 with
    [{status: "SUCCESS"}], exactly once and whatever happens inside: when
    the log function throws, the handler still resolves, the failure is
    logged at error level, and the response is the same. *)
Theorem push_route_always_answers_success path handler req w :
  (path, handler) ∈ eventRoutes →
  ∃ w' eventName logFunction,
    handler = handleEvent eventName logFunction
    ∧ handler req ExpressResponse w = (Ok tt, w')
    ∧ responses w' = responses w ++ [(200, SUCCESS)]
    ∧ logs w' = logs w ++
        [match logFunction (body req) with
         | Ok entry => entry
         | Throw _ => mkLog lvl_error ("Error handling " +:+ eventName +:+ " event")
         end].
Proof.
  intros Hin.
  pose proof (proj1 (Forall_forall _ _) eventRoutes_are_wrapped _ Hin) as (n & f & Heq).
  simpl in Heq. subst handler.
  destruct (handleEvent_runs n f req ExpressResponse w) as (w' & Hrun & Hres & Hlog & _).
  exists w', n, f. auto.
Qed.

(** The route of user.created, called with a [null] body: the log
    function throws on [event.eventId], the answer is 200 SUCCESS. *)
Lemma push_route_always_answers_success_witness :
  ∃ w', handleUserCreated (mkRequest JNull) ExpressResponse (boot 0) = (Ok tt, w')
        ∧ responses w' = [(200, SUCCESS)].
Proof.
  destruct (push_route_always_answers_success "/events/user/created" handleUserCreated
              (mkRequest JNull) (boot 0)) as (w' & n & f & Heq & Hrun & Hres & Hlog).
  - unfold eventRoutes. do 6 apply list_elem_of_further. apply list_elem_of_here.
  - exists w'. split; [exact Hrun | exact Hres].
Defined.

(** ** Pull mode: the consume callback *)

Lemma TOPIC_HANDLERS_are_wrapped :
  Forall (λ entry, ∃ eventName logFunction,
            entry.2 = via (handleEvent eventName logFunction))
         TOPIC_HANDLERS_literal.
Proof.
  unfold TOPIC_HANDLERS_literal.
  repeat (apply List.Forall_cons; [eexists _, _; reflexivity|]).
  apply List.Forall_nil.
Qed.

Lemma TOPIC_HANDLERS_lookup routingKey handler :
  TOPIC_HANDLERS !! routingKey = Some handler →
  ∃ eventName logFunction, handler = via (handleEvent eventName logFunction).
Proof.
  intros Hlook. apply elem_of_list_to_map_2 in Hlook.
  exact (proj1 (Forall_forall _ _) TOPIC_HANDLERS_are_wrapped _ Hlook).
Qed.

(** Every handler of the dispatch table resolves: the wrapper catches
    what its log function throws. *)
Lemma topic_handler_never_rejects routingKey handler event w :
  TOPIC_HANDLERS !! routingKey = Some handler →
  ∃ w', handler event w = (Ok tt, w')
        ∧ channelOps w' = channelOps w
        ∧ responses w' = responses w.
Proof.
  intros (n & f & ->)%TOPIC_HANDLERS_lookup. unfold via.
  destruct (handleEvent_runs n f (createMockRequest event) createMockResponse w)
    as (w' & Hrun & Hres & _ & _ & Hops & _).
  exists w'. simpl in Hres. rewrite app_nil_r in Hres. auto.
Qed.

(** What the lookup of the consume callback finds: the own entry of a
    topic, nothing for a name that is neither a topic nor inherited. *)
Lemma TOPIC_HANDLERS_get_own routingKey handler :
  TOPIC_HANDLERS !! routingKey = Some handler →
  TOPIC_HANDLERS_get routingKey = Some handler.
Proof. intros Hlook. unfold TOPIC_HANDLERS_get, Handler in *. by rewrite Hlook. Qed.

Lemma TOPIC_HANDLERS_get_inherited routingKey :
  TOPIC_HANDLERS !! routingKey = None →
  TOPIC_HANDLERS_get routingKey
  = (λ member event, lift (member event)) <$> inherited routingKey.
Proof. intros Hlook. unfold TOPIC_HANDLERS_get, Handler in *. by rewrite Hlook. Qed.

(** A delivery for a known topic whose body is JSON other than [null]
    is acknowledged, once, and not rejected. *)
Lemma known_topic_acked msg event handler w :
  RabbitMQ.content msg = JSON event →
  event ≠ JNull → event ≠ JUndefined →
  TOPIC_HANDLERS !! routingKey msg = Some handler →
  ∃ w', onMessage (Some msg) w = (Ok tt, w')
        ∧ channelOps w' = channelOps w ++ [ack (deliveryTag msg)].
Proof.
  intros Hc Hnull Hundef Hlook.
  destruct (topic_handler_never_rejects _ _ event w Hlook) as (w1 & Hrun & Hops & _).
  unfold onMessage, try_catch, bind. cbv zeta.
  rewrite Hc, (TOPIC_HANDLERS_get_own _ _ Hlook).
  cbn [JSON_parse ret]. rewrite Hrun.
  unfold trackMessageProcessed, channel_ack, logger, modify, lift, ret, get. cbn -[pretty].
  destruct event as [| |b|n|s|items|fields]; try congruence; simpl;
    try (eexists; split; [reflexivity|]; simpl; congruence).
  destruct (truthy (field "id" fields)); simpl;
    (eexists; split; [reflexivity|]; simpl; congruence).
Qed.

(** C1 (as amended). A delivery whose body does not parse as JSON is
    not acknowledged: the failure is logged at error level and the
    delivery is rejected with requeue, whatever its routing key. *)
Theorem malformed_message_is_requeued msg text w :
  RabbitMQ.content msg = NotJSON text →
  onMessage (Some msg) w =
    (Ok tt,
     with_channelOps (λ ops, ops ++ [nack (deliveryTag msg) false true])
       (with_logs (λ ls, ls ++ [mkLog lvl_error
                                  ("Error processing audit event: " +:+ routingKey msg)]) w)).
Proof. intros Hc. unfold onMessage, try_catch, bind. cbv zeta. rewrite Hc. reflexivity. Qed.

Lemma malformed_message_is_requeued_witness :
  channelOps (onMessage (Some (mkMessage "user.created" (NotJSON "{") 7)) (boot 0)).2
  = [nack 7 false true].
Proof.
  rewrite (malformed_message_is_requeued (mkMessage "user.created" (NotJSON "{") 7) "{" (boot 0)).
  - reflexivity.
  - reflexivity.
Defined.

(** C1, counterexample. The body "{" is not JSON; the delivery is not
    acknowledged, it is rejected with requeue. *)
Lemma malformed_message_not_acked :
  let w' := (onMessage (Some (mkMessage "user.created" (NotJSON "{") 7)) (boot 0)).2 in
  (ack 7 ∉ channelOps w') ∧ (nack 7 false true ∈ channelOps w').
Proof.
  vm_compute. split.
  - intros H. apply list_elem_of_singleton in H. discriminate H.
  - apply list_elem_of_singleton. reflexivity.
Qed.

(** C8 (as amended). A delivery whose body parses as JSON and whose
    routing key is neither a key of the dispatch table nor the name of a
    property the table inherits from [Object.prototype] is acknowledged,
    after a warning, and is not rejected. *)
Theorem unknown_topic_is_acked msg event w :
  RabbitMQ.content msg = JSON event →
  TOPIC_HANDLERS !! routingKey msg = None →
  inherited (routingKey msg) = None →
  onMessage (Some msg) w =
    (Ok tt,
     with_channelOps (λ ops, ops ++ [ack (deliveryTag msg)])
       (with_logs (λ ls, ls ++ [mkLog lvl_warn
                                  ("No handler for topic: " +:+ routingKey msg)]) w)).
Proof.
  intros Hc Hlook Hproto. unfold onMessage, try_catch, bind. cbv zeta.
  rewrite Hc, (TOPIC_HANDLERS_get_inherited _ Hlook), Hproto. reflexivity.
Qed.

Lemma unknown_topic_is_acked_witness :
  channelOps (onMessage (Some (mkMessage "tenant.created" (JSON (JObj [])) 3)) (boot 0)).2
  = [ack 3].
Proof.
  rewrite (unknown_topic_is_acked (mkMessage "tenant.created" (JSON (JObj [])) 3) (JObj []) (boot 0)).
  - reflexivity.
  - reflexivity.
  - vm_compute. reflexivity.
  - vm_compute. reflexivity.
Defined.

(** Two routing keys that have no entry in the table and are not
    unknown topics either. [__proto__] finds the prototype object, the
    call of it throws, and the delivery is rejected with requeue;
    [constructor] finds [Object], the call returns, and the delivery is
    counted and acknowledged without a warning. *)
Example inherited_names_are_taken_for_handlers :
  let rejected := (onMessage (Some (mkMessage "__proto__" (JSON (JObj [])) 5)) (boot 0)).2 in
  let accepted := (onMessage (Some (mkMessage "constructor" (JSON (JObj [])) 6)) (boot 0)).2 in
  TOPIC_HANDLERS !! "__proto__" = None
  ∧ channelOps rejected = [nack 5 false true]
  ∧ logs rejected = [mkLog lvl_error "Error processing audit event: __proto__"]
  ∧ TOPIC_HANDLERS !! "constructor" = None
  ∧ channelOps accepted = [ack 6]
  ∧ logs accepted = [mkLog lvl_debug "Processed audit event: constructor"]
  ∧ messagesProcessed (consumerState accepted) = 1.
Proof. vm_compute. auto 10. Qed.

(** C8, counterexample. "tenant.created" has no entry in the table; with
    a body that is not JSON the delivery is rejected with requeue and no
    warning about the topic is logged. *)
Lemma unknown_topic_malformed_body_requeued :
  let msg := mkMessage "tenant.created" (NotJSON "{") 3 in
  let w' := (onMessage (Some msg) (boot 0)).2 in
  TOPIC_HANDLERS !! routingKey msg = None
  ∧ channelOps w' = [nack 3 false true]
  ∧ logs w' = [mkLog lvl_error "Error processing audit event: tenant.created"].
Proof. vm_compute. auto. Qed.

(** C10, at the failing input. The body "null" is JSON and the routing
    key is in the table: the handler resolves and the delivery is
    acknowledged, then reading [event.id] for the debug entry throws and
    the same delivery is rejected with requeue. *)
Theorem null_event_acked_then_requeued msg handler w :
  RabbitMQ.content msg = JSON JNull →
  TOPIC_HANDLERS !! routingKey msg = Some handler →
  ∃ w', onMessage (Some msg) w = (Ok tt, w')
        ∧ channelOps w' = channelOps w ++ [ack (deliveryTag msg);
                                           nack (deliveryTag msg) false true]
        ∧ last (logs w') = Some (mkLog lvl_error
                                   ("Error processing audit event: " +:+ routingKey msg)).
Proof.
  intros Hc Hlook.
  destruct (topic_handler_never_rejects _ _ JNull w Hlook) as (w1 & Hrun & Hops & _).
  unfold onMessage, try_catch, bind. cbv zeta.
  rewrite Hc, (TOPIC_HANDLERS_get_own _ _ Hlook).
  cbn [JSON_parse ret]. rewrite Hrun.
  unfold trackMessageProcessed, channel_ack, channel_nack, logger, modify, lift, get.
  eexists. split; [reflexivity|]. cbn [channelOps logs with_channelOps with_logs with_consumerState].
  rewrite Hops, <- app_assoc. split; [reflexivity | apply last_snoc].
Qed.

(** A delivery for user.created with the body "null". *)
Lemma null_event_acked_then_requeued_witness :
  let msg := mkMessage "user.created" (JSON JNull) 7 in
  ∃ w', onMessage (Some msg) (boot 0) = (Ok tt, w')
        ∧ channelOps w' = [ack 7; nack 7 false true].
Proof.
  intros msg.
  destruct (null_event_acked_then_requeued msg (via handleUserCreated) (boot 0))
    as (w' & Hrun & Hops & _).
  - reflexivity.
  - vm_compute. reflexivity.
  - exists w'. split; [exact Hrun | exact Hops].
Defined.

(** ** Pull mode: reconnection *)

(** A connection attempt that meets a failing stage throws, and leaves
    the counter and the timers as they were. *)
Lemma attempt_fails s (k : M World unit) w :
  ∃ e w1, (connect (Some s) ;;; subscribe (Some s) ;;; k) w = (Throw e, w1)
    ∧ reconnectAttempts (consumer w1) = reconnectAttempts (consumer w)
    ∧ timers w1 = timers w
    ∧ scheduled w1 = scheduled w
    ∧ exitCode w1 = exitCode w.
Proof.
  destruct s; eexists _, _; (split; [vm_compute; reflexivity|]); vm_compute; repeat split.
Qed.

(** An attempt that meets no failure opens a connection and a channel. *)
Lemma attempt_succeeds w :
  ∃ w1, (connect None ;;; subscribe None) w = (Ok tt, w1)
    ∧ connection (consumer w1) = Some (nextHandle w)
    ∧ channel (consumer w1) = Some (S (nextHandle w))
    ∧ reconnectAttempts (consumer w1) = reconnectAttempts (consumer w)
    ∧ timers w1 = timers w
    ∧ scheduled w1 = scheduled w
    ∧ exitCode w1 = exitCode w.
Proof. eexists; (split; [vm_compute; reflexivity|]); vm_compute; repeat split. Qed.

(** Below the cap, [handleReconnect] counts the attempt and arms one
    timer, with the delay of that attempt. *)
Lemma handleReconnect_below_cap w :
  reconnectAttempts (consumer w) < maxReconnectAttempts →
  ∃ w1, handleReconnect w = (Ok tt, w1)
    ∧ reconnectAttempts (consumer w1) = reconnectAttempts (consumer w) + 1
    ∧ timers w1 = timers w ++ [reconnectDelay * 2 ^ reconnectAttempts (consumer w)]
    ∧ scheduled w1 = scheduled w ++ [reconnectDelay * 2 ^ reconnectAttempts (consumer w)]
    ∧ exitCode w1 = exitCode w.
Proof.
  intros Hlt. unfold handleReconnect, bind, gets.
  destruct (decide (reconnectAttempts (consumer w) >= maxReconnectAttempts)) as [Hge|_]; [lia|].
  eexists; split; [reflexivity|]. cbn -[Z.pow Z.mul pretty].
  replace (reconnectAttempts (consumer w) + 1 - 1) with (reconnectAttempts (consumer w)) by lia.
  repeat split.
Qed.

Lemma handleReconnect_at_cap w :
  reconnectAttempts (consumer w) >= maxReconnectAttempts →
  handleReconnect w =
    (Ok tt, with_logs (λ ls, ls ++ [mkLog lvl_error "Max reconnection attempts reached"]) w).
Proof.
  intros Hge. unfold handleReconnect, bind, gets.
  destruct (decide (reconnectAttempts (consumer w) >= maxReconnectAttempts)); [reflexivity|lia].
Qed.

(** C2 (as amended). At the cap, [handleReconnect] logs an error and
    returns: no timer is armed, the counter, the connection and the
    channel stay as they are, nothing is thrown and the process does not
    exit. *)
Theorem reconnect_cap_logs_and_gives_up w :
  reconnectAttempts (consumer w) >= maxReconnectAttempts →
  ∃ w', handleReconnect w = (Ok tt, w')
    ∧ logs w' = logs w ++ [mkLog lvl_error "Max reconnection attempts reached"]
    ∧ timers w' = timers w
    ∧ scheduled w' = scheduled w
    ∧ consumer w' = consumer w
    ∧ exitCode w' = exitCode w.
Proof.
  intros Hge. rewrite (handleReconnect_at_cap w Hge). eexists. split; [reflexivity|].
  repeat split.
Qed.

Lemma failed_attempt_is_rescheduled (body_rest : M World unit) intro s w :
  reconnectAttempts (consumer w) < maxReconnectAttempts →
  ∃ w1, try_catch (connect (Some s) ;;; subscribe (Some s) ;;; body_rest)
                  (λ _, logger lvl_error intro ;;; handleReconnect) w = (Ok tt, w1)
    ∧ reconnectAttempts (consumer w1) = reconnectAttempts (consumer w) + 1
    ∧ timers w1 = timers w ++ [reconnectDelay * 2 ^ reconnectAttempts (consumer w)]
    ∧ scheduled w1 = scheduled w ++ [reconnectDelay * 2 ^ reconnectAttempts (consumer w)]
    ∧ exitCode w1 = exitCode w.
Proof.
  intros Hlt.
  destruct (attempt_fails s body_rest w) as (e & w1 & Hrun & Ha & Ht & Hs & Hx).
  unfold try_catch. rewrite Hrun. unfold bind at 1, logger, modify.
  destruct (handleReconnect_below_cap
              (with_logs (λ ls, ls ++ [mkLog lvl_error intro]) w1))
    as (w2 & Hrun2 & Ha2 & Ht2 & Hs2 & Hx2); [simpl; lia|].
  exists w2. simpl in *. rewrite Hrun2, Ha2, Ht2, Hs2, Hx2, Ha, Ht, Hs, Hx. repeat split.
Qed.

(** A timer that expires on a failing attempt, below the cap, is
    replaced by the timer of the next attempt. *)
Lemma failing_reconnect_step s w d rest :
  exitCode w = None → timers w = d :: rest →
  reconnectAttempts (consumer w) < maxReconnectAttempts →
  let w1 := fireTimer (Some s) w in
  reconnectAttempts (consumer w1) = reconnectAttempts (consumer w) + 1
  ∧ timers w1 = rest ++ [reconnectDelay * 2 ^ reconnectAttempts (consumer w)]
  ∧ scheduled w1 = scheduled w ++ [reconnectDelay * 2 ^ reconnectAttempts (consumer w)]
  ∧ exitCode w1 = None.
Proof.
  intros Hx Ht Hlt. unfold fireTimer. rewrite Hx, Ht. unfold reconnectCallback.
  destruct (failed_attempt_is_rescheduled
              (set_reconnectAttempts 0 ;;; logger lvl_info "Reconnection successful")
              "Reconnection failed" s (with_timers (λ _, rest) w))
    as (w1 & Hrun & Ha & Ht1 & Hs & Hx1); [exact Hlt|].
  rewrite Hrun. simpl in *. rewrite Ha, Ht1, Hs, Hx1. auto.
Qed.

Lemma failing_reconnects_run stages : ∀ w (a : nat) d,
  reconnectAttempts (consumer w) = Z.of_nat a →
  (a + length stages ≤ 10)%nat →
  timers w = [d] → exitCode w = None →
  let w' := failing_reconnects stages w in
  reconnectAttempts (consumer w') = Z.of_nat (a + length stages)
  ∧ scheduled w' = scheduled w ++ (backoff <$> seq (S a) (length stages))
  ∧ (∃ d', timers w' = [d'])
  ∧ exitCode w' = None.
Proof.
  induction stages as [|s stages IH]; intros w a d Ha Hlen Ht Hx; simpl in *.
  - rewrite Nat.add_0_r, app_nil_r. eauto.
  - destruct (failing_reconnect_step s w d [] Hx Ht) as (Ha1 & Ht1 & Hs1 & Hx1).
    { unfold maxReconnectAttempts. lia. }
    simpl in Ht1.
    destruct (IH (fireTimer (Some s) w) (S a) _ ltac:(lia) ltac:(lia) Ht1 Hx1)
      as (Ha2 & Hs2 & Ht2 & Hx2).
    rewrite Ha2, Hs2, Hs1, <- app_assoc. simpl.
    replace (a + S (length stages))%nat with (S a + length stages)%nat by lia.
    repeat split; auto.
    unfold backoff. rewrite Ha. do 4 f_equal. lia.
Qed.

(** A timer that expires on a successful attempt: the consumer is
    connected again and the counter is back to 0. *)
Lemma successful_reconnect w d rest :
  exitCode w = None → timers w = d :: rest →
  let w1 := fireTimer None w in
  reconnectAttempts (consumer w1) = 0
  ∧ connection (consumer w1) = Some (nextHandle w)
  ∧ channel (consumer w1) = Some (S (nextHandle w))
  ∧ timers w1 = rest
  ∧ exitCode w1 = None.
Proof.
  intros Hx Ht. unfold fireTimer. rewrite Hx, Ht.
  repeat split; try (vm_compute; reflexivity).
  vm_compute. exact Hx.
Qed.

(** At the cap, a timer that expires on a failing attempt is not
    replaced. *)
Lemma failing_reconnect_at_cap s w d rest :
  exitCode w = None → timers w = d :: rest →
  reconnectAttempts (consumer w) >= maxReconnectAttempts →
  let w1 := fireTimer (Some s) w in
  reconnectAttempts (consumer w1) = reconnectAttempts (consumer w)
  ∧ timers w1 = rest
  ∧ scheduled w1 = scheduled w
  ∧ exitCode w1 = None.
Proof.
  intros Hx Ht Hge. unfold fireTimer. rewrite Hx, Ht.
  destruct (attempt_fails s (set_reconnectAttempts 0 ;;; logger lvl_info "Reconnection successful")
              (with_timers (λ _, rest) w)) as (e & w1 & Hrun & Ha & Ht1 & Hs & Hx1).
  simpl in Ha, Ht1, Hs, Hx1.
  assert (Hcallback : ∃ w2, reconnectCallback (Some s) (with_timers (λ _, rest) w) = (Ok tt, w2)
            ∧ logs w2 = logs w1 ++ [mkLog lvl_error "Reconnection failed";
                                    mkLog lvl_error "Max reconnection attempts reached"]
            ∧ consumer w2 = consumer w1 ∧ timers w2 = timers w1
            ∧ scheduled w2 = scheduled w1 ∧ exitCode w2 = exitCode w1).
  { unfold reconnectCallback, try_catch. rewrite Hrun. unfold bind, logger, modify.
    rewrite handleReconnect_at_cap by (simpl; lia).
    eexists. split; [reflexivity|]. simpl. rewrite <- app_assoc. auto 6. }
  destruct Hcallback as (w2 & -> & _ & Hc2 & Ht2 & Hs2 & Hx2).
  simpl. rewrite Hc2, Ht2, Hs2, Hx2, Ha, Ht1, Hs, Hx1. auto.
Qed.

Lemma failing_reconnects_idle stages : ∀ w,
  timers w = [] → failing_reconnects stages w = w.
Proof.
  induction stages as [|s stages IH]; intros w Ht; [reflexivity|]. simpl.
  assert (Hidle : fireTimer (Some s) w = w)
    by (unfold fireTimer; rewrite Ht; by destruct (exitCode w)).
  rewrite Hidle. by apply IH.
Qed.

(** The delays scheduled by a run of failures, of any length: the cap
    stops the series at the tenth. *)
Lemma failing_reconnects_scheduled stages : ∀ w (a : nat) d,
  reconnectAttempts (consumer w) = Z.of_nat a → (a ≤ 10)%nat →
  timers w = [d] → exitCode w = None →
  scheduled (failing_reconnects stages w)
  = scheduled w ++ (backoff <$> seq (S a) (Nat.min (length stages) (10 - a))).
Proof.
  induction stages as [|s stages IH]; intros w a d Ha Hle Ht Hx.
  - simpl. by rewrite app_nil_r.
  - cbn [failing_reconnects length].
    destruct (decide (a = 10%nat)) as [->|Hne].
    + destruct (failing_reconnect_at_cap s w d [] Hx Ht) as (_ & Ht1 & Hs1 & _).
      { rewrite Ha. unfold maxReconnectAttempts. lia. }
      rewrite (failing_reconnects_idle stages _ Ht1), Hs1.
      replace (10 - 10)%nat with 0%nat by lia. rewrite Nat.min_0_r. simpl.
      by rewrite app_nil_r.
    + destruct (failing_reconnect_step s w d [] Hx Ht) as (Ha1 & Ht1 & Hs1 & Hx1).
      { rewrite Ha. unfold maxReconnectAttempts. lia. }
      simpl in Ht1.
      rewrite (IH (fireTimer (Some s) w) (S a) _ ltac:(lia) ltac:(lia) Ht1 Hx1), Hs1.
      replace (10 - a)%nat with (S (10 - S a)) by lia.
      rewrite <- Nat.succ_min_distr, <- app_assoc. cbn [seq fmap list_fmap app].
      do 2 f_equal. unfold backoff. rewrite Ha. f_equal. f_equal. lia.
Qed.

(** C4. Consecutive connection failures, the first met by [start] and
    the following ones by the reconnect timer: the delay scheduled after
    the n-th failure is [reconnectDelay * 2^(n-1)], up to the tenth, after
    which nothing more is scheduled. While a timer is armed the counter
    is the number of failures, and a reconnect that then succeeds sets
    the counter back to 0. *)
Theorem reconnect_backoff_then_reset first stages w :
  reconnectAttempts (consumer w) = 0 → timers w = [] → exitCode w = None →
  let failures := first :: stages in
  let w' := failing_reconnects stages (start (Some first) w).2 in
  scheduled w' = scheduled w ++ (backoff <$> seq 1 (Nat.min (length failures) 10))
  ∧ ((length failures ≤ 10)%nat →
     reconnectAttempts (consumer w') = Z.of_nat (length failures)
     ∧ reconnectAttempts (consumer (fireTimer None w')) = 0
     ∧ is_Some (connection (consumer (fireTimer None w')))).
Proof.
  intros Ha Ht Hx failures w'.
  destruct (failed_attempt_is_rescheduled
              (logger lvl_info "RabbitMQ consumer started successfully")
              "Failed to start RabbitMQ consumer" first w)
    as (w1 & Hrun & Ha1 & Ht1 & Hs1 & Hx1); [rewrite Ha; reflexivity|].
  assert (Hw1 : (start (Some first) w).2 = w1) by (unfold start; rewrite Hrun; reflexivity).
  rewrite Ha in *. rewrite Ht in Ht1. rewrite Hx in Hx1. simpl in Ht1.
  subst w'. rewrite Hw1. split.
  - rewrite (failing_reconnects_scheduled stages w1 1 _ Ha1 ltac:(lia) Ht1 Hx1), Hs1.
    rewrite <- app_assoc. subst failures. cbn [length].
    replace 10%nat with (S 9) at 2 by lia. rewrite <- Nat.succ_min_distr. reflexivity.
  - intros Hlen. subst failures. cbn [length] in *.
    destruct (failing_reconnects_run stages w1 1 _ Ha1 ltac:(lia) Ht1 Hx1)
      as (Ha2 & _ & (d' & Ht2) & Hx2).
    rewrite Ha2. split; [reflexivity|].
    destruct (successful_reconnect _ _ _ Hx2 Ht2) as (Hr & Hc & _).
    rewrite Hr, Hc. split; [reflexivity|eauto].
Qed.

(** Three failures in a row, then a success: 5000, 10000, 20000. *)
Lemma reconnect_backoff_then_reset_witness :
  let w' := failing_reconnects [AtConnect; AtBind] (start (Some AtConnect) (boot 0)).2 in
  scheduled w' = [5000; 10000; 20000]
  ∧ reconnectAttempts (consumer w') = 3
  ∧ reconnectAttempts (consumer (fireTimer None w')) = 0.
Proof.
  destruct (reconnect_backoff_then_reset AtConnect [AtConnect; AtBind] (boot 0))
    as (Hs & Hreset).
  - reflexivity.
  - reflexivity.
  - reflexivity.
  - destruct Hreset as (Ha & Hr & _); [simpl; lia|].
    split; [exact Hs|]. split; [exact Ha | exact Hr].
Defined.

(** Ten failed attempts in a row, the first by [start]: the counter is
    at the cap and [handleReconnect] gives up. *)
Lemma reconnect_cap_logs_and_gives_up_witness :
  let w := failing_reconnects (replicate 9 AtConnect) (start (Some AtConnect) (boot 0)).2 in
  ∃ w', handleReconnect w = (Ok tt, w') ∧ timers w' = timers w ∧ exitCode w' = None.
Proof.
  intros w.
  destruct (reconnect_cap_logs_and_gives_up w) as (w' & Hrun & _ & Ht & _ & _ & Hx).
  - vm_compute. discriminate.
  - exists w'. split; [exact Hrun|]. split; [exact Ht|]. rewrite Hx. vm_compute. reflexivity.
Defined.

(** C2, counterexample. Every attempt fails at [bindQueue]. When the
    cap is reached the callback returns normally: the process has not
    exited, and the consumer keeps the connection and the channel of its
    last attempt open. *)
Lemma reconnect_cap_consumer_not_terminated :
  let w := failing_reconnects (replicate 10 AtBind) (start (Some AtBind) (boot 0)).2 in
  reconnectAttempts (consumer w) = maxReconnectAttempts
  ∧ last (logs w) = Some (mkLog lvl_error "Max reconnection attempts reached")
  ∧ (handleReconnect w).1 = Ok tt
  ∧ exitCode w = None
  ∧ exitCode (handleReconnect w).2 = None
  ∧ is_Some (connection (consumer w))
  ∧ is_Some (channel (consumer w)).
Proof. vm_compute. repeat split; eauto. Qed.

(** ** Pull mode: shutdown *)

(** [stop] resolves, and touches neither the timers nor the counter. *)
Lemma stop_keeps_timers fault w :
  ∃ w1, stop fault w = (Ok tt, w1)
    ∧ timers w1 = timers w
    ∧ scheduled w1 = scheduled w
    ∧ exitCode w1 = exitCode w
    ∧ reconnectAttempts (consumer w1) = reconnectAttempts (consumer w)
    ∧ nextHandle w1 = nextHandle w.
Proof.
  destruct w as [cs clk lg rs ops [c ch n] tm sch cl nh ex ls].
  destruct c, ch, fault as [[]|];
    (eexists; split; [vm_compute; reflexivity|]); repeat split.
Qed.

(** When no [close()] rejects, both fields are cleared. *)
Lemma stop_clears w :
  connection (consumer (stop None w).2) = None
  ∧ channel (consumer (stop None w).2) = None.
Proof.
  destruct w as [cs clk lg rs ops [c ch n] tm sch cl nh ex ls].
  destruct c, ch; vm_compute; auto.
Qed.

(** What [stop] leaves in the two fields: the channel is closed first,
    and a field is cleared once its [close()] has resolved. *)
Lemma stop_fields fault w :
  let r := consumer w in
  let channelFails := bool_decide (fault = Some ChannelCloseFails ∧ is_Some (channel r)) in
  let connectionFails := bool_decide (fault = Some ConnectionCloseFails ∧ is_Some (connection r)) in
  consumer (stop fault w).2 =
    (if channelFails then r
     else if connectionFails then mkConsumer (connection r) None (reconnectAttempts r)
     else mkConsumer None None (reconnectAttempts r)).
Proof.
  destruct w as [cs clk lg rs ops [c ch n] tm sch cl nh ex ls].
  destruct c, ch, fault as [[]|]; vm_compute; reflexivity.
Qed.

(** C3 (as amended). [stop] always resolves. It closes the channel and
    then the connection and clears both fields when no [close()]
    rejects; when [channel.close()] rejects both fields keep their
    handles, and when [connection.close()] rejects the connection field
    keeps its handle. In every case it leaves an armed reconnect timer
    armed; when that timer expires after [stop] has completed, its
    callback connects and subscribes as usual: with the broker reachable
    the consumer holds a connection and a channel again and the counter
    is 0. *)
Theorem stop_leaves_reconnect_timer_armed fault d rest w :
  timers w = d :: rest → exitCode w = None →
  let r := consumer w in
  let channelFails := bool_decide (fault = Some ChannelCloseFails ∧ is_Some (channel r)) in
  let connectionFails := bool_decide (fault = Some ConnectionCloseFails ∧ is_Some (connection r)) in
  let w1 := (stop fault w).2 in
  let w2 := fireTimer None w1 in
  (stop fault w).1 = Ok tt
  ∧ consumer w1 =
      (if channelFails then r
       else if connectionFails then mkConsumer (connection r) None (reconnectAttempts r)
       else mkConsumer None None (reconnectAttempts r))
  ∧ timers w1 = d :: rest
  ∧ is_Some (connection (consumer w2))
  ∧ is_Some (channel (consumer w2))
  ∧ reconnectAttempts (consumer w2) = 0.
Proof.
  intros Ht Hx r channelFails connectionFails w1 w2.
  pose proof (stop_fields fault w) as Hfields. cbv zeta in Hfields.
  destruct (stop_keeps_timers fault w) as (w1' & Hrun & Ht1 & _ & Hx1 & _).
  subst w2 w1 r channelFails connectionFails. rewrite Hrun in *. cbn [fst snd] in *.
  rewrite Ht in Ht1. rewrite Hx in Hx1.
  destruct (successful_reconnect w1' d rest Hx1 Ht1) as (Ha & Hc & Hch & _).
  rewrite Ha, Hc, Hch. eauto 7.
Qed.

(** The broker is down at [start], which arms the first timer; [stop]
    is called; the broker comes back; the timer expires. *)
Lemma stop_leaves_reconnect_timer_armed_witness :
  let w := (start (Some AtConnect) (boot 0)).2 in
  let w1 := (stop None w).2 in
  timers w1 = [5000] ∧ is_Some (connection (consumer (fireTimer None w1))).
Proof.
  intros w w1.
  destruct (stop_leaves_reconnect_timer_armed None 5000 [] w) as (_ & _ & Ht & Hc & _).
  - reflexivity.
  - reflexivity.
  - split; [exact Ht | exact Hc].
Defined.

(** C3, counterexample. After [stop] the timer armed by the failed
    [start] is still armed, and when it expires the consumer, which has
    no connection after [stop], opens one and subscribes. *)
Lemma reconnect_after_stop_reopens :
  let w := (start (Some AtConnect) (boot 0)).2 in
  let w1 := (stop None w).2 in
  let w2 := fireTimer None w1 in
  timers w1 = [5000]
  ∧ connection (consumer w1) = None
  ∧ connection (consumer w2) = Some 0%nat
  ∧ channel (consumer w2) = Some 1%nat
  ∧ last (logs w2) = Some (mkLog lvl_info "Reconnection successful").
Proof. vm_compute. repeat split. Qed.

(** ** The migration runner *)

(** *** File names *)

Lemma substring_all s : String.substring 0 (String.length s) s = s.
Proof. induction s as [|a s IH]; simpl; [reflexivity | by rewrite IH]. Qed.

Lemma substring_zero s : String.substring 0 0 s = "".
Proof. by destruct s. Qed.

Lemma length_append s t : String.length (s +:+ t) = (String.length s + String.length t)%nat.
Proof. induction s as [|a s IH]; simpl; [reflexivity | by rewrite IH]. Qed.

Lemma substring_append_l s t : String.substring 0 (String.length s) (s +:+ t) = s.
Proof.
  induction s as [|a s IH]; simpl; [apply substring_zero | by rewrite IH].
Qed.

Lemma substring_append_r s t :
  String.substring (String.length s) (String.length t) (s +:+ t) = t.
Proof. induction s as [|a s IH]; simpl; [apply substring_all | exact IH]. Qed.

Lemma substring_split s : ∀ i, (i ≤ String.length s)%nat →
  String.substring 0 i s +:+ String.substring i (String.length s - i) s = s.
Proof.
  induction s as [|a s IH]; intros [|i] Hi; simpl in *; try lia.
  - reflexivity.
  - by rewrite substring_all.
  - change (String a (String.substring 0 i s +:+
                       String.substring i (String.length s - i) s) = String a s).
    f_equal. apply IH. lia.
Qed.

Lemma endsWith_append s ext : endsWith (s +:+ ext) ext = true.
Proof.
  unfold endsWith. rewrite length_append.
  destruct (Nat.leb_spec (String.length ext) (String.length s + String.length ext)); [|lia].
  replace (String.length s + String.length ext - String.length ext)%nat
    with (String.length s) by lia.
  rewrite substring_append_r. by apply bool_decide_eq_true.
Qed.

Lemma basename_append s ext : basename (s +:+ ext) ext = s.
Proof.
  unfold basename. rewrite endsWith_append, length_append.
  replace (String.length s + String.length ext - String.length ext)%nat
    with (String.length s) by lia.
  apply substring_append_l.
Qed.

Lemma endsWith_basename file ext :
  endsWith file ext = true → file = basename file ext +:+ ext.
Proof.
  intros Hends. unfold basename. rewrite Hends. unfold endsWith in Hends.
  destruct (Nat.leb_spec (String.length ext) (String.length file)) as [Hle|]; [|discriminate].
  apply bool_decide_eq_true in Hends.
  rewrite <- (substring_split file (String.length file - String.length ext)) at 1 by lia.
  replace (String.length file - (String.length file - String.length ext))%nat
    with (String.length ext) by lia.
  by rewrite Hends.
Qed.

(** *** One migration, one transaction *)

Section MigrationProperties.
Context {Tables : Type} `{!Platform Tables}.
Implicit Types (e : Env Tables) (d : Database Tables) (m : Migration).

Local Ltac atomic_case :=
  split;
  [ intros; simplify_eq; auto
  | split;
    [ intros; simplify_eq; reflexivity
    | split; [ intros; simplify_eq | reflexivity ] ] ].

(** C5. A migration runs in one transaction. Whenever
    [executeMigration] fails, for whatever reason, the database is back
    in the state it had before, so neither the changes of the body nor a
    history record remain; it fails whenever the body fails, with the
    body's error, and the loop of [runMigrations] stops there with that
    error. When it succeeds, the changes of the body and the history
    record (name, elapsed time, checksum) are there together. *)
Theorem migration_is_atomic m e :
  let r := (executeMigration m e).1 in
  let e' := (executeMigration m e).2 in
  (∀ err, r = Throw err →
     db e' = db e
     ∧ ∀ rest, for_of (m :: rest) executeMigration e = (Throw err, e'))
  ∧ (∀ d err, reachable (db e) = true → run_sql (content m) (db e) = (d, Some err) →
     r = Throw err)
  ∧ (r = Ok tt →
     ∃ d rows,
       run_sql (content m) (db e) = (d, None)
       ∧ migration_history d = Some rows
       ∧ (name m ∉ migration_name <$> rows)
       ∧ tables (db e') = tables d
       ∧ migration_history (db e') =
           Some (rows ++ [mkRecord (migration_history_id_seq d + 1) (name m)
                                   (Date_now (S (S (clockReads e))))
                                   (Date_now (S (clockReads e)) - Date_now (clockReads e))
                                   (checksum m)]))
  ∧ snapshot e' = (if reachable (db e) then None else snapshot e).
Proof.
  unfold executeMigration, for_of, pool_connect, now, try_finally, try_catch, bind,
    BEGIN, COMMIT, ROLLBACK, query_body, insert_history, logger_, modify, throw, ret, now.
  unfold bind, now.
  destruct (reachable (db e)) eqn:Hreach; simpl; [|atomic_case].
  destruct (run_sql (content m) (db e)) as [d [err|]] eqn:Hrun; simpl; [atomic_case|].
  destruct (migration_history d) as [rows|] eqn:Hrows; simpl; [|atomic_case].
  case_bool_decide as Hdup; simpl; [atomic_case|].
  atomic_case. exists d, rows. auto.
Qed.

(** What [runMigrations] throws, [initializeDatabase] throws. *)
Lemma initializeDatabase_propagates e err :
  (runMigrations (with_log (λ ls, ls ++ [mkLog lvl_info "Initializing database..."]) e)).1
    = Throw err →
  (initializeDatabase true e).1 = Throw err.
Proof.
  unfold initializeDatabase, try_catch. unfold bind at 1, logger_ at 1, modify at 1.
  unfold bind at 1, ret at 1. unfold bind at 1.
  destruct (runMigrations _) as [[[]|err'] e1]; simpl; [discriminate|].
  by intros [= <-].
Qed.

End MigrationProperties.

(** *** What the steps of the runner return *)

Section RunnerSteps.
Context {Tables : Type} `{!Platform Tables}.
Implicit Types (e : Env Tables) (d : Database Tables) (m : Migration)
  (dir : gmap string (option string)).

Lemma readMigrations_reads dir files : ∀ e,
  migrationsDir e = Some dir →
  readMigrations files e =
    match mapM (loadMigration dir) files with
    | Some migrations => (Ok migrations, e)
    | None => (Throw (Error "readFile failed"), e)
    end.
Proof.
  induction files as [|file files IH]; intros e Hdir; [reflexivity|].
  change (mapM (loadMigration dir) (file :: files))
    with (y ← loadMigration dir file; k ← mapM (loadMigration dir) files; mret (y :: k)).
  cbn [readMigrations]. unfold bind, readFile. rewrite Hdir. cbn [mbind option_bind].
  pose proof (eq_refl : loadMigration dir file = loadMigration dir file) as Hload.
  unfold loadMigration at 2 in Hload. rewrite Hload. clear Hload.
  destruct (dir !! file) as [[text|]|]; try reflexivity.
  rewrite (IH e Hdir). cbn [mbind option_bind].
  by destruct (mapM (loadMigration dir) files).
Qed.

Lemma getAvailableMigrations_lists e :
  getAvailableMigrations e =
    match migrationsDir e with
    | Some dir =>
        match migrationsOnDisk dir with
        | Some migrations => (Ok migrations, e)
        | None =>
            (Throw (Error "readFile failed"),
             with_log (λ ls, ls ++ [mkLog lvl_error "Failed to read migration files"]) e)
        end
    | None =>
        (Throw (Error "ENOENT: no such file or directory, scandir"),
         with_log (λ ls, ls ++ [mkLog lvl_error "Failed to read migration files"]) e)
    end.
Proof.
  unfold getAvailableMigrations, try_catch, bind, readdir.
  destruct (migrationsDir e) as [dir|] eqn:Hdir; [|reflexivity].
  rewrite (readMigrations_reads dir _ e Hdir). fold (sqlFiles dir).
  unfold migrationsOnDisk. by destruct (mapM _ _).
Qed.

Lemma getExecutedMigrations_selects e :
  getExecutedMigrations e =
    if reachable (db e)
    then (Ok (merge_sort by_executed_at (historyRows (db e))),
          with_checkedOut (λ n, Nat.pred (S n)) e)
    else (Throw (Error "connect ECONNREFUSED"), e).
Proof.
  unfold getExecutedMigrations, bind, pool_connect, try_finally, try_catch, select_history,
    historyRows, release.
  destruct (reachable (db e)); [|reflexivity]. simpl.
  destruct (migration_history (db e)); reflexivity.
Qed.

Lemma ensureMigrationHistoryTable_creates e :
  ensureMigrationHistoryTable e =
    if reachable (db e)
    then (Ok tt,
          with_checkedOut (λ n, Nat.pred (S n))
            (with_log (λ ls, ls ++ [mkLog lvl_debug "Migration history table ensured"])
               (with_db (λ d, mkDatabase (reachable d) (tables d)
                                (Some (historyRows d)) (migration_history_id_seq d)) e)))
    else (Throw (Error "connect ECONNREFUSED"), e).
Proof.
  unfold ensureMigrationHistoryTable, bind, pool_connect, try_finally.
  destruct (reachable (db e)); reflexivity.
Qed.

(** A migration that went through: its body succeeded on the state it
    found, and its record was added to the rows the body left. *)
Lemma executeMigration_succeeded m e e' :
  executeMigration m e = (Ok tt, e') →
  ∃ d rows,
    reachable (db e) = true
    ∧ run_sql (content m) (db e) = (d, None)
    ∧ migration_history d = Some rows
    ∧ (name m ∉ migration_name <$> rows)
    ∧ db e' = mkDatabase (reachable d) (tables d)
                (Some (rows ++ [mkRecord (migration_history_id_seq d + 1) (name m)
                                         (Date_now (S (S (clockReads e))))
                                         (Date_now (S (clockReads e)) - Date_now (clockReads e))
                                         (checksum m)]))
                (migration_history_id_seq d + 1)
    ∧ migrationsDir e' = migrationsDir e
    ∧ snapshot e' = None.
Proof.
  unfold executeMigration, pool_connect, now, try_finally, try_catch, bind,
    BEGIN, COMMIT, ROLLBACK, query_body, insert_history, logger_, modify, throw, ret, now.
  unfold bind, now.
  destruct (reachable (db e)) eqn:Hreach; simpl; [|discriminate].
  destruct (run_sql (content m) (db e)) as [d [err|]] eqn:Hrun; simpl; [discriminate|].
  destruct (migration_history d) as [rows|] eqn:Hrows; simpl; [|discriminate].
  case_bool_decide as Hdup; simpl; [discriminate|].
  intros [= <-]. exists d, rows. simpl. auto 10.
Qed.

End RunnerSteps.

(** *** The directory and the list read from it *)

Section OnDisk.
Context {Tables : Type} `{!Platform Tables}.
Implicit Types (dir : gmap string (option string)) (r : MigrationRecord).

Lemma elem_of_sqlFiles dir file :
  file ∈ sqlFiles dir ↔ is_Some (dir !! file) ∧ endsWith file ".sql" = true.
Proof.
  unfold sqlFiles. rewrite merge_sort_Permutation, list_elem_of_filter, list_elem_of_fmap.
  split.
  - intros (Hends & [k v] & -> & Hin). apply elem_of_map_to_list in Hin. eauto.
  - intros ([v Hv] & Hends). split; [done|].
    exists (file, v). split; [done|]. by apply elem_of_map_to_list.
Qed.

Lemma sqlFiles_sorted dir : Sorted String.le (sqlFiles dir).
Proof. apply (Sorted_merge_sort _). Qed.

(** Every migration of the list was read from the file that carries
    its name. *)
Lemma migrationsOnDisk_sound dir available m :
  migrationsOnDisk dir = Some available → m ∈ available →
  ∃ text, dir !! (name m +:+ ".sql") = Some (Some text)
          ∧ content m = text ∧ checksum m = calculateChecksum text.
Proof.
  intros Hdisk Hin. apply mapM_Some in Hdisk.
  apply list_elem_of_lookup in Hin as [i Hi].
  destruct (Forall2_lookup_r _ _ _ _ _ Hdisk Hi) as (file & Hfile & Hload).
  assert (Hsql : file ∈ sqlFiles dir) by (apply list_elem_of_lookup; eauto).
  apply elem_of_sqlFiles in Hsql as [_ Hends].
  unfold loadMigration in Hload.
  destruct (dir !! file) as [[text|]|] eqn:Hlook; try discriminate.
  injection Hload as <-. simpl. exists text.
  rewrite <- (endsWith_basename file ".sql" Hends). auto.
Qed.

(** Every file [name.sql] of the directory is in the list, under [name]. *)
Lemma migrationsOnDisk_complete dir available n v :
  migrationsOnDisk dir = Some available → dir !! (n +:+ ".sql") = Some v →
  ∃ m, m ∈ available ∧ name m = n.
Proof.
  intros Hdisk Hlook. apply mapM_Some in Hdisk.
  assert (Hsql : n +:+ ".sql" ∈ sqlFiles dir).
  { apply elem_of_sqlFiles. split; [eauto | apply endsWith_append]. }
  apply list_elem_of_lookup in Hsql as [i Hi].
  destruct (Forall2_lookup_l _ _ _ _ _ Hdisk Hi) as (m & Hm & Hload).
  exists m. split; [apply list_elem_of_lookup; eauto|].
  unfold loadMigration in Hload. rewrite Hlook in Hload.
  destruct v as [text|]; [|discriminate]. injection Hload as <-. simpl.
  apply basename_append.
Qed.

Lemma missingAmong_onDisk dir available r :
  migrationsOnDisk dir = Some available →
  missingAmong available r ↔ missingOnDisk dir r.
Proof.
  intros Hdisk. unfold missingAmong, missingOnDisk. rewrite list_find_None, Forall_forall.
  split.
  - intros Hnone. destruct (dir !! (migration_name r +:+ ".sql")) as [v|] eqn:Hlook; [|done].
    destruct (migrationsOnDisk_complete _ _ _ _ Hdisk Hlook) as (m & Hin & Hname).
    destruct (Hnone m Hin Hname).
  - intros Hlook m Hin Hname.
    destruct (migrationsOnDisk_sound _ _ _ Hdisk Hin) as (text & Hfile & _).
    rewrite Hname in Hfile. congruence.
Qed.

Lemma driftedAmong_onDisk dir available r :
  migrationsOnDisk dir = Some available →
  driftedAmong available r ↔ driftedOnDisk dir r.
Proof.
  intros Hdisk. unfold driftedAmong, driftedOnDisk. split.
  - intros (i & m & Hfind & Hsum). apply list_find_Some in Hfind as (Hi & Hname & _).
    destruct (migrationsOnDisk_sound dir available m Hdisk) as (text & Hfile & _ & Hck).
    { apply list_elem_of_lookup. eauto. }
    exists text. rewrite <- Hname, <- Hck. auto.
  - intros (text & Hfile & Hsum).
    destruct (list_find (λ m, name m = migration_name r) available) as [[i m]|] eqn:Hfind.
    + exists i, m. split; [done|].
      apply list_find_Some in Hfind as (Hi & Hname & _).
      destruct (migrationsOnDisk_sound dir available m Hdisk) as (text' & Hfile' & _ & Hck).
      { apply list_elem_of_lookup. eauto. }
      rewrite Hname, Hfile in Hfile'. injection Hfile' as <-. by rewrite Hck.
    + apply (missingAmong_onDisk dir available r Hdisk) in Hfind.
      unfold missingOnDisk in Hfind. congruence.
Qed.

End OnDisk.

(** *** Validation *)

Section Validation.
Context {Tables : Type} `{!Platform Tables}.
Implicit Types (e : Env Tables) (r : MigrationRecord)
  (dir : gmap string (option string)).

Lemma with_log_app (xs ys : list LogEntry) e :
  with_log (λ ls, ls ++ ys) (with_log (λ ls, ls ++ xs) e)
  = with_log (λ ls, ls ++ (xs ++ ys)) e.
Proof. unfold with_log. simpl. by rewrite app_assoc. Qed.

Lemma with_log_nil e : with_log (λ ls, ls ++ []) e = e.
Proof. destruct e. unfold with_log. simpl. by rewrite app_nil_r. Qed.

(** The loop of [validateMigrations] returns, writes to the log only,
    stops with [false] at the first executed migration that has drifted
    and reports it, and warns about the missing files it meets. *)
Lemma validateEach_reports available : ∀ executed e,
  ∃ valid entries,
    validateEach available executed e = (Ok valid, with_log (λ ls, ls ++ entries) e)
    ∧ ((∃ r, r ∈ executed ∧ driftedAmong available r) →
         valid = false
         ∧ ∃ r, r ∈ executed ∧ driftedAmong available r
                ∧ mkLog lvl_error ("Migration checksum mismatch: " +:+ migration_name r)
                    ∈ entries)
    ∧ ((∀ r, r ∈ executed → ¬ driftedAmong available r) →
         valid = true
         ∧ ∀ r, r ∈ executed → missingAmong available r →
                mkLog lvl_warn ("Migration file missing: " +:+ migration_name r) ∈ entries).
Proof.
  induction executed as [|r executed IH]; intros e.
  - exists true, [mkLog lvl_info "All migration checksums validated"].
    split; [reflexivity|]. split.
    + intros (r & Hin & _). by apply elem_of_nil in Hin.
    + intros _. split; [done|]. intros r Hin. by apply elem_of_nil in Hin.
  - cbn [validateEach].
    destruct (list_find (λ m, name m = migration_name r) available) as [[i m]|] eqn:Hfind.
    + case_bool_decide as Hsum.
      * (* drifted: reported, and the loop stops *)
        exists false, [mkLog lvl_error ("Migration checksum mismatch: " +:+ migration_name r)].
        split; [reflexivity|]. split.
        -- intros _. split; [done|]. exists r.
           split; [apply list_elem_of_here|]. split; [by exists i, m|].
           apply list_elem_of_here.
        -- intros Hnone. destruct (Hnone r (list_elem_of_here _ _)). by exists i, m.
      * (* unchanged *)
        destruct (IH e) as (valid & entries & Hrun & Hdrift & Hclean).
        exists valid, entries. split; [exact Hrun|]. split.
        -- intros (r' & Hin & Hd). apply elem_of_cons in Hin as [->|Hin].
           ++ destruct Hd as (i' & m' & Hfind' & Hsum'). rewrite Hfind in Hfind'.
              injection Hfind' as <- <-. destruct (Hsum' Hsum).
           ++ destruct Hdrift as (Hv & r'' & Hin'' & Hd'' & Hlog); [eauto|].
              split; [done|]. exists r''. split; [by apply list_elem_of_further|done].
        -- intros Hnone. destruct Hclean as (Hv & Hwarn).
           { intros r' Hin. apply Hnone. by apply list_elem_of_further. }
           split; [done|]. intros r' Hin Hmiss. apply elem_of_cons in Hin as [->|Hin].
           ++ unfold missingAmong in Hmiss. congruence.
           ++ by apply Hwarn.
    + (* missing: a warning, and the loop goes on *)
      unfold bind at 1, logger_, modify.
      destruct (IH (with_log (λ ls, ls ++ [mkLog lvl_warn ("Migration file missing: "
                                                 +:+ migration_name r)]) e))
        as (valid & entries & Hrun & Hdrift & Hclean).
      exists valid, (mkLog lvl_warn ("Migration file missing: " +:+ migration_name r) :: entries).
      split; [rewrite Hrun, with_log_app; reflexivity|]. split.
      * intros (r' & Hin & Hd). apply elem_of_cons in Hin as [->|Hin].
        -- destruct Hd as (i' & m' & Hfind' & _). congruence.
        -- destruct Hdrift as (Hv & r'' & Hin'' & Hd'' & Hlog); [eauto|].
           split; [done|]. exists r''.
           split; [by apply list_elem_of_further|]. split; [done|].
           by apply list_elem_of_further.
      * intros Hnone. destruct Hclean as (Hv & Hwarn).
        { intros r' Hin. apply Hnone. by apply list_elem_of_further. }
        split; [done|]. intros r' Hin Hmiss. apply elem_of_cons in Hin as [->|Hin].
        -- apply list_elem_of_here.
        -- apply list_elem_of_further. by apply Hwarn.
Qed.

(** The loop, exactly. With no drifted checksum it warns about every
    missing file and returns [true]. *)
Lemma validateEach_clean available : ∀ executed e,
  (∀ r, r ∈ executed → ¬ driftedAmong available r) →
  validateEach available executed e
  = (Ok true,
     with_log (λ ls, ls ++ (missingWarning <$> filter (missingAmong available) executed)
                        ++ [mkLog lvl_info "All migration checksums validated"]) e).
Proof.
  induction executed as [|r executed IH]; intros e Hclean; [reflexivity|].
  cbn [validateEach].
  destruct (list_find (λ m, name m = migration_name r) available) as [[i m]|] eqn:Hfind.
  - case_bool_decide as Hsum.
    { destruct (Hclean r (list_elem_of_here _ _)). by exists i, m. }
    rewrite IH by (intros r' Hin; apply Hclean; by apply list_elem_of_further).
    rewrite filter_cons_False; [reflexivity|]. unfold missingAmong. by rewrite Hfind.
  - unfold bind at 1, logger_, modify.
    rewrite IH by (intros r' Hin; apply Hclean; by apply list_elem_of_further).
    rewrite with_log_app, filter_cons_True by exact Hfind. reflexivity.
Qed.

(** At the first drifted checksum it reports that migration and returns
    [false]: the rest of the list is not looked at. *)
Lemma validateEach_drift available r after : ∀ before e,
  (∀ r', r' ∈ before → ¬ driftedAmong available r') →
  driftedAmong available r →
  validateEach available (before ++ r :: after) e
  = (Ok false,
     with_log (λ ls, ls ++ (missingWarning <$> filter (missingAmong available) before)
                        ++ [mkLog lvl_error ("Migration checksum mismatch: "
                                             +:+ migration_name r)]) e).
Proof.
  induction before as [|r0 before IH]; intros e Hclean Hdrift.
  - destruct Hdrift as (i & m & Hfind & Hsum). cbn [app validateEach]. rewrite Hfind.
    rewrite bool_decide_eq_true_2 by exact Hsum. reflexivity.
  - cbn [app validateEach].
    destruct (list_find (λ m, name m = migration_name r0) available) as [[i m]|] eqn:Hfind.
    + case_bool_decide as Hsum.
      { destruct (Hclean r0 (list_elem_of_here _ _)). by exists i, m. }
      rewrite IH by (try done; intros r' Hin; apply Hclean; by apply list_elem_of_further).
      rewrite filter_cons_False; [reflexivity|]. unfold missingAmong. by rewrite Hfind.
    + unfold bind at 1, logger_, modify.
      rewrite IH by (try done; intros r' Hin; apply Hclean; by apply list_elem_of_further).
      rewrite with_log_app, filter_cons_True by exact Hfind. reflexivity.
Qed.

Lemma missingWarnings_among dir available records :
  migrationsOnDisk dir = Some available →
  missingWarning <$> filter (missingAmong available) records = missingWarnings dir records.
Proof.
  intros Hdisk. unfold missingWarnings. f_equal. apply list_filter_iff.
  intros r. by apply missingAmong_onDisk.
Qed.

(** C7 (as amended). [validateMigrations] always returns, and writes to
    the log only: the database, history table included, is as before.
    With the directory listed and the database reachable it goes through
    the executed migrations in the order they were executed and stops at
    the first one whose recorded checksum differs from the SHA-256 of the
    current file: it returns [false], and the log gets the warnings for
    the missing files of the migrations before that one, then the error
    entry naming it. A missing file of a later migration is not
    reported. When no checksum differs it returns [true] after a warning
    for every executed migration whose file is missing. When the
    directory cannot be read or the database cannot be reached, it logs
    the failure and returns [false]. *)
Theorem validateMigrations_reports_and_never_throws e :
  ∃ valid entries e',
    validateMigrations e = (Ok valid, e')
    ∧ db e' = db e
    ∧ snapshot e' = snapshot e
    ∧ migrationsDir e' = migrationsDir e
    ∧ log e' = log e ++ entries
    ∧ (∀ dir available,
         migrationsDir e = Some dir → migrationsOnDisk dir = Some available →
         reachable (db e) = true →
         let executed := merge_sort by_executed_at (historyRows (db e)) in
         ((∀ r, r ∈ executed → ¬ driftedOnDisk dir r) →
            valid = true
            ∧ entries = missingWarnings dir executed
                        ++ [mkLog lvl_info "All migration checksums validated"])
         ∧ (∀ before r after,
              executed = before ++ r :: after →
              (∀ r', r' ∈ before → ¬ driftedOnDisk dir r') →
              driftedOnDisk dir r →
              valid = false
              ∧ entries = missingWarnings dir before
                          ++ [mkLog lvl_error ("Migration checksum mismatch: "
                                               +:+ migration_name r)]))
    ∧ (migrationsDir e ≫= migrationsOnDisk = None ∨ reachable (db e) = false →
         valid = false ∧ mkLog lvl_error "Migration validation failed" ∈ entries).
Proof.
  unfold validateMigrations, try_catch. unfold bind at 1.
  rewrite getAvailableMigrations_lists.
  destruct (migrationsDir e) as [dir|] eqn:Hdir; cbn [mbind option_bind].
  2:{ eexists false, [mkLog lvl_error "Failed to read migration files";
                      mkLog lvl_error "Migration validation failed"], _.
      split; [reflexivity|]. simpl. do 3 (split; [done|]).
      split; [by rewrite <- app_assoc|]. split; [intros ? ? [=]|].
      intros _. split; [reflexivity|]. apply list_elem_of_further, list_elem_of_here. }
  destruct (migrationsOnDisk dir) as [available|] eqn:Hdisk.
  2:{ eexists false, [mkLog lvl_error "Failed to read migration files";
                      mkLog lvl_error "Migration validation failed"], _.
      split; [reflexivity|]. simpl. do 3 (split; [done|]).
      split; [by rewrite <- app_assoc|]. split; [intros ? ? [= <-]; congruence|].
      intros _. split; [reflexivity|]. apply list_elem_of_further, list_elem_of_here. }
  unfold bind. rewrite getExecutedMigrations_selects.
  destruct (reachable (db e)) eqn:Hreach.
  2:{ eexists false, [mkLog lvl_error "Migration validation failed"], _.
      split; [reflexivity|]. simpl. do 4 (split; [done|]).
      split; [intros ? ? _ _ [=]|].
      intros _. split; [reflexivity|]. apply list_elem_of_here. }
  destruct (validateEach_reports available (merge_sort by_executed_at (historyRows (db e)))
              (with_checkedOut (λ n, Nat.pred (S n)) e))
    as (valid & entries & Hrun & _).
  rewrite Hrun. eexists valid, entries, _. split; [reflexivity|]. simpl.
  do 4 (split; [done|]). split; [|intros [?|?]; congruence].
  intros dir' available' [= <-] Hdisk' _.
  rewrite Hdisk in Hdisk'. injection Hdisk' as <-. split.
  - intros Hclean. rewrite validateEach_clean in Hrun.
    2:{ intros r Hin Hd. apply (Hclean r Hin). by apply (driftedAmong_onDisk dir available). }
    injection Hrun as <- Hlog. apply app_inv_head in Hlog as <-.
    by rewrite (missingWarnings_among dir).
  - intros before r after Hsplit Hclean Hdrift.
    rewrite Hsplit, validateEach_drift in Hrun.
    2:{ intros r' Hin Hd. apply (Hclean r' Hin). by apply (driftedAmong_onDisk dir available). }
    2:{ by apply (driftedAmong_onDisk dir available). }
    injection Hrun as <- Hlog. apply app_inv_head in Hlog as <-.
    by rewrite (missingWarnings_among dir).
Qed.

End Validation.

(** *** Running the pending migrations *)

Section Pending.
Context {Tables : Type} `{!Platform Tables}.
Implicit Types (e : Env Tables) (d : Database Tables) (m : Migration)
  (dir : gmap string (option string)).

(** The migrations of the directory that the history does not name. *)
Lemma pending_filter (available : list Migration) (rows : list MigrationRecord) :
  filter (λ m, name m ∉ (list_to_set (migration_name <$> merge_sort by_executed_at rows)
                           : gset string)) available
  = filter (λ m, name m ∉ migration_name <$> rows) available.
Proof.
  apply list_filter_iff. intros m.
  by rewrite elem_of_list_to_set, merge_sort_Permutation.
Qed.

(** The loop of [runMigrations], when every migration goes through and
    no body touches the history table: one record per migration is
    added, in the order of the list. *)
Lemma migrations_loop_succeeded ms : ∀ e e' rows,
  (∀ sql d d', run_sql sql d = (d', None) →
               migration_history d' = migration_history d ∧ reachable d' = reachable d) →
  for_of ms executeMigration e = (Ok tt, e') →
  migration_history (db e) = Some rows →
  ∃ new,
    migration_history (db e') = Some (rows ++ new)
    ∧ Forall2 (λ r m, migration_name r = name m ∧ recorded_checksum r = checksum m) new ms
    ∧ reachable (db e') = reachable (db e)
    ∧ migrationsDir e' = migrationsDir e.
Proof.
  induction ms as [|m ms IH]; intros e e' rows Hbody Hrun Hrows.
  - injection Hrun as <-. exists []. rewrite app_nil_r. auto.
  - cbn [for_of] in Hrun. unfold bind in Hrun.
    destruct (executeMigration m e) as [[[]|err] e1] eqn:Hm; [|discriminate].
    destruct (executeMigration_succeeded m e e1 Hm)
      as (d & rows' & Hreach & Hsql & Hrows' & Hfresh & Hdb & Hdir & _).
    destruct (Hbody _ _ _ Hsql) as [Hsame Hreach'].
    rewrite Hsame, Hrows in Hrows'. injection Hrows' as <-.
    destruct (IH e1 e' _ Hbody Hrun ltac:(by rewrite Hdb)) as (new & Hhist & Hall & Hr & Hd).
    eexists (_ :: new). rewrite Hhist, <- app_assoc. split; [reflexivity|].
    split; [by constructor|]. rewrite Hr, Hd, Hdir, Hdb. simpl. by rewrite Hreach'.
Qed.

(** What a successful [runMigrations] went through. *)
Lemma runMigrations_succeeded e e1 dir :
  migrationsDir e = Some dir →
  runMigrations e = (Ok tt, e1) →
  ∃ available e0 e',
    reachable (db e) = true
    ∧ migrationsOnDisk dir = Some available
    ∧ migration_history (db e0) = Some (historyRows (db e))
    ∧ reachable (db e0) = true
    ∧ for_of (filter (λ m, name m ∉ migration_name <$> historyRows (db e)) available)
             executeMigration e0 = (Ok tt, e')
    ∧ migrationsDir e0 = Some dir
    ∧ db e1 = db e'
    ∧ migrationsDir e1 = migrationsDir e'.
Proof.
  intros Hdir Hrun.
  unfold runMigrations, try_catch, bind, logger_, modify in Hrun.
  rewrite ensureMigrationHistoryTable_creates in Hrun.
  cbn [db with_log reachable] in Hrun.
  destruct (reachable (db e)) eqn:Hreach; [|discriminate]. cbv beta iota zeta in Hrun.
  rewrite getAvailableMigrations_lists in Hrun.
  cbn [migrationsDir with_checkedOut with_log with_db] in Hrun. rewrite Hdir in Hrun.
  destruct (migrationsOnDisk dir) as [available|] eqn:Hdisk; [|discriminate].
  cbv beta iota zeta in Hrun.
  rewrite getExecutedMigrations_selects in Hrun.
  cbn [db with_checkedOut with_log with_db reachable] in Hrun. rewrite Hreach in Hrun.
  cbv beta iota zeta in Hrun.
  cbn [historyRows migration_history default] in Hrun. fold (historyRows (db e)) in Hrun.
  unfold Datatypes.id in Hrun. rewrite pending_filter in Hrun.
  match type of Hrun with context [with_checkedOut ?f (with_log ?g ?x)] =>
    set (e0 := with_checkedOut f (with_log g x)) in Hrun end.
  assert (He0 : migration_history (db e0) = Some (historyRows (db e))
                ∧ reachable (db e0) = true ∧ migrationsDir e0 = Some dir)
    by (subst e0; simpl; auto).
  destruct He0 as (Hhist & Hreach0 & Hdir0).
  case_bool_decide as Hlen.
  - injection Hrun as <-. apply nil_length_inv in Hlen.
    exists available, e0, e0. rewrite Hlen. simpl. auto 10.
  - match type of Hrun with context [for_of ?ms ?f ?x] =>
      destruct (for_of ms f x) as [[[]|err] e'] eqn:Hloop end; [|discriminate].
    injection Hrun as <-.
    match type of Hloop with for_of _ _ ?x = _ => exists available, x, e' end.
    simpl. auto 10.
Qed.



(** With every migration of the directory already in the history,
    [runMigrations] runs nothing and leaves the database as it is. *)
Lemma runMigrations_nothing_pending e dir available rows :
  reachable (db e) = true →
  migrationsDir e = Some dir →
  migrationsOnDisk dir = Some available →
  migration_history (db e) = Some rows →
  (∀ m, m ∈ available → name m ∈ migration_name <$> rows) →
  ∃ e2, runMigrations e = (Ok tt, e2)
        ∧ db e2 = db e
        ∧ migrationsDir e2 = migrationsDir e
        ∧ last (log e2) = Some (mkLog lvl_info "No pending migrations to execute").
Proof.
  intros Hreach Hdir Hdisk Hrows Hall.
  assert (Hnone : filter (λ m, name m ∉ migration_name <$> rows) available = []).
  { destruct (filter _ available) as [|m ms] eqn:Hf; [done|].
    assert (Hin : m ∈ filter (λ m, name m ∉ migration_name <$> rows) available)
      by (rewrite Hf; apply list_elem_of_here).
    apply list_elem_of_filter in Hin as [Hnot Hin]. destruct (Hnot (Hall m Hin)). }
  unfold runMigrations, try_catch, bind, logger_, modify.
  rewrite ensureMigrationHistoryTable_creates. cbn [db with_log reachable].
  rewrite Hreach. cbv beta iota zeta.
  rewrite getAvailableMigrations_lists.
  cbn [migrationsDir with_checkedOut with_log with_db]. rewrite Hdir, Hdisk.
  cbv beta iota zeta.
  rewrite getExecutedMigrations_selects.
  cbn [db with_checkedOut with_log with_db reachable]. rewrite Hreach.
  cbv beta iota zeta.
  cbn [historyRows migration_history default]. unfold Datatypes.id.
  rewrite pending_filter. unfold historyRows. rewrite Hrows. cbn [default]. unfold Datatypes.id.
  rewrite Hnone. cbn [length]. rewrite bool_decide_eq_true_2 by done.
  eexists. split; [reflexivity|]. cbn [db log migrationsDir with_checkedOut with_log with_db].
  split; [|split; [done | apply last_snoc]].
  destruct (db e) as [rc tb hist sq]. simpl in *. by rewrite Hrows.
Qed.


End Pending.

(** *** Examples on the sample directory *)

Lemma sample_bodies_keep_history sql (d d' : Database (list string)) :
  run_sql sql d = (d', None) →
  migration_history d' = migration_history d ∧ reachable d' = reachable d.
Proof.
  simpl. unfold sample_run_sql. destruct (String.prefix "CREATE" sql); [|discriminate].
  by intros [= <-].
Qed.

(** The body of the migration fails after a partial change: the error
    is the body's, and the database is as before. *)
Lemma migration_is_atomic_witness :
  let e := (ensureMigrationHistoryTable (sample_env sample_dir)).2 in
  (executeMigration broken_migration e).1 = Throw (Error "syntax error")
  ∧ db (executeMigration broken_migration e).2 = db e.
Proof.
  intros e.
  destruct (migration_is_atomic broken_migration e) as (Hroll & Hfail & _).
  pose proof (Hfail _ (Error "syntax error") eq_refl ltac:(vm_compute; reflexivity)) as Hthrow.
  split; [exact Hthrow | exact (proj1 (Hroll _ Hthrow))].
Defined.

(** With a third migration that fails, initialisation fails with its
    error; the two migrations before it are recorded, and of the third
    neither the partial change nor a record is left. *)
Example broken_migration_aborts_initialization :
  let r := initializeDatabase true (sample_env broken_dir) in
  r.1 = Throw (Error "syntax error")
  ∧ tables (db r.2) = ["CREATE TABLE audit_logs (id SERIAL)";
                       "CREATE INDEX i ON audit_logs(trace_id)"]
  ∧ migration_name <$> historyRows (db r.2) = ["001_init"; "002_indexes"].
Proof. vm_compute. auto. Qed.


Example second_run_adds_nothing :
  migration_name <$> historyRows (db migrated_env) = ["001_init"; "002_indexes"]
  ∧ migration_name <$> historyRows (db (runMigrations migrated_env).2)
    = ["001_init"; "002_indexes"].
Proof. vm_compute. auto. Qed.

(** The first file was edited after it ran: validation returns [false]
    and the database is as before. *)
Lemma validateMigrations_reports_and_never_throws_witness :
  (validateMigrations tampered_env).1 = Ok false
  ∧ db (validateMigrations tampered_env).2 = db tampered_env.
Proof.
  destruct (validateMigrations_reports_and_never_throws tampered_env)
    as (valid & entries & e' & Hrun & Hdb & _ & _ & _ & Hreports & _).
  edestruct (Hreports tampered_dir) as [_ Hdrift].
  - vm_compute. reflexivity.
  - vm_compute. reflexivity.
  - vm_compute. reflexivity.
  - edestruct (Hdrift []) as [Hvalid _].
    + vm_compute. reflexivity.
    + intros r' Hin. inversion Hin.
    + exists "CREATE TABLE audit_logs (id BIGSERIAL)". split.
      * vm_compute. reflexivity.
      * vm_compute. discriminate.
    + rewrite Hrun. cbn [fst snd]. split; [by rewrite Hvalid | exact Hdb].
Defined.

(** C7, counterexample. Both migrations were executed; afterwards the
    file of the first was edited and the file of the second was removed.
    Validation stops at the first: it logs the mismatch and returns
    [false], and the missing file of 002_indexes is not reported. *)
Lemma missing_file_after_mismatch_is_not_reported :
  let r := validateMigrations tampered_env in
  migration_name <$> historyRows (db tampered_env) = ["001_init"; "002_indexes"]
  ∧ tampered_dir !! "002_indexes.sql" = None
  ∧ r.1 = Ok false
  ∧ log r.2 = [mkLog lvl_error "Migration checksum mismatch: 001_init"].
Proof. vm_compute. auto. Qed.

(** The second file is missing; with the first one unchanged it is
    reported by a warning and validation returns [true]. *)
Example missing_file_is_a_warning :
  let e := mkEnv (Some (delete "002_indexes.sql" sample_dir)) (db migrated_env)
                 None [] 0%nat 0%nat in
  (validateMigrations e).1 = Ok true
  ∧ log (validateMigrations e).2
    = [mkLog lvl_warn "Migration file missing: 002_indexes";
       mkLog lvl_info "All migration checksums validated"].
Proof. vm_compute. auto. Qed.

(** * Further properties *)

(** ** Invariants, construct by construct *)

(** [keeps P] goes through the constructs of the monad. *)
Section Keeps.
Context {S : Type} (P : S → Prop).

Lemma keeps_ret {A} (a : A) : keeps P (ret a).
Proof. by intros s. Qed.

Lemma keeps_throw {A} e : keeps P (throw e : M S A).
Proof. by intros s. Qed.

Lemma keeps_lift {A} (r : Result A) : keeps P (lift r).
Proof. by intros s. Qed.

Lemma keeps_gets {A} (f : S → A) : keeps P (gets f).
Proof. by intros s. Qed.

Lemma keeps_modify f : (∀ s, P s → P (f s)) → keeps P (modify f).
Proof. intros Hf s. apply Hf. Qed.

Lemma keeps_bind {A B} (m : M S A) (k : A → M S B) :
  keeps P m → (∀ a, keeps P (k a)) → keeps P (bind m k).
Proof.
  intros Hm Hk s Hs. unfold bind. specialize (Hm s Hs).
  destruct (m s) as [[a|e] s1]; [by apply Hk | exact Hm].
Qed.

Lemma keeps_try_catch {A} (body : M S A) handler :
  keeps P body → (∀ e, keeps P (handler e)) → keeps P (try_catch body handler).
Proof.
  intros Hm Hk s Hs. unfold try_catch. specialize (Hm s Hs).
  destruct (body s) as [[a|e] s1]; [exact Hm | by apply Hk].
Qed.

Lemma keeps_try_finally {A} (body : M S A) cleanup :
  keeps P body → (∀ s, P s → P (cleanup s)) → keeps P (try_finally body cleanup).
Proof.
  intros Hm Hc s Hs. unfold try_finally. specialize (Hm s Hs).
  destruct (body s) as [r s1]. by apply Hc.
Qed.

Lemma keeps_for_of {A} (xs : list A) body :
  (∀ x, keeps P (body x)) → keeps P (for_of xs body).
Proof.
  intros Hbody. induction xs as [|x xs IH]; [apply keeps_ret|].
  apply keeps_bind; [apply Hbody | intros _; exact IH].
Qed.

End Keeps.

(** ** Pull mode: what a delivery does *)

(** What the consume callback does with a delivery, in full: it
    resolves, answers on the channel according to the body and to what
    the lookup of the routing key finds, counts the delivery when a
    handler ran, and leaves the consumer, the timers and the HTTP
    responses alone. *)
Lemma onMessage_runs msg w :
  ∃ w', onMessage (Some msg) w = (Ok tt, w')
    ∧ channelOps w' = channelOps w ++
        match RabbitMQ.content msg with
        | NotJSON _ => [nack (deliveryTag msg) false true]
        | JSON event =>
            let acked :=
              match event with
              | JNull | JUndefined =>
                  [ack (deliveryTag msg); nack (deliveryTag msg) false true]
              | _ => [ack (deliveryTag msg)]
              end in
            match TOPIC_HANDLERS !! routingKey msg, inherited (routingKey msg) with
            | Some _, _ => acked
            | None, Some member =>
                if is_ok (member event) then acked else [nack (deliveryTag msg) false true]
            | None, None => [ack (deliveryTag msg)]
            end
        end
    ∧ messagesProcessed (consumerState w') = messagesProcessed (consumerState w) +
        match RabbitMQ.content msg with
        | NotJSON _ => 0
        | JSON event =>
            match TOPIC_HANDLERS !! routingKey msg, inherited (routingKey msg) with
            | Some _, _ => 2
            | None, Some member => if is_ok (member event) then 1 else 0
            | None, None => 0
            end
        end
    ∧ responses w' = responses w
    ∧ consumer w' = consumer w
    ∧ timers w' = timers w
    ∧ scheduled w' = scheduled w
    ∧ exitCode w' = exitCode w.
Proof.
  unfold onMessage, try_catch, bind. cbv zeta.
  destruct (RabbitMQ.content msg) as [text|event].
  { eexists. split; [reflexivity|]. simpl. rewrite Z.add_0_r. auto 10. }
  cbn [JSON_parse ret].
  match goal with |- context [@lookup ?K ?A ?Mp ?L ?k ?m] =>
    destruct (@lookup K A Mp L k m) as [handler|] eqn:Hlook end.
  - rewrite (TOPIC_HANDLERS_get_own _ _ Hlook).
    apply TOPIC_HANDLERS_lookup in Hlook as (n & f & ->). unfold via.
    destruct (handleEvent_runs n f (createMockRequest event) createMockResponse w)
      as (w1 & Hrun & Hres & _ & Hcount & Hops & Hcons & Ht & Hs & Hx).
    rewrite Hrun. simpl in Hres. rewrite app_nil_r in Hres.
    unfold trackMessageProcessed, channel_ack, channel_nack, logger, modify, lift, ret, get.
    cbn -[pretty Z.add].
    assert (Htwo : messagesProcessed (consumerState w1) + 1
                   = messagesProcessed (consumerState w) + 2) by lia.
    destruct event as [| |b|k|s|items|fields];
      try (eexists; split; [reflexivity|]; cbn -[Z.add];
           rewrite Hops, ?Htwo, <- ?app_assoc; auto 10).
    destruct (truthy (field "id" fields));
      (eexists; split; [reflexivity|]; cbn -[Z.add]; rewrite Hops, ?Htwo; auto 10).
  - rewrite (TOPIC_HANDLERS_get_inherited _ Hlook).
    destruct (inherited (routingKey msg)) as [member|]; cbn [fmap option_fmap option_map].
    2:{ eexists. split; [reflexivity|]. simpl. rewrite Z.add_0_r. auto 10. }
    unfold trackMessageProcessed, channel_ack, channel_nack, logger, modify, lift, ret, get.
    destruct (member event) as [[]|e]; cbn -[pretty Z.add].
    2:{ eexists. split; [reflexivity|]. simpl. rewrite Z.add_0_r. auto 10. }
    destruct event as [| |b|k|s|items|fields];
      try (eexists; split; [reflexivity|]; cbn -[Z.add]; rewrite <- ?app_assoc; auto 10).
    destruct (truthy (field "id" fields));
      (eexists; split; [reflexivity|]; cbn -[Z.add]; auto 10).
Qed.

(** X1. Every delivery is answered on the channel, under its own tag.
    A body that is not JSON gets one nack-and-requeue. With a JSON body,
    what answers depends on what [TOPIC_HANDLERS[routingKey]] finds. A
    topic of the table gets one ack, followed by a nack-and-requeue when
    the body is [null]. A name inherited from [Object.prototype] is
    called as if it were a handler: when the call throws ([__proto__],
    [valueOf], [hasOwnProperty], ...) the delivery gets one
    nack-and-requeue, when it returns ([constructor], [toString]) it is
    answered like a topic. Every other routing key gets one ack. The
    cancellation notice ([null] delivery) is ignored. *)
Theorem every_delivery_is_answered msg w :
  (∃ w', onMessage (Some msg) w = (Ok tt, w')
     ∧ channelOps w' = channelOps w ++
         match RabbitMQ.content msg with
         | NotJSON _ => [nack (deliveryTag msg) false true]
         | JSON event =>
             let acked :=
               match event with
               | JNull | JUndefined =>
                   [ack (deliveryTag msg); nack (deliveryTag msg) false true]
               | _ => [ack (deliveryTag msg)]
               end in
             match TOPIC_HANDLERS !! routingKey msg, inherited (routingKey msg) with
             | Some _, _ => acked
             | None, Some member =>
                 if is_ok (member event) then acked else [nack (deliveryTag msg) false true]
             | None, None => [ack (deliveryTag msg)]
             end
         end
     ∧ responses w' = responses w)
  ∧ onMessage None w = (Ok tt, w).
Proof.
  split; [|reflexivity].
  destruct (onMessage_runs msg w) as (w' & Hrun & Hops & _ & Hres & _).
  exists w'. auto.
Qed.

(** X2. [messagesProcessed] counts a message twice in pull mode and once
    in push mode. A delivery whose topic has a handler in the table and
    whose body is JSON adds 2, once in the handler's wrapper and once in
    the consume callback, also when the delivery ends up rejected. A
    delivery whose routing key names a property inherited from
    [Object.prototype] adds 1 when the call of that property returns
    ([constructor], [toString]): only the consume callback counts it. A
    delivery that is acknowledged as an unknown topic, or rejected
    because the body is not JSON or the inherited property throws, adds
    nothing. A request on an event route adds 1, whether or not the entry
    could be logged. *)
Theorem messages_are_counted_twice_in_pull_mode msg w :
  messagesProcessed (consumerState (onMessage (Some msg) w).2)
  = messagesProcessed (consumerState w) +
      match RabbitMQ.content msg with
      | NotJSON _ => 0
      | JSON event =>
          match TOPIC_HANDLERS !! routingKey msg, inherited (routingKey msg) with
          | Some _, _ => 2
          | None, Some member => if is_ok (member event) then 1 else 0
          | None, None => 0
          end
      end
  ∧ ∀ path handler req,
      (path, handler) ∈ eventRoutes →
      messagesProcessed (consumerState (handler req ExpressResponse w).2)
      = messagesProcessed (consumerState w) + 1.
Proof.
  split.
  - destruct (onMessage_runs msg w) as (w' & Hrun & _ & Hcount & _).
    rewrite Hrun. exact Hcount.
  - intros path handler req Hin.
    pose proof (proj1 (Forall_forall _ _) eventRoutes_are_wrapped _ Hin) as (n & f & Heq).
    simpl in Heq. subst handler.
    destruct (handleEvent_runs n f req ExpressResponse w) as (w' & -> & _ & _ & Hcount & _).
    exact Hcount.
Qed.

(** ** Stopping the consumer and shutting down *)

(** X3. [stop] always resolves and closes the channel before the
    connection. When [channel.close()] rejects, the connection is not
    closed and both fields keep their handles; when [connection.close()]
    rejects, the channel is gone and the connection field keeps its
    handle. A consumer that holds neither only logs that it stopped, so
    [stop] can be called twice. The last log entry tells which way it
    went. *)
Theorem stop_closes_channel_then_connection fault w :
  let r := consumer w in
  let channelFails := bool_decide (fault = Some ChannelCloseFails ∧ is_Some (channel r)) in
  let connectionFails := bool_decide (fault = Some ConnectionCloseFails ∧ is_Some (connection r)) in
  ∃ w', stop fault w = (Ok tt, w')
    ∧ consumer w' =
        (if channelFails then r
         else if connectionFails then mkConsumer (connection r) None (reconnectAttempts r)
         else mkConsumer None None (reconnectAttempts r))
    ∧ logs w' = logs w ++
        [if channelFails || connectionFails
         then mkLog lvl_error "Error stopping RabbitMQ consumer"
         else mkLog lvl_info "RabbitMQ consumer stopped"]
    ∧ channelOps w' = channelOps w
    ∧ closeListeners w' = closeListeners w.
Proof.
  destruct w as [cs clk lg rs ops [c ch n] tm sch cl nh ex ls].
  destruct c, ch, fault as [[]|];
    (eexists; split; [vm_compute; reflexivity|]); repeat split.
Qed.

(** X4. [gracefulShutdown] always ends in [process.exit]: with code 0 when
    the Consul deregistration and the closing of the pool both succeed,
    with code 1 otherwise. A failure inside the consumer's [stop] does
    not change the code. When the deregistration fails the consumer is
    not stopped at all: its connection and channel stay as they were.
    Reconnect timers are still armed at exit, and do not run any more. *)
Theorem gracefulShutdown_always_exits signal consulFails dbCloseFails fault w :
  ∃ w', gracefulShutdown signal consulFails dbCloseFails fault w = (Ok tt, w')
    ∧ exitCode w' = Some (if consulFails || dbCloseFails then 1 else 0)
    ∧ consuming (consumerState w') = false
    ∧ connected (consumerState w') =
        (if consulFails || dbCloseFails then connected (consumerState w) else false)
    ∧ consumer w' = (if consulFails then consumer w else consumer (stop fault w).2)
    ∧ timers w' = timers w
    ∧ ∀ broker, fireTimer broker w' = w'.
Proof.
  destruct w as [[cn cg mp la] clk lg rs ops [c ch n] tm sch cl nh ex ls].
  destruct consulFails, dbCloseFails, c, ch, fault as [[]|];
    (eexists; split; [vm_compute; reflexivity|]); repeat split.
Qed.

(** ** Starting the service *)

(** The consumer's own operations leave [consumerState], the channel
    traffic and the HTTP responses alone. *)
Lemma handleReconnect_frame w :
  consumerState (handleReconnect w).2 = consumerState w
  ∧ channelOps (handleReconnect w).2 = channelOps w
  ∧ responses (handleReconnect w).2 = responses w.
Proof.
  unfold handleReconnect, bind, gets.
  destruct (decide (reconnectAttempts (consumer w) >= maxReconnectAttempts)); simpl; auto.
Qed.

Lemma attempt_frame broker (k : M World unit) w :
  (∀ w0, consumerState (k w0).2 = consumerState w0
         ∧ channelOps (k w0).2 = channelOps w0
         ∧ responses (k w0).2 = responses w0
         ∧ exitCode (k w0).2 = exitCode w0) →
  let w1 := ((connect broker ;;; subscribe broker ;;; k) w).2 in
  consumerState w1 = consumerState w
  ∧ channelOps w1 = channelOps w
  ∧ responses w1 = responses w
  ∧ exitCode w1 = exitCode w.
Proof.
  intros Hk. destruct broker as [[]|]; try (vm_compute; auto; fail).
  cbv zeta.
  destruct (attempt_succeeds w) as (w1 & Hrun & _).
  assert (Hw1 : consumerState w1 = consumerState w ∧ channelOps w1 = channelOps w
                ∧ responses w1 = responses w ∧ exitCode w1 = exitCode w).
  { replace w1 with ((connect None ;;; subscribe None) w).2 by (by rewrite Hrun).
    vm_compute. auto. }
  unfold bind in *. destruct (connect None w) as [[[]|e] w0]; [|discriminate].
  rewrite Hrun. destruct (Hk w1) as (-> & -> & -> & ->). exact Hw1.
Qed.

Lemma start_frame broker w :
  consumerState (start broker w).2 = consumerState w
  ∧ channelOps (start broker w).2 = channelOps w
  ∧ responses (start broker w).2 = responses w.
Proof.
  pose proof (attempt_frame broker (logger lvl_info "RabbitMQ consumer started successfully") w)
    as Hframe.
  cbv zeta in Hframe. destruct Hframe as (Hcs & Hops & Hres & _); [by intros w0|].
  unfold start, try_catch.
  destruct ((connect broker ;;; subscribe broker ;;;
             logger lvl_info "RabbitMQ consumer started successfully") w) as [[[]|e] w1];
    [auto|].
  unfold bind, logger, modify.
  destruct (handleReconnect_frame
              (with_logs (λ ls, ls ++ [mkLog lvl_error "Failed to start RabbitMQ consumer"]) w1))
    as (-> & -> & ->).
  simpl in *. auto.
Qed.


(** [start] resolves whatever the broker does: it leaves the consumer
    connected, or a reconnect timer armed. *)
Lemma start_runs broker w :
  reconnectAttempts (consumer w) < maxReconnectAttempts →
  ∃ w', start broker w = (Ok tt, w')
    ∧ consumerState w' = consumerState w
    ∧ exitCode w' = exitCode w
    ∧ match broker with
      | None =>
          connection (consumer w') = Some (nextHandle w)
          ∧ channel (consumer w') = Some (S (nextHandle w))
          ∧ reconnectAttempts (consumer w') = reconnectAttempts (consumer w)
          ∧ timers w' = timers w
      | Some _ =>
          timers w' = timers w ++ [reconnectDelay * 2 ^ reconnectAttempts (consumer w)]
          ∧ reconnectAttempts (consumer w') = reconnectAttempts (consumer w) + 1
      end.
Proof.
  intros Hlt. pose proof (start_frame broker w) as (Hcs & _).
  destruct broker as [stage|].
  - destruct (failed_attempt_is_rescheduled
                (logger lvl_info "RabbitMQ consumer started successfully")
                "Failed to start RabbitMQ consumer" stage w)
      as (w2 & Hrun & Ha & Ht & _ & Hx); [exact Hlt|].
    fold (start (Some stage)) in Hrun. rewrite Hrun in Hcs.
    exists w2. auto.
  - exists (start None w).2. split; [vm_compute; reflexivity|].
    split; [exact Hcs|]. vm_compute. auto.
Qed.

(** [start] leaves the servers alone. *)
Lemma start_keeps_listening broker ports : keeps (λ w, listening w = ports) (start broker).
Proof.
  unfold start, connect, subscribe, handleReconnect, fails_at, fresh, set_connection,
    set_channel, set_reconnectAttempts, logger.
  repeat first
    [ apply keeps_bind; [|intros ?]
    | apply keeps_try_catch; [|intros ?]
    | apply keeps_for_of; intros ?
    | apply keeps_ret | apply keeps_throw | apply keeps_gets
    | apply keeps_modify; by intros ?
    | by intros ?
    | match goal with |- keeps _ (if ?b then _ else _) => destruct b end
    | match goal with |- keeps _ (match ?x with _ => _ end) => destruct x end ].
Qed.

(** X5. [startConsumer] exits with code 1 exactly when the configuration
    is invalid, the database initialisation fails, or [app.listen]
    refuses the port ([config.port || 8012] is not an integer from 0 to
    65535, which a configuration that passed validation does not
    exclude), and then makes no attempt on the broker. Otherwise the
    server is started on that port and the process stays up whatever the
    broker does: in RabbitMQ mode a failed first connection arms a
    reconnect timer, and the service still reports [consuming], with the
    success entry as its last log entry. RabbitMQ mode is every value of
    MESSAGING_PROVIDER other than "dapr", and the unset or empty value
    when the Dapr probe fails. *)
Theorem startConsumer_outcome s w :
  reconnectAttempts (consumer w) < maxReconnectAttempts →
  let provider := messagingProvider s (daprHealthy s) in
  ∃ w', startConsumer s w = (Ok tt, w')
    ∧ match (if configInvalid s || databaseFails s then None
             else listenPort (config_port s)) with
      | None =>
          exitCode w' = Some 1
          ∧ consuming (consumerState w') = consuming (consumerState w)
          ∧ consumer w' = consumer w ∧ nextHandle w' = nextHandle w ∧ timers w' = timers w
          ∧ listening w' = listening w
          ∧ last (logs w') = Some (mkLog lvl_error "Failed to start consumer:")
      | Some PORT =>
          exitCode w' = exitCode w
          ∧ listening w' = listening w ++ [PORT]
          ∧ connected (consumerState w') = true
          ∧ consuming (consumerState w') = true
          ∧ if bool_decide (provider = "dapr") then
              consumer w' = consumer w ∧ nextHandle w' = nextHandle w ∧ timers w' = timers w
              ∧ last (logs w') =
                  Some (mkLog lvl_info "Audit Service Consumer started successfully with Dapr mode")
            else
              last (logs w') =
                Some (mkLog lvl_info "Audit Service Consumer started successfully with RabbitMQ mode")
              ∧ match broker s with
                | None =>
                    connection (consumer w') = Some (nextHandle w)
                    ∧ channel (consumer w') = Some (S (nextHandle w))
                    ∧ timers w' = timers w
                | Some _ =>
                    timers w' = timers w ++ [reconnectDelay * 2 ^ reconnectAttempts (consumer w)]
                    ∧ reconnectAttempts (consumer w') = reconnectAttempts (consumer w) + 1
                end
      end.
Proof.
  intros Hlt provider. subst provider.
  unfold startConsumer, try_catch, isDaprAvailable, startExpressServer.
  unfold bind at 1, logger at 1, modify at 1.
  unfold bind at 1, external at 1.
  destruct (configInvalid s).
  { eexists. split; [reflexivity|]. cbn -[last].
    repeat split. rewrite ?app_assoc. apply last_snoc. }
  cbn [ret orb]. unfold bind at 1, logger at 1, modify at 1.
  unfold bind at 1, external at 1.
  destruct (databaseFails s).
  { eexists. split; [reflexivity|]. cbn -[last].
    repeat split. rewrite ?app_assoc. apply last_snoc. }
  cbn [ret]. unfold bind at 1, set_connected at 1, modify at 1.
  unfold bind at 1, logger at 1, modify at 1.
  unfold bind at 1, ret at 1.
  case_bool_decide as Hprov.
  { unfold bind at 1. destruct (listenPort (config_port s)) as [PORT|].
    - eexists. split; [reflexivity|]. cbn -[last]. repeat split. apply last_snoc.
    - eexists. split; [reflexivity|]. cbn -[last].
      repeat split. rewrite ?app_assoc. apply last_snoc. }
  unfold bind at 1. destruct (listenPort (config_port s)) as [PORT|].
  2:{ eexists. split; [reflexivity|]. cbn -[last].
      repeat split. rewrite ?app_assoc. apply last_snoc. }
  unfold modify at 1. unfold bind at 1.
  match goal with |- context [start (broker s) ?w0] =>
    pose proof (start_keeps_listening (broker s) _ w0 eq_refl) as Hports;
    destruct (start_runs (broker s) w0) as (w2 & Hrun & Hcs & Hx & Hbroker); [exact Hlt|] end.
  rewrite Hrun in Hports. rewrite Hrun. eexists. split; [reflexivity|].
  cbn [exitCode consumerState consumer timers logs listening with_logs with_consumerState
       connected consuming snd] in *.
  rewrite Hx, Hcs, Hports.
  cbn [exitCode consumerState listening with_logs with_consumerState with_listening connected].
  do 4 (split; [reflexivity|]). split; [apply last_snoc|].
  destruct (broker s); cbn -[Z.mul Z.pow Z.add] in Hbroker; tauto.
Qed.

(** The broker refuses the connection at startup, with no
    MESSAGING_PROVIDER and no Dapr sidecar; the port is the default. *)
Lemma startConsumer_outcome_witness :
  let s := mkSurroundings false false false None (Some AtConnect) (Some 8012) in
  ∃ w', startConsumer s (boot 0) = (Ok tt, w')
        ∧ exitCode w' = None ∧ listening w' = [8012]
        ∧ consuming (consumerState w') = true ∧ timers w' = [5000].
Proof.
  intros s.
  destruct (startConsumer_outcome s (boot 0)) as (w' & Hrun & Hx & Hl & _ & Hc & _ & Ht & _).
  - vm_compute. reflexivity.
  - exists w'. split; [exact Hrun|]. split; [exact Hx|]. split; [exact Hl|].
    split; [exact Hc | exact Ht].
Defined.

(** The configuration is valid for the validator and the database is
    up, but PORT reads as a number that is not an integer: [app.listen]
    throws and the process exits with code 1 before it tries the broker. *)
Example refused_port_stops_the_service :
  let s := mkSurroundings false false false None None None in
  ∃ w', startConsumer s (boot 0) = (Ok tt, w')
        ∧ exitCode w' = Some 1 ∧ connection (consumer w') = None ∧ timers w' = [].
Proof. eexists. split; [vm_compute; reflexivity|]. auto. Qed.

(** ** The reconnect counter and the timers, over any run *)

(** The invariant reads the counter, the timers and the scheduled
    delays only. *)
Lemma reconnectInvariant_frame w w' :
  reconnectAttempts (consumer w') = reconnectAttempts (consumer w) →
  timers w' = timers w → scheduled w' = scheduled w →
  reconnectInvariant w → reconnectInvariant w'.
Proof. unfold reconnectInvariant. by intros -> -> ->. Qed.

Lemma keeps_frame (f : World → World) :
  (∀ w, reconnectAttempts (consumer (f w)) = reconnectAttempts (consumer w)
        ∧ timers (f w) = timers w ∧ scheduled (f w) = scheduled w) →
  keeps reconnectInvariant (modify f).
Proof.
  intros Hf. apply keeps_modify. intros w. destruct (Hf w) as (Ha & Ht & Hs).
  by apply reconnectInvariant_frame.
Qed.

Lemma logger_keeps l msg : keeps reconnectInvariant (logger l msg).
Proof. by apply keeps_frame. Qed.

Lemma fails_at_keeps broker s what : keeps reconnectInvariant (fails_at broker s what).
Proof. unfold fails_at. destruct (decide _); [apply keeps_throw | apply keeps_ret]. Qed.

Lemma fresh_keeps : keeps reconnectInvariant fresh.
Proof. intros w. by apply reconnectInvariant_frame. Qed.

Lemma external_keeps fails what : keeps reconnectInvariant (external fails what).
Proof. destruct fails; [apply keeps_throw | apply keeps_ret]. Qed.

Lemma set_reconnectAttempts_zero_keeps : keeps reconnectInvariant (set_reconnectAttempts 0).
Proof.
  apply keeps_modify. intros w (Ha & Hs & Ht). unfold reconnectInvariant, maxReconnectAttempts.
  simpl. split; [lia | by split].
Qed.

Lemma handleReconnect_keeps : keeps reconnectInvariant handleReconnect.
Proof.
  intros w (Ha & Hs & Ht).
  destruct (decide (reconnectAttempts (consumer w) >= maxReconnectAttempts)) as [Hge|Hlt].
  - rewrite (handleReconnect_at_cap w Hge). by split.
  - destruct (handleReconnect_below_cap w) as (w1 & Hrun & Ha1 & Ht1 & Hs1 & _); [lia|].
    rewrite Hrun. unfold reconnectInvariant. cbn [snd]. rewrite Ha1, Ht1, Hs1.
    split; [lia|]. split.
    + apply Forall_app. split; [done|]. apply Forall_singleton.
      exists (reconnectAttempts (consumer w)). split; [lia | reflexivity].
    + by apply sublist_app.
Qed.

Create HintDb keeps discriminated.
#[local] Hint Resolve keeps_ret keeps_throw keeps_lift keeps_gets keeps_for_of
  logger_keeps fails_at_keeps fresh_keeps external_keeps
  set_reconnectAttempts_zero_keeps handleReconnect_keeps : keeps.

(** Goes through a block of code, one construct at a time. *)
Local Ltac keeps_block :=
  repeat first
    [ solve [auto with keeps]
    | apply keeps_bind; [|intros ?]
    | apply keeps_try_catch; [|intros ?]
    | apply keeps_for_of; intros ?
    | apply keeps_frame; intros ?; repeat split; fail
    | match goal with |- keeps _ (if ?b then _ else _) => destruct b end
    | match goal with |- keeps _ (match ?x with _ => _ end) => destruct x end ].

Lemma connect_keeps broker : keeps reconnectInvariant (connect broker).
Proof. unfold connect, set_connection, set_channel. keeps_block. Qed.

#[local] Hint Resolve connect_keeps : keeps.

Lemma subscribe_keeps broker : keeps reconnectInvariant (subscribe broker).
Proof.
  unfold subscribe. apply keeps_bind; [apply keeps_gets|]. intros [ch|]; keeps_block.
Qed.

#[local] Hint Resolve subscribe_keeps : keeps.

Lemma start_keeps broker : keeps reconnectInvariant (start broker).
Proof. unfold start. keeps_block. Qed.

Lemma reconnectCallback_keeps broker : keeps reconnectInvariant (reconnectCallback broker).
Proof.
  unfold reconnectCallback. keeps_block.
Qed.

Lemma onConnectionClose_keeps : keeps reconnectInvariant onConnectionClose.
Proof. unfold onConnectionClose. keeps_block. Qed.

Lemma stop_keeps fault : keeps reconnectInvariant (stop fault).
Proof. unfold stop, set_connection, set_channel. keeps_block. Qed.

#[local] Hint Resolve start_keeps stop_keeps : keeps.

Lemma handleEvent_keeps eventName logFunction req res :
  keeps reconnectInvariant (handleEvent eventName logFunction req res).
Proof.
  unfold handleEvent, run_logFunction, trackMessageProcessed, status_json. keeps_block.
Qed.

#[local] Hint Resolve handleEvent_keeps : keeps.

Lemma onMessage_keeps delivery : keeps reconnectInvariant (onMessage delivery).
Proof.
  destruct delivery as [msg|]; [|apply keeps_ret].
  unfold onMessage, JSON_parse, channel_ack, channel_nack, trackMessageProcessed.
  cbv zeta. apply keeps_try_catch; [|intros ?; keeps_block].
  apply keeps_bind; [keeps_block|]. intros event.
  destruct (TOPIC_HANDLERS_get (routingKey msg)) as [handler|] eqn:Hget; [|keeps_block].
  destruct (TOPIC_HANDLERS !! routingKey msg) as [own|] eqn:Hlook.
  - rewrite (TOPIC_HANDLERS_get_own _ _ Hlook) in Hget. injection Hget as <-.
    apply TOPIC_HANDLERS_lookup in Hlook as (n & f & ->). unfold via.
    keeps_block.
  - rewrite (TOPIC_HANDLERS_get_inherited _ Hlook) in Hget.
    destruct (inherited (routingKey msg)) as [member|]; [|discriminate].
    injection Hget as <-. keeps_block.
Qed.

Lemma gracefulShutdown_keeps signal consulFails dbCloseFails fault :
  keeps reconnectInvariant (gracefulShutdown signal consulFails dbCloseFails fault).
Proof.
  unfold gracefulShutdown, set_consuming, set_connected, process_exit. keeps_block.
Qed.

Lemma startConsumer_keeps s : keeps reconnectInvariant (startConsumer s).
Proof.
  unfold startConsumer, isDaprAvailable, startExpressServer, set_consuming, set_connected,
    process_exit.
  keeps_block.
Qed.

Lemma with_listening_keeps f w : reconnectInvariant w → reconnectInvariant (with_listening f w).
Proof. by apply reconnectInvariant_frame. Qed.

Lemma serverListens_keeps registerFails consulFails dbCloseFails fault w :
  reconnectInvariant w →
  reconnectInvariant (serverListens registerFails consulFails dbCloseFails fault w).
Proof.
  intros Hinv. unfold serverListens. destruct (listening w) as [|PORT rest]; [exact Hinv|].
  assert (Hcallback : keeps reconnectInvariant (onListening PORT registerFails))
    by (unfold onListening; keeps_block).
  assert (Hhandler : keeps reconnectInvariant
                       (onUnhandledRejection consulFails dbCloseFails fault)).
  { unfold onUnhandledRejection. apply keeps_bind; [apply logger_keeps|].
    intros _. apply gracefulShutdown_keeps. }
  specialize (Hcallback _ (with_listening_keeps (λ _, rest) w Hinv)).
  destruct (onListening PORT registerFails (with_listening (λ _, rest) w)) as [[[]|e] w'];
    [exact Hcallback | by apply Hhandler].
Qed.

Lemma serverFails_keeps consulFails dbCloseFails fault w :
  reconnectInvariant w → reconnectInvariant (serverFails consulFails dbCloseFails fault w).
Proof.
  intros Hinv. unfold serverFails. destruct (listening w) as [|PORT rest]; [exact Hinv|].
  unfold onUncaughtException.
  apply (keeps_bind reconnectInvariant); [apply logger_keeps| |by apply with_listening_keeps].
  intros _. apply gracefulShutdown_keeps.
Qed.

Lemma route_is_registered path handler :
  route path = Some handler → (path, handler) ∈ eventRoutes.
Proof.
  unfold route. destruct (list_find _ eventRoutes) as [[i [p h]]|] eqn:Hfind; [|discriminate].
  intros [= <-]. apply list_find_Some in Hfind as (Hi & Hp & _). simpl in Hp. subst p.
  apply list_elem_of_lookup. eauto.
Qed.

Lemma step_invariant w ev : reconnectInvariant w → reconnectInvariant (step w ev).
Proof.
  intros Hinv. unfold step. destruct (exitCode w) as [code|]; [exact Hinv|].
  destruct ev as [s|broker|i broker|c|c|delivery|path req|fault
                 |registerFails consulFails dbCloseFails fault
                 |consulFails dbCloseFails fault
                 |signal consulFails dbCloseFails fault].
  - by apply startConsumer_keeps.
  - by apply start_keeps.
  - destruct (timers w !! i) as [d|] eqn:Hi; [|exact Hinv].
    apply reconnectCallback_keeps.
    destruct Hinv as (Hrange & Hsched & Hsub). unfold reconnectInvariant. simpl.
    split; [exact Hrange|]. split; [exact Hsched|].
    etrans; [apply sublist_delete | exact Hsub].
  - case_bool_decide; [|exact Hinv]. by apply onConnectionClose_keeps.
  - case_bool_decide; [|exact Hinv]. by apply logger_keeps.
  - by apply onMessage_keeps.
  - destruct (route path) as [handler|] eqn:Hroute; [|exact Hinv].
    apply route_is_registered in Hroute.
    pose proof (proj1 (Forall_forall _ _) eventRoutes_are_wrapped _ Hroute) as (n & f & Heq).
    simpl in Heq. subst handler. by apply handleEvent_keeps.
  - by apply stop_keeps.
  - by apply serverListens_keeps.
  - by apply serverFails_keeps.
  - by apply gracefulShutdown_keeps.
Qed.

(** X6. Whatever happens to the service after it was loaded, in whatever
    order (starts, stops, deliveries, requests, connection losses and
    errors, timers that expire on a broker that is up or down, servers
    that come up or fail to, signals), the reconnect
    counter stays between 0 and 10, every delay passed to [setTimeout] is
    5000 * 2^k milliseconds with k from 0 to 9, hence between 5 seconds
    and 2,560 seconds, and every armed timer is one of those. *)
Theorem reconnect_counter_and_delays_stay_bounded events now :
  let w := run events (boot now) in
  0 ≤ reconnectAttempts (consumer w) ≤ 10
  ∧ (∀ d, d ∈ scheduled w →
       (∃ k, 0 ≤ k ≤ 9 ∧ d = 5000 * 2 ^ k) ∧ 5000 ≤ d ≤ 2560000)
  ∧ sublist (timers w) (scheduled w).
Proof.
  assert (Hrun : ∀ evs w0, reconnectInvariant w0 → reconnectInvariant (run evs w0)).
  { induction evs as [|ev evs IH]; intros w0 Hinv; [exact Hinv|].
    apply IH, step_invariant, Hinv. }
  destruct (Hrun events (boot now)) as (Hrange & Hsched & Hsub).
  { unfold reconnectInvariant, maxReconnectAttempts. simpl.
    split; [lia|]. split; [constructor | reflexivity]. }
  cbv zeta. split; [exact Hrange|]. split; [|exact Hsub].
  intros d Hd. destruct (proj1 (Forall_forall _ _) Hsched d Hd) as (k & Hk & ->).
  unfold maxReconnectAttempts, reconnectDelay in *. split.
  - exists k. split; [lia | reflexivity].
  - assert (2 ^ 0 ≤ 2 ^ k) by (apply Z.pow_le_mono_r; lia).
    assert (2 ^ k ≤ 2 ^ 9) by (apply Z.pow_le_mono_r; lia).
    change (2 ^ 0) with 1 in *. change (2 ^ 9) with 512 in *. lia.
Qed.

(** ** The two dispatch tables *)

Lemma TOPIC_HANDLERS_are_routed :
  Forall (λ entry, ∃ path handler logFunction,
            (path, handler) ∈ eventRoutes
            ∧ handler = handleEvent entry.1 logFunction
            ∧ entry.2 = via handler)
         TOPIC_HANDLERS_literal.
Proof.
  unfold TOPIC_HANDLERS_literal.
  repeat match goal with |- Forall _ ((_, via ?h) :: _) =>
    apply List.Forall_cons;
      [eexists _; exists h; eexists _; split;
       [unfold eventRoutes;
        repeat first [apply list_elem_of_here | apply list_elem_of_further]
       |split; reflexivity]|] end.
  apply List.Forall_nil.
Qed.

(** X7. Every topic of the pull-mode table is served by a handler that is
    also registered on a push-mode route, and that handler is the wrapper
    named after the topic, so that its error entry names the routing key. *)
Theorem pull_topics_share_the_push_handlers routingKey handler :
  TOPIC_HANDLERS !! routingKey = Some handler →
  ∃ path route_handler logFunction,
    (path, route_handler) ∈ eventRoutes
    ∧ route_handler = handleEvent routingKey logFunction
    ∧ handler = via route_handler.
Proof.
  intros Hlook. apply elem_of_list_to_map_2 in Hlook.
  exact (proj1 (Forall_forall _ _) TOPIC_HANDLERS_are_routed _ Hlook).
Qed.

Lemma pull_topics_share_the_push_handlers_witness :
  ∃ path route_handler logFunction,
    (path, route_handler) ∈ eventRoutes
    ∧ route_handler = handleEvent "payment.failed" logFunction
    ∧ via handlePaymentFailed = via route_handler.
Proof.
  apply (pull_topics_share_the_push_handlers "payment.failed" (via handlePaymentFailed)).
  vm_compute. reflexivity.
Defined.

(** The handlers of four routes are different from every handler of
    the pull-mode table: on the event [{}] they write another entry. *)
Lemma TOPIC_HANDLERS_lack_four :
  Forall (λ entry, entry.2 ≠ via handleOrderConfirmed ∧ entry.2 ≠ via handleOrderShipped
                   ∧ entry.2 ≠ via handleOrderCompleted ∧ entry.2 ≠ via handleOrderRefunded)
         TOPIC_HANDLERS_literal.
Proof.
  unfold TOPIC_HANDLERS_literal.
  repeat (apply List.Forall_cons;
    [repeat split; intros Heq;
     apply (f_equal (λ h : Handler, logs (h (JObj []) (boot 0)).2)) in Heq;
     vm_compute in Heq; discriminate Heq|]).
  apply List.Forall_nil.
Qed.

Lemma eventRoutes_topics :
  Forall (λ route,
            if bool_decide (route.1 ∈ ["/events/order/confirmed"; "/events/order/shipped";
                                       "/events/order/completed"; "/events/order/refunded"])
            then route.2 ∈ [handleOrderConfirmed; handleOrderShipped;
                            handleOrderCompleted; handleOrderRefunded]
            else ∃ routingKey, TOPIC_HANDLERS !! routingKey = Some (via route.2))
         eventRoutes.
Proof.
  unfold eventRoutes.
  repeat match goal with |- Forall _ ((?p, ?h) :: _) =>
    apply List.Forall_cons;
      [cbn [fst snd];
       match goal with |- if ?c then _ else _ =>
         let b := eval vm_compute in c in change c with b end;
       cbv iota;
       lazymatch goal with
       | |- _ ∈ _ => repeat first [apply list_elem_of_here | apply list_elem_of_further]
       | |- ∃ _, _ =>
           let t := eval red in h in
           match t with handleEvent ?n _ => exists n; vm_compute; reflexivity end
       end|] end.
  apply List.Forall_nil.
Qed.

(** X8. The converse fails for four routes. The handler of every push-mode
    route serves a topic of the pull-mode table, except the handlers of
    order/confirmed, order/shipped, order/completed and order/refunded,
    which serve none: the entries these four write (ORDER_CONFIRMED, ...)
    are written in push mode only. *)
Theorem four_order_routes_have_no_pull_topic path handler :
  (path, handler) ∈ eventRoutes →
  if bool_decide (path ∈ ["/events/order/confirmed"; "/events/order/shipped";
                          "/events/order/completed"; "/events/order/refunded"])
  then ∀ routingKey topic_handler,
         TOPIC_HANDLERS !! routingKey = Some topic_handler → topic_handler ≠ via handler
  else ∃ routingKey, TOPIC_HANDLERS !! routingKey = Some (via handler).
Proof.
  intros Hin.
  pose proof (proj1 (Forall_forall _ _) eventRoutes_topics _ Hin) as Hroute.
  cbn [fst snd] in Hroute. case_bool_decide; [|exact Hroute].
  intros k h Hlook. apply elem_of_list_to_map_2 in Hlook.
  pose proof (proj1 (Forall_forall _ _) TOPIC_HANDLERS_lack_four _ Hlook) as Hlack.
  cbn [snd] in Hlack. destruct Hlack as (H1 & H2 & H3 & H4).
  apply elem_of_cons in Hroute as [Heq|Hroute]; [by rewrite Heq|].
  apply elem_of_cons in Hroute as [Heq|Hroute]; [by rewrite Heq|].
  apply elem_of_cons in Hroute as [Heq|Hroute]; [by rewrite Heq|].
  apply list_elem_of_singleton in Hroute. by rewrite Hroute.
Qed.

Lemma four_order_routes_have_no_pull_topic_witness :
  ∃ routingKey, TOPIC_HANDLERS !! routingKey = Some (via handleOrderCancelled).
Proof.
  apply (four_order_routes_have_no_pull_topic "/events/order/cancelled" handleOrderCancelled).
  unfold eventRoutes. do 16 apply list_elem_of_further. apply list_elem_of_here.
Defined.

(** ** The migration runner: clients, transactions, partial runs *)

Section RunnerInvariants.
Context {Tables : Type} `{!Platform Tables}.
Implicit Types (e : Env Tables) (d : Database Tables) (m : Migration)
  (dir : gmap string (option string)).

Lemma logger__keeps_settled n l msg : keeps (settled Tables n) (logger_ l msg).
Proof. by apply keeps_modify. Qed.

Lemma ensureMigrationHistoryTable_keeps_settled n :
  keeps (settled Tables n) ensureMigrationHistoryTable.
Proof.
  intros e He. rewrite ensureMigrationHistoryTable_creates.
  destruct (reachable (db e)); exact He.
Qed.

Lemma getAvailableMigrations_keeps_settled n : keeps (settled Tables n) getAvailableMigrations.
Proof.
  intros e He. rewrite getAvailableMigrations_lists.
  destruct (migrationsDir e) as [dir|]; [destruct (migrationsOnDisk dir)|]; exact He.
Qed.

Lemma getExecutedMigrations_keeps_settled n : keeps (settled Tables n) getExecutedMigrations.
Proof.
  intros e He. rewrite getExecutedMigrations_selects.
  destruct (reachable (db e)); exact He.
Qed.

(** However [executeMigration] ends, its client is released and its
    transaction is closed, and when it throws the database is as before. *)
Lemma executeMigration_ends m e :
  let r := executeMigration m e in
  checkedOut r.2 = checkedOut e
  ∧ snapshot r.2 = (if reachable (db e) then None else snapshot e)
  ∧ migrationsDir r.2 = migrationsDir e
  ∧ (∀ err, r.1 = Throw err → db r.2 = db e).
Proof.
  unfold executeMigration, pool_connect, now, try_finally, try_catch, bind,
    BEGIN, COMMIT, ROLLBACK, query_body, insert_history, logger_, modify, throw, ret, now.
  unfold bind, now.
  destruct (reachable (db e)) eqn:Hreach; simpl; [|auto].
  destruct (run_sql (content m) (db e)) as [d [err|]] eqn:Hrun; simpl; [auto|].
  destruct (migration_history d) as [rows|] eqn:Hrows; simpl; [|auto].
  case_bool_decide as Hdup; simpl; [auto|].
  repeat split. intros err [=].
Qed.

Lemma executeMigration_keeps_settled n m : keeps (settled Tables n) (executeMigration m).
Proof.
  intros e [Hn Hs]. destruct (executeMigration_ends m e) as (Hc & Hsnap & _).
  split; [by rewrite Hc|]. rewrite Hsnap. by destruct (reachable (db e)).
Qed.

Lemma validateEach_keeps_settled n available executed :
  keeps (settled Tables n) (validateEach available executed).
Proof.
  intros e He.
  destruct (validateEach_reports available executed e) as (valid & entries & -> & _).
  exact He.
Qed.

Create HintDb settled discriminated.
#[local] Hint Resolve keeps_ret keeps_throw keeps_for_of
  logger__keeps_settled ensureMigrationHistoryTable_keeps_settled
  getAvailableMigrations_keeps_settled getExecutedMigrations_keeps_settled
  executeMigration_keeps_settled validateEach_keeps_settled : settled.

Local Ltac settled_block :=
  repeat first
    [ solve [auto with settled]
    | apply keeps_bind; [|intros ?]
    | apply keeps_try_catch; [|intros ?]
    | match goal with |- keeps _ (if ?b then _ else _) => destruct b end ].

Lemma runMigrations_keeps_settled n : keeps (settled Tables n) runMigrations.
Proof. unfold runMigrations. settled_block. Qed.

Lemma validateMigrations_keeps_settled n : keeps (settled Tables n) validateMigrations.
Proof. unfold validateMigrations. settled_block. Qed.

#[local] Hint Resolve runMigrations_keeps_settled validateMigrations_keeps_settled : settled.

Lemma initializeDatabase_keeps_settled n connectionOk :
  keeps (settled Tables n) (initializeDatabase connectionOk).
Proof. unfold initializeDatabase. settled_block. Qed.

(** X9. Every client taken from the pool is given back, and no transaction
    stays open: after [runMigrations], [validateMigrations] and
    [initializeDatabase], whether they return or throw and wherever they
    fail, as many clients are checked out as before and the connection is
    outside a transaction. *)
Theorem runner_releases_clients_and_closes_transactions connectionOk e :
  snapshot e = None →
  (checkedOut (runMigrations e).2 = checkedOut e ∧ snapshot (runMigrations e).2 = None)
  ∧ (checkedOut (validateMigrations e).2 = checkedOut e
     ∧ snapshot (validateMigrations e).2 = None)
  ∧ (checkedOut (initializeDatabase connectionOk e).2 = checkedOut e
     ∧ snapshot (initializeDatabase connectionOk e).2 = None).
Proof.
  intros Hs. assert (He : settled Tables (checkedOut e) e) by done.
  split; [exact (runMigrations_keeps_settled _ e He)|].
  split; [exact (validateMigrations_keeps_settled _ e He)|].
  exact (initializeDatabase_keeps_settled _ connectionOk e He).
Qed.

End RunnerInvariants.

(** The third migration of the directory fails: initialisation throws,
    and no client and no transaction is left behind. *)
Lemma runner_releases_clients_and_closes_transactions_witness :
  (initializeDatabase true (sample_env broken_dir)).1 = Throw (Error "syntax error")
  ∧ checkedOut (initializeDatabase true (sample_env broken_dir)).2 = 0%nat
  ∧ snapshot (initializeDatabase true (sample_env broken_dir)).2 = None.
Proof.
  split; [vm_compute; reflexivity|].
  exact (proj2 (proj2 (runner_releases_clients_and_closes_transactions
                         true (sample_env broken_dir) eq_refl))).
Defined.

Section PartialRuns.
Context {Tables : Type} `{!Platform Tables}.
Implicit Types (e : Env Tables) (d : Database Tables) (m : Migration)
  (dir : gmap string (option string)).

(** The loop of [runMigrations], however it ends: the records added
    are those of the migrations that went through, a prefix of the list;
    the loop returns exactly when that prefix is the whole list. *)
Lemma migrations_loop_prefix ms : ∀ e rows,
  (∀ sql d d', run_sql sql d = (d', None) →
               migration_history d' = migration_history d ∧ reachable d' = reachable d) →
  migration_history (db e) = Some rows →
  let r := for_of ms executeMigration e in
  ∃ new,
    migration_history (db r.2) = Some (rows ++ new)
    ∧ migration_name <$> new `prefix_of` name <$> ms
    ∧ (r.1 = Ok tt ↔ length new = length ms).
Proof.
  induction ms as [|m ms IH]; intros e rows Hbody Hrows; cbv zeta.
  - exists []. rewrite app_nil_r. simpl. done.
  - cbn [for_of]. unfold bind.
    destruct (executeMigration m e) as [[[]|err] e1] eqn:Hm.
    + destruct (executeMigration_succeeded m e e1 Hm)
        as (d & rows' & _ & Hsql & Hrows' & _ & Hdb & _).
      destruct (Hbody _ _ _ Hsql) as [Hsame _].
      rewrite Hsame, Hrows in Hrows'. injection Hrows' as <-.
      destruct (IH e1 _ Hbody ltac:(by rewrite Hdb)) as (new & Hhist & Hpre & Hall).
      eexists (_ :: new). rewrite Hhist, <- app_assoc. split; [reflexivity|].
      split; [by apply prefix_cons|]. rewrite Hall. simpl. lia.
    + pose proof (executeMigration_ends m e) as (_ & _ & _ & Hback).
      rewrite Hm in Hback. cbn [fst snd] in *. rewrite (Hback err eq_refl).
      exists []. rewrite app_nil_r. split; [done|]. split; [apply prefix_nil|].
      simpl. split; [discriminate | lia].
Qed.

(** X10. A run of [runMigrations] that starts with the database reachable
    and the directory readable applies a prefix of the pending
    migrations, in their order, and nothing else: the history is the old
    one followed by the records of that prefix. The run returns when the
    prefix is everything that was pending and throws otherwise, so a
    failure never leaves a later migration recorded with an earlier one
    missing. Migration bodies are taken not to write to the history table
    themselves. *)
Theorem runMigrations_applies_a_prefix e dir available :
  (∀ sql d d', run_sql sql d = (d', None) →
               migration_history d' = migration_history d ∧ reachable d' = reachable d) →
  reachable (db e) = true →
  migrationsDir e = Some dir →
  migrationsOnDisk dir = Some available →
  let pending := filter (λ m, name m ∉ migration_name <$> historyRows (db e)) available in
  let r := runMigrations e in
  ∃ new,
    migration_history (db r.2) = Some (historyRows (db e) ++ new)
    ∧ migration_name <$> new `prefix_of` name <$> pending
    ∧ (r.1 = Ok tt ↔ length new = length pending).
Proof.
  intros Hbody Hreach Hdir Hdisk. cbv zeta.
  unfold runMigrations, try_catch, bind, logger_, modify.
  rewrite ensureMigrationHistoryTable_creates. cbn [db with_log reachable].
  rewrite Hreach. cbv beta iota zeta.
  rewrite getAvailableMigrations_lists.
  cbn [migrationsDir with_checkedOut with_log with_db]. rewrite Hdir, Hdisk.
  cbv beta iota zeta.
  rewrite getExecutedMigrations_selects.
  cbn [db with_checkedOut with_log with_db reachable]. rewrite Hreach.
  cbv beta iota zeta.
  cbn [historyRows migration_history default]. fold (historyRows (db e)).
  unfold Datatypes.id. rewrite pending_filter.
  set (pending := filter (λ m, name m ∉ migration_name <$> historyRows (db e)) available).
  case_bool_decide as Hlen.
  - exists []. rewrite app_nil_r, Hlen. cbn. split; [reflexivity|].
    split; [apply prefix_nil | done].
  - match goal with |- context [for_of pending executeMigration ?x] =>
      destruct (migrations_loop_prefix pending x (historyRows (db e)) Hbody eq_refl)
        as (new & Hhist & Hpre & Hall);
      destruct (for_of pending executeMigration x) as [[[]|err] e'] end;
      cbn [fst snd] in *; exists new; unfold throw; cbn [fst snd db with_log];
      (split; [exact Hhist|]); (split; [exact Hpre|]); rewrite <- Hall; split; congruence.
Qed.

(** X11. One unreadable [.sql] file and no migration runs at all, not even
    the readable ones sorted before it: [runMigrations] throws the read
    error after creating the history table, and the tables and the
    history rows are as before. *)
Theorem unreadable_file_aborts_before_any_migration e dir file :
  reachable (db e) = true →
  migrationsDir e = Some dir →
  endsWith file ".sql" = true →
  dir !! file = Some None →
  ∃ e', runMigrations e = (Throw (Error "readFile failed"), e')
        ∧ tables (db e') = tables (db e)
        ∧ migration_history (db e') = Some (historyRows (db e))
        ∧ clockReads e' = clockReads e.
Proof.
  intros Hreach Hdir Hsql Hfile.
  assert (Hdisk : migrationsOnDisk dir = None).
  { apply mapM_None, Exists_exists. exists file. split.
    - apply elem_of_sqlFiles. split; [by eexists | exact Hsql].
    - unfold loadMigration. by rewrite Hfile. }
  unfold runMigrations, try_catch, bind, logger_, modify.
  rewrite ensureMigrationHistoryTable_creates. cbn [db with_log reachable].
  rewrite Hreach. cbv beta iota zeta.
  rewrite getAvailableMigrations_lists.
  cbn [migrationsDir with_checkedOut with_log with_db]. rewrite Hdir, Hdisk.
  eexists. split; [reflexivity|]. simpl. auto.
Qed.

(** What [validateMigrations] meets it catches. *)
Lemma validateMigrations_returns e : ∃ valid e', validateMigrations e = (Ok valid, e').
Proof.
  unfold validateMigrations, try_catch. unfold bind at 1.
  rewrite getAvailableMigrations_lists.
  destruct (migrationsDir e) as [dir|]; [|by eexists _, _].
  destruct (migrationsOnDisk dir) as [available|]; [|by eexists _, _].
  unfold bind. rewrite getExecutedMigrations_selects.
  destruct (reachable (db e)); [|by eexists _, _].
  match goal with |- context [validateEach ?a ?x ?e0] =>
    destruct (validateEach_reports a x e0) as (valid & entries & -> & _) end.
  by eexists _, _.
Qed.

(** X12. [initializeDatabase] succeeds exactly when the connection test and
    [runMigrations] do, and throws what they throw: the outcome of
    [validateMigrations] decides nothing, a checksum mismatch only adds a
    warning before the entry that reports success. *)
Theorem initializeDatabase_outcome connectionOk e :
  let e0 := with_log (λ ls, ls ++ [mkLog lvl_info "Initializing database..."]) e in
  let r := initializeDatabase connectionOk e in
  r.1 = (if connectionOk then (runMigrations e0).1
         else Throw (Error "Database connection test failed"))
  ∧ last (log r.2) =
      Some (if is_ok r.1
            then mkLog lvl_info "Database initialization completed successfully"
            else mkLog lvl_error "Database initialization failed")
  ∧ (r.1 = Ok tt →
     ∃ valid e1 e2,
       runMigrations e0 = (Ok tt, e1)
       ∧ validateMigrations e1 = (Ok valid, e2)
       ∧ log r.2 = log e2 ++
           (if valid then [] else [mkLog lvl_warn "Migration validation warnings detected"])
           ++ [mkLog lvl_info "Database initialization completed successfully"]).
Proof.
  cbv zeta. remember (initializeDatabase connectionOk e) as r eqn:Hr.
  unfold initializeDatabase, try_catch in Hr.
  unfold bind at 1, logger_ at 1, modify at 1 in Hr. unfold bind at 1 in Hr.
  destruct connectionOk.
  2:{ subst r. cbn -[last]. split; [reflexivity|]. split; [apply last_snoc | discriminate]. }
  unfold ret at 1 in Hr. unfold bind at 1 in Hr.
  destruct (runMigrations _) as [[[]|err] e1].
  2:{ subst r. cbn -[last]. split; [reflexivity|]. split; [apply last_snoc | discriminate]. }
  unfold bind at 1 in Hr.
  destruct (validateMigrations_returns e1) as (valid & e2 & Hvalid). rewrite Hvalid in Hr.
  destruct valid; subst r; cbn -[last].
  - split; [reflexivity|]. split; [apply last_snoc|]. intros _. by eexists true, e1, e2.
  - split; [reflexivity|]. split; [apply last_snoc|]. intros _. eexists false, e1, e2.
    by rewrite <- app_assoc.
Qed.

End PartialRuns.

(** The third migration of the directory fails: the first two are
    recorded, in order, and the run throws. *)
Lemma runMigrations_applies_a_prefix_witness :
  ∃ new,
    migration_history (db (runMigrations (sample_env broken_dir)).2) = Some new
    ∧ migration_name <$> new `prefix_of` ["001_init"; "002_indexes"; "003_broken"]
    ∧ length new ≠ 3%nat.
Proof.
  edestruct (runMigrations_applies_a_prefix (sample_env broken_dir) broken_dir)
    as (new & Hhist & Hpre & Hall).
  - exact sample_bodies_keep_history.
  - reflexivity.
  - reflexivity.
  - vm_compute. reflexivity.
  - exists new. split; [exact Hhist|]. split; [exact Hpre|].
    intros Hlen. apply Hall in Hlen. vm_compute in Hlen. discriminate Hlen.
Defined.

(** The second file of the directory cannot be read, the first can:
    nothing runs. *)
Lemma unreadable_file_aborts_before_any_migration_witness :
  let dir := <[ "002_indexes.sql" := None ]> sample_dir in
  ∃ e', runMigrations (sample_env dir) = (Throw (Error "readFile failed"), e')
        ∧ tables (db e') = [].
Proof.
  intros dir.
  destruct (unreadable_file_aborts_before_any_migration (sample_env dir) dir "002_indexes.sql")
    as (e' & Hrun & Htables & _).
  - reflexivity.
  - reflexivity.
  - vm_compute. reflexivity.
  - vm_compute. reflexivity.
  - exists e'. split; [exact Hrun | exact Htables].
Defined.

(** ** The migration runner: what the listing depends on, when a run succeeds *)

Section Listing.
Context {Tables : Type} `{!Platform Tables}.
Implicit Types (e : Env Tables) (d : Database Tables) (m : Migration)
  (dir : gmap string (option string)).

Lemma sqlFiles_NoDup dir : NoDup (sqlFiles dir).
Proof.
  unfold sqlFiles. rewrite merge_sort_Permutation.
  apply NoDup_filter, NoDup_fst_map_to_list.
Qed.

Lemma basename_sql_inj file1 file2 :
  endsWith file1 ".sql" = true → endsWith file2 ".sql" = true →
  basename file1 ".sql" = basename file2 ".sql" → file1 = file2.
Proof.
  intros H1 H2 Heq.
  rewrite (endsWith_basename file1 ".sql" H1), (endsWith_basename file2 ".sql" H2).
  by rewrite Heq.
Qed.

Lemma migrationsOnDisk_names dir available :
  migrationsOnDisk dir = Some available →
  name <$> available = (λ file, basename file ".sql") <$> sqlFiles dir.
Proof.
  intros Hdisk. pose proof (proj1 (mapM_Some _ _ _) Hdisk) as Hload. clear -Hload.
  induction Hload as [|file m files ms Hm _ IH]; [done|]. cbn [fmap list_fmap].
  f_equal; [|exact IH]. unfold loadMigration in Hm.
  destruct (dir !! file) as [[text|]|]; try discriminate. by injection Hm as <-.
Qed.

(** No two migrations of a listing have the same name. *)
Lemma migrationsOnDisk_NoDup dir available :
  migrationsOnDisk dir = Some available → NoDup (name <$> available).
Proof.
  intros Hdisk. rewrite (migrationsOnDisk_names dir available Hdisk).
  apply NoDup_fmap_2_strong; [|apply sqlFiles_NoDup].
  intros file1 file2 [_ H1]%elem_of_sqlFiles [_ H2]%elem_of_sqlFiles.
  by apply basename_sql_inj.
Qed.

(** X13. The listing is a function of the [.sql] entries of the directory:
    two directories that agree on every name ending in [.sql] give the
    same migrations, in the same order. Entries with other names, added,
    changed or removed, are not looked at. *)
Theorem listing_depends_on_sql_entries_only e e' dir dir' :
  migrationsDir e = Some dir →
  migrationsDir e' = Some dir' →
  (∀ file, endsWith file ".sql" = true → dir !! file = dir' !! file) →
  migrationsOnDisk dir = migrationsOnDisk dir'
  ∧ (getAvailableMigrations e).1 = (getAvailableMigrations e').1.
Proof.
  intros Hdir Hdir' Hagree.
  assert (Hfiles : sqlFiles dir = sqlFiles dir').
  { apply (Sorted_unique String.le); [apply sqlFiles_sorted | apply sqlFiles_sorted |].
    apply NoDup_Permutation; [apply sqlFiles_NoDup | apply sqlFiles_NoDup |].
    intros file. rewrite !elem_of_sqlFiles. split; intros [Hin Hsql]; (split; [|done]).
    - by rewrite <- (Hagree file Hsql).
    - by rewrite (Hagree file Hsql). }
  assert (Hdisk : migrationsOnDisk dir = migrationsOnDisk dir').
  { unfold migrationsOnDisk. rewrite <- Hfiles.
    assert (Hall : Forall (λ file, loadMigration dir file = loadMigration dir' file)
                          (sqlFiles dir)).
    { apply Forall_forall. intros file [_ Hsql]%elem_of_sqlFiles.
      unfold loadMigration. by rewrite (Hagree file Hsql). }
    clear Hfiles. induction Hall as [|file files Hload _ IH]; [done|].
    change (mapM ?f (file :: files)) with (y ← f file; k ← mapM f files; mret (y :: k)).
    by rewrite IH, Hload. }
  split; [exact Hdisk|].
  rewrite !getAvailableMigrations_lists, Hdir, Hdir', Hdisk.
  by destruct (migrationsOnDisk dir').
Qed.

Lemma executeMigration_goes_through m e d rows :
  reachable (db e) = true →
  run_sql (content m) (db e) = (d, None) →
  migration_history d = Some rows →
  (name m ∉ migration_name <$> rows) →
  ∃ e' record,
    executeMigration m e = (Ok tt, e')
    ∧ migration_name record = name m
    ∧ db e' = mkDatabase (reachable d) (tables d) (Some (rows ++ [record]))
                         (migration_history_id_seq d + 1).
Proof.
  intros Hreach Hsql Hrows Hfresh.
  unfold executeMigration, pool_connect, now, try_finally, try_catch, bind,
    BEGIN, COMMIT, ROLLBACK, query_body, insert_history, logger_, modify, throw, ret, now.
  unfold bind, now. rewrite Hreach. simpl. rewrite Hsql. simpl. rewrite Hrows. simpl.
  rewrite bool_decide_eq_false_2 by done. simpl.
  eexists _, _. split; [reflexivity|]. split; [|reflexivity]. reflexivity.
Qed.

(** The loop of [runMigrations] goes through when the bodies do: the
    names are new to the history and differ from each other, so that no
    insertion into the history is refused. *)
Lemma migrations_loop_goes_through ms : ∀ e rows,
  NoDup (name <$> ms) →
  (∀ m, m ∈ ms → name m ∉ migration_name <$> rows) →
  reachable (db e) = true →
  migration_history (db e) = Some rows →
  (∀ m d, m ∈ ms →
     ∃ d', run_sql (content m) d = (d', None)
           ∧ migration_history d' = migration_history d ∧ reachable d' = reachable d) →
  ∃ e' new,
    for_of ms executeMigration e = (Ok tt, e')
    ∧ migration_history (db e') = Some (rows ++ new)
    ∧ migration_name <$> new = name <$> ms.
Proof.
  induction ms as [|m ms IH]; intros e rows Hnodup Hfresh Hreach Hrows Hbodies.
  - exists e, []. rewrite app_nil_r. done.
  - apply NoDup_cons in Hnodup as [Hm Hnodup].
    destruct (Hbodies m (db e) (list_elem_of_here _ _)) as (d & Hsql & Hhist & Hreach').
    destruct (executeMigration_goes_through m e d rows Hreach Hsql)
      as (e1 & record & Hrun & Hname & Hdb).
    { by rewrite Hhist. }
    { apply Hfresh, list_elem_of_here. }
    destruct (IH e1 (rows ++ [record])) as (e' & new & Hloop & Hhist' & Hnames).
    + exact Hnodup.
    + intros m' Hin. rewrite fmap_app, elem_of_app. intros [Hold|Hnew].
      * by apply (Hfresh m' (list_elem_of_further _ _ _ Hin)).
      * apply list_elem_of_singleton in Hnew. rewrite Hname in Hnew.
        apply Hm. rewrite <- Hnew. apply list_elem_of_fmap. by exists m'.
    + rewrite Hdb. simpl. by rewrite Hreach'.
    + by rewrite Hdb.
    + intros m' d' Hin. apply Hbodies. by apply list_elem_of_further.
    + exists e', (record :: new). cbn [for_of]. unfold bind. rewrite Hrun, Hloop.
      split; [reflexivity|]. rewrite Hhist', <- app_assoc. split; [reflexivity|].
      cbn [fmap list_fmap]. by rewrite Hname, Hnames.
Qed.


End Listing.


(** A note is added to the sample directory and its README removed. *)
Lemma listing_depends_on_sql_entries_only_witness :
  let dir' := <[ "NOTES.txt" := Some "todo" ]> (delete "README.md" sample_dir) in
  (getAvailableMigrations (sample_env sample_dir)).1
  = (getAvailableMigrations (sample_env dir')).1.
Proof.
  intros dir'.
  apply (listing_depends_on_sql_entries_only
           (sample_env sample_dir) (sample_env dir') sample_dir dir' eq_refl eq_refl).
  intros file Hsql. subst dir'.
  destruct (decide (file = "NOTES.txt")) as [->|Hnotes]; [vm_compute in Hsql; discriminate|].
  destruct (decide (file = "README.md")) as [->|Hreadme]; [vm_compute in Hsql; discriminate|].
  rewrite lookup_insert_ne by done. by rewrite lookup_delete_ne.
Defined.

(** The first file of the sample directory was edited after it ran
    and the second was removed: nothing is pending, validation reports a
    mismatch, and initialisation succeeds all the same. *)
Lemma initializeDatabase_outcome_witness :
  (initializeDatabase true tampered_env).1 = Ok tt
  ∧ ∃ valid (e2 : Env (list string)),
      log (initializeDatabase true tampered_env).2 = log e2 ++
        (if valid : bool then [] else [mkLog lvl_warn "Migration validation warnings detected"])
        ++ [mkLog lvl_info "Database initialization completed successfully"].
Proof.
  destruct (initializeDatabase_outcome true tampered_env) as (Hr & _ & Hok).
  assert (Hrun : (initializeDatabase true tampered_env).1 = Ok tt)
    by (rewrite Hr; vm_compute; reflexivity).
  split; [exact Hrun|].
  destruct (Hok Hrun) as (valid & e1 & e2 & _ & _ & Hlog). by exists valid, e2.
Defined.

(** ** Configuration: the validator *)

Section Validator.
Implicit Types (h : Host) (rule : ValidationRule) (entries : list (string * ValidationRule)).

Lemma defaultOf_cons_ne key' rule entries key :
  key' ≠ key → defaultOf ((key', rule) :: entries) key = defaultOf entries key.
Proof.
  intros Hne. unfold defaultOf. cbn [list_find]. rewrite decide_False by done.
  by destruct (list_find _ entries) as [[i [k r]]|].
Qed.

Lemma defaultOf_fresh entries key : key ∉ entries.*1 → defaultOf entries key = None.
Proof.
  intros Hfresh. unfold defaultOf.
  destruct (list_find _ entries) as [[i [k r]]|] eqn:Hfind; [|done].
  apply list_find_Some in Hfind as (Hi & Hk & _). simpl in Hk. subst k.
  destruct Hfresh. apply list_elem_of_fmap. exists (key, r). split; [done|].
  apply list_elem_of_lookup. eauto.
Qed.

Lemma complaints_insert_ne h key value entry :
  entry.1 ≠ key →
  complaints (mkHost (<[key := value]> (env h)) (console h)) entry = complaints h entry.
Proof.
  destruct entry as [k r]. simpl. intros Hne. by rewrite lookup_insert_ne.
Qed.

Lemma complaints_frame entries h key value c :
  key ∉ entries.*1 →
  complaints (mkHost (<[key := value]> (env h)) c) <$> entries = complaints h <$> entries.
Proof.
  induction entries as [|[k r] entries IH]; intros Hfresh; [done|].
  cbn [fmap list_fmap fst] in *. apply not_elem_of_cons in Hfresh as [Hne Hfresh].
  f_equal; [|by apply IH]. simpl. by rewrite lookup_insert_ne.
Qed.

(** What the loop of [validateConfig] does, for entries with different
    keys: it returns; it adds to [errors] as many lines as the entries
    have complaints against the environment; it changes the environment
    only where a variable was unset or empty and its entry has a default;
    and it adds nothing to [warnings] when no default applies. *)
Lemma validateEntries_runs entries : ∀ errors warnings h,
  NoDup entries.*1 →
  ∃ errors' warnings' env',
    validateEntries entries errors warnings h
      = (Ok (errors ++ errors', warnings ++ warnings'), mkHost env' (console h))
    ∧ length errors' = sum_list (complaints h <$> entries)
    ∧ (∀ key, env' !! key =
         if falsy (env h !! key)
         then (if defaultOf entries key is Some default then Some default else env h !! key)
         else env h !! key)
    ∧ ((∀ key, key ∈ entries.*1 → falsy (env h !! key) = true →
               defaultOf entries key = None) → warnings' = []).
Proof.
  induction entries as [|[key rule] entries IH]; intros errors warnings h Hnodup.
  - exists [], [], (env h). rewrite !app_nil_r. destruct h as [e c]. simpl.
    split; [reflexivity|]. split; [reflexivity|]. split; [|done].
    intros key. by destruct (falsy (e !! key)).
  - cbn [fmap list_fmap fst] in Hnodup. apply NoDup_cons in Hnodup as [Hfresh Hnodup].
    pose proof (defaultOf_fresh entries key Hfresh) as Hnone.
    (* the entries that follow, run from [h] itself *)
    assert (Hsame : ∀ errs (n : nat),
      length errs = n → complaints h (key, rule) = n →
      (falsy (env h !! key) = true → defaultOf ((key, rule) :: entries) key = None) →
      ∃ errors' warnings' env',
        validateEntries entries (errors ++ errs) warnings h
          = (Ok (errors ++ errors', warnings ++ warnings'), mkHost env' (console h))
        ∧ length errors' = sum_list (complaints h <$> (key, rule) :: entries)
        ∧ (∀ k, env' !! k =
             if falsy (env h !! k)
             then (if defaultOf ((key, rule) :: entries) k is Some default
                   then Some default else env h !! k)
             else env h !! k)
        ∧ ((∀ k, k ∈ ((key, rule) :: entries).*1 → falsy (env h !! k) = true →
                 defaultOf ((key, rule) :: entries) k = None) → warnings' = [])).
    { intros errs n Hlen Hcomplaints Hdefault.
      destruct (IH (errors ++ errs) warnings h Hnodup)
        as (errors' & warnings' & env' & Hrun & Hcount & Henv & Hwarn).
      exists (errs ++ errors'), warnings', env'. rewrite app_assoc. split; [exact Hrun|].
      split; [|split].
      - rewrite length_app, Hcount, fmap_cons, Hcomplaints, Hlen. reflexivity.
      - intros k. rewrite Henv. destruct (decide (k = key)) as [->|Hne].
        + rewrite Hnone. destruct (falsy (env h !! key)) eqn:Hfalsy; [|done].
          by rewrite Hdefault.
        + by rewrite defaultOf_cons_ne.
      - intros Hall. apply Hwarn. intros k Hin Hfalsy.
        destruct (decide (k = key)) as [->|Hne]; [done|].
        rewrite <- (defaultOf_cons_ne key rule entries k) by done.
        apply Hall; [|done]. cbn [fmap list_fmap fst]. by apply list_elem_of_further. }
    (* the entries that follow, run after the default of [key] was written *)
    assert (Hset : ∀ default warning,
      default ≠ "" → falsy (env h !! key) = true →
      required rule = false → default_ rule = Some default →
      ∃ errors' warnings' env',
        validateEntries entries errors (warnings ++ [warning])
            (mkHost (<[key := default]> (env h)) (console h))
          = (Ok (errors ++ errors', warnings ++ warnings'), mkHost env' (console h))
        ∧ length errors' = sum_list (complaints h <$> (key, rule) :: entries)
        ∧ (∀ k, env' !! k =
             if falsy (env h !! k)
             then (if defaultOf ((key, rule) :: entries) k is Some default
                   then Some default else env h !! k)
             else env h !! k)
        ∧ ((∀ k, k ∈ ((key, rule) :: entries).*1 → falsy (env h !! k) = true →
                 defaultOf ((key, rule) :: entries) k = None) → warnings' = [])).
    { intros default warning Hdefault Hfalsy Hreq Hrule.
      assert (Hkey : defaultOf ((key, rule) :: entries) key = Some default).
      { unfold defaultOf. cbn [list_find]. rewrite decide_True by done.
        simpl. rewrite Hreq, Hrule. by rewrite bool_decide_eq_false_2. }
      destruct (IH errors (warnings ++ [warning])
                   (mkHost (<[key := default]> (env h)) (console h)) Hnodup)
        as (errors' & warnings' & env' & Hrun & Hcount & Henv & _).
      exists errors', (warning :: warnings'), env'.
      rewrite <- app_assoc in Hrun. split; [exact Hrun|]. split; [|split].
      - rewrite Hcount, fmap_cons, (complaints_frame entries h key default _ Hfresh).
        assert (Hzero : complaints h (key, rule) = 0%nat).
        { simpl. rewrite Hreq. destruct (env h !! key) as [v|]; [|done].
          simpl in Hfalsy. by rewrite Hfalsy. }
        by rewrite Hzero.
      - intros k. rewrite Henv. cbn [env]. destruct (decide (k = key)) as [->|Hne].
        + rewrite lookup_insert_eq, Hfalsy, Hkey. cbn [falsy].
          by rewrite bool_decide_eq_false_2.
        + rewrite lookup_insert_ne by done. by rewrite defaultOf_cons_ne.
      - intros Hall. specialize (Hall key). rewrite Hkey in Hall.
        discriminate Hall; [|done]. cbn [fmap list_fmap fst]. apply list_elem_of_here. }
    cbn [validateEntries]. unfold bind at 1, getenv, gets. cbv beta iota.
    destruct (required rule) eqn:Hreq; destruct (env h !! key) as [value|] eqn:Hvalue;
      cbn [falsy andb negb].
    + (* required, set *)
      case_bool_decide as Hempty; cbn [andb negb].
      * subst value. apply (Hsame _ 1%nat); [done| |].
        -- simpl. by rewrite Hvalue, Hreq.
        -- intros _. unfold defaultOf. cbn [list_find]. rewrite decide_True by done.
           simpl. by rewrite Hreq.
      * destruct (validator rule value) eqn:Hvalid; cbn [negb].
        -- replace (validateEntries entries errors warnings h)
             with (validateEntries entries (errors ++ []) warnings h)
             by (by rewrite app_nil_r).
           apply (Hsame _ 0%nat); [done| |].
           ++ simpl. rewrite Hvalue, Hvalid. by rewrite bool_decide_eq_false_2.
           ++ simpl. by rewrite bool_decide_eq_false_2.
        -- apply (Hsame _ 2%nat); [done| |].
           ++ simpl. rewrite Hvalue, Hvalid. by rewrite bool_decide_eq_false_2.
           ++ simpl. by rewrite bool_decide_eq_false_2.
    + (* required, unset *)
      apply (Hsame _ 1%nat); [done| |].
      * simpl. by rewrite Hvalue, Hreq.
      * intros _. unfold defaultOf. cbn [list_find]. rewrite decide_True by done.
        simpl. by rewrite Hreq.
    + (* optional, set *)
      case_bool_decide as Hempty; cbn [andb negb].
      * subst value. destruct (default_ rule) as [default|] eqn:Hrule.
        -- case_bool_decide as Hdefault.
           ++ replace (validateEntries entries errors warnings h)
                with (validateEntries entries (errors ++ []) warnings h)
                by (by rewrite app_nil_r).
              apply (Hsame _ 0%nat); [done| |].
              ** simpl. by rewrite Hvalue, Hreq.
              ** intros _. unfold defaultOf. cbn [list_find]. rewrite decide_True by done.
                 simpl. rewrite Hreq, Hrule. by rewrite bool_decide_eq_true_2.
           ++ unfold bind, setenv, modify. by apply Hset.
        -- replace (validateEntries entries errors warnings h)
             with (validateEntries entries (errors ++ []) warnings h)
             by (by rewrite app_nil_r).
           apply (Hsame _ 0%nat); [done| |].
           ++ simpl. by rewrite Hvalue, Hreq.
           ++ intros _. unfold defaultOf. cbn [list_find]. rewrite decide_True by done.
              simpl. by rewrite Hreq, Hrule.
      * destruct (validator rule value) eqn:Hvalid; cbn [negb].
        -- replace (validateEntries entries errors warnings h)
             with (validateEntries entries (errors ++ []) warnings h)
             by (by rewrite app_nil_r).
           apply (Hsame _ 0%nat); [done| |].
           ++ simpl. rewrite Hvalue, Hvalid. by rewrite bool_decide_eq_false_2.
           ++ simpl. by rewrite bool_decide_eq_false_2.
        -- apply (Hsame _ 2%nat); [done| |].
           ++ simpl. rewrite Hvalue, Hvalid. by rewrite bool_decide_eq_false_2.
           ++ simpl. by rewrite bool_decide_eq_false_2.
    + (* optional, unset *)
      destruct (default_ rule) as [default|] eqn:Hrule.
      * case_bool_decide as Hdefault.
        -- replace (validateEntries entries errors warnings h)
             with (validateEntries entries (errors ++ []) warnings h)
             by (by rewrite app_nil_r).
           apply (Hsame _ 0%nat); [done| |].
           ++ simpl. by rewrite Hvalue, Hreq.
           ++ intros _. unfold defaultOf. cbn [list_find]. rewrite decide_True by done.
              simpl. rewrite Hreq, Hrule. by rewrite bool_decide_eq_true_2.
        -- unfold bind, setenv, modify. by apply Hset.
      * replace (validateEntries entries errors warnings h)
          with (validateEntries entries (errors ++ []) warnings h)
          by (by rewrite app_nil_r).
        apply (Hsame _ 0%nat); [done| |].
        -- simpl. by rewrite Hvalue, Hreq.
        -- intros _. unfold defaultOf. cbn [list_find]. rewrite decide_True by done.
           simpl. by rewrite Hreq, Hrule.
Qed.

Lemma for_of_write stream lines : ∀ h,
  for_of lines (write stream) h
  = (Ok tt, mkHost (env h) (console h ++ ((λ line, (stream, line)) <$> lines))).
Proof.
  induction lines as [|line lines IH]; intros [e c].
  - simpl. by rewrite app_nil_r.
  - cbn [for_of]. unfold bind, write at 1, modify. rewrite IH. simpl.
    by rewrite <- app_assoc.
Qed.

(** [validateConfig] in one piece: how it ends, what it leaves in the
    environment, and what it writes to the console. *)
Lemma validateConfig_runs rules h :
  NoDup rules.*1 →
  ∃ (errors warnings : list string) env' report,
    validateConfig rules h =
      (if bool_decide (length errors = 0%nat) then Ok tt
       else Throw (Error ("Configuration validation failed with "
                          +:+ pretty (length errors) +:+ " error(s)")),
       mkHost env'
         (console h
          ++ [(console_log, "[CONFIG] Validating audit-service environment configuration...")]
          ++ ((λ line, (console_warn, line)) <$> warnings)
          ++ report))
    ∧ Forall (λ line, line.1 ≠ console_warn) report
    ∧ length errors = sum_list (complaints h <$> rules)
    ∧ (∀ key, env' !! key =
         if falsy (env h !! key)
         then (if defaultOf rules key is Some default then Some default else env h !! key)
         else env h !! key)
    ∧ ((∀ key, key ∈ rules.*1 → falsy (env h !! key) = true → defaultOf rules key = None) →
       warnings = []).
Proof.
  intros Hnodup. unfold validateConfig. cbv zeta.
  unfold bind at 1, write at 1, modify at 1. unfold bind at 1.
  match goal with |- context [validateEntries rules [] [] ?h1] =>
    destruct (validateEntries_runs rules [] [] h1 Hnodup)
      as (errors & warnings & env' & Hrun & Hcount & Henv & Hwarn) end.
  rewrite Hrun. cbn [app console env] in *.
  exists errors, warnings, env'.
  unfold bind at 1. rewrite for_of_write. cbn [env console].
  destruct errors as [|line errors].
  - rewrite bool_decide_eq_true_2 by done. cbn [length Nat.ltb Nat.leb].
    unfold write, modify. cbn [env console]. eexists [_].
    split; [by rewrite <- !app_assoc|]. split; [|done].
    by apply Forall_singleton.
  - rewrite bool_decide_eq_false_2 by done. cbn [length Nat.ltb Nat.leb].
    unfold bind at 1, write at 1, modify at 1. unfold bind at 1.
    rewrite for_of_write. unfold bind, write, modify, throw. cbn [env console].
    eexists (_ :: ((λ line, (console_error, line)) <$> (line :: errors)) ++ [_]).
    split; [by rewrite <- !app_assoc|]. split; [|done].
    apply Forall_cons. split; [done|]. apply Forall_app. split.
    + apply Forall_fmap, Forall_forall. by intros.
    + by apply Forall_singleton.
Qed.

Lemma validationRules_NoDup : NoDup validationRules.*1.
Proof. apply (bool_decide_unpack _). vm_compute. exact I. Qed.

(** X15. [validateConfig] never changes a variable that is set to a
    non-empty value, and writes nothing but defaults: whether it returns
    or throws, a variable that was unset or empty holds the non-empty
    default of its entry if the entry is optional and has one, and every
    other variable of the environment is as before. *)
Theorem validateConfig_writes_defaults_only rules h key :
  NoDup rules.*1 →
  env (validateConfig rules h).2 !! key =
    if falsy (env h !! key)
    then (if defaultOf rules key is Some default then Some default else env h !! key)
    else env h !! key.
Proof.
  intros Hnodup.
  destruct (validateConfig_runs rules h Hnodup)
    as (errors & warnings & env' & report & -> & _ & _ & Henv & _).
  apply Henv.
Qed.

Lemma sum_list_cons (x : nat) l : sum_list (x :: l) = (x + sum_list l)%nat.
Proof. reflexivity. Qed.

Lemma complaints_optional h entry :
  required entry.2 = false →
  complaints h entry = (if isInvalid h entry then 2 else 0)%nat.
Proof.
  destruct entry as [key rule]. unfold isInvalid. simpl. intros ->.
  destruct (env h !! key) as [value|]; [|done].
  case_bool_decide; [done|]. by destruct (validator rule value).
Qed.

Lemma sum_complaints_optional h rules :
  Forall (λ entry, required entry.2 = false) rules →
  sum_list (complaints h <$> rules) = (2 * length (filter (λ entry, isInvalid h entry = true) rules))%nat.
Proof.
  induction 1 as [|entry rules Hopt _ IH]; [done|].
  rewrite fmap_cons, filter_cons, sum_list_cons, IH, (complaints_optional h entry Hopt).
  destruct (isInvalid h entry); [rewrite decide_True by done | rewrite decide_False by done];
    cbn [length]; lia.
Qed.

(** X16. With rules none of which is required, as in [validationRules],
    [validateConfig] throws exactly when some variable is set, not empty
    and rejected by its validator; an unset variable never makes it fail.
    The number in the message is twice the number of such variables,
    since the line that shows the current value is pushed to [errors] as
    well. *)
Theorem validateConfig_counts_each_invalid_variable_twice rules h :
  NoDup rules.*1 →
  Forall (λ entry, required entry.2 = false) rules →
  let invalid := filter (λ entry, isInvalid h entry = true) rules in
  (validateConfig rules h).1 =
    if bool_decide (invalid = []) then Ok tt
    else Throw (Error ("Configuration validation failed with "
                       +:+ pretty (2 * length invalid)%nat +:+ " error(s)")).
Proof.
  intros Hnodup Hopt invalid.
  destruct (validateConfig_runs rules h Hnodup)
    as (errors & warnings & env' & report & -> & _ & Hcount & _).
  rewrite (sum_complaints_optional h rules Hopt) in Hcount. fold invalid in Hcount.
  cbn [fst]. rewrite Hcount. destruct invalid as [|entry invalid]; [done|].
  rewrite !bool_decide_eq_false_2; [done|done|]. cbn [length]. lia.
Qed.

Lemma defaultOf_Some rules key default :
  defaultOf rules key = Some default →
  default ≠ ""
  ∧ ∃ rule, (key, rule) ∈ rules ∧ required rule = false ∧ default_ rule = Some default.
Proof.
  unfold defaultOf.
  destruct (list_find _ rules) as [[i [k rule]]|] eqn:Hfind; [|discriminate].
  apply list_find_Some in Hfind as (Hi & Hk & _). simpl in Hk. subst k.
  destruct (required rule) eqn:Hreq; [discriminate|].
  destruct (default_ rule) as [d|] eqn:Hd; [|discriminate].
  case_bool_decide; [discriminate|]. intros [= <-]. split; [done|].
  exists rule. split; [apply list_elem_of_lookup; eauto | done].
Qed.

Lemma NoDup_fst_unique {A} (l : list (string * A)) key x y :
  NoDup l.*1 → (key, x) ∈ l → (key, y) ∈ l → x = y.
Proof.
  intros Hnodup Hx Hy.
  apply list_elem_of_lookup in Hx as [i Hi]. apply list_elem_of_lookup in Hy as [j Hj].
  assert (i = j) as <-.
  { apply (NoDup_lookup _ _ _ key Hnodup); rewrite list_lookup_fmap.
    - by rewrite Hi. - by rewrite Hj. }
  congruence.
Qed.

Lemma sum_list_zero (l : list nat) x : sum_list l = 0%nat → x ∈ l → x = 0%nat.
Proof.
  induction l as [|y l IH]; intros Hsum Hin; [by apply elem_of_nil in Hin|].
  rewrite sum_list_cons in Hsum.
  apply elem_of_cons in Hin as [->|Hin]; [lia | apply IH; [lia | done]].
Qed.

Lemma sum_list_all_zero (l : list nat) : Forall (λ x, x = 0%nat) l → sum_list l = 0%nat.
Proof.
  induction 1 as [|x l -> _ IH]; [done|]. by rewrite sum_list_cons, IH.
Qed.

(** After a successful [validateConfig], when the defaults of the
    rules satisfy their own validators: every variable of the rules that
    is set and not empty passes its validator, and those with a default
    or a required entry are set. *)
Lemma validateConfig_valid_after rules h key rule :
  NoDup rules.*1 →
  Forall (λ entry, ∀ default, default_ entry.2 = Some default →
                              validator entry.2 default = true) rules →
  (validateConfig rules h).1 = Ok tt →
  (key, rule) ∈ rules →
  let h' := (validateConfig rules h).2 in
  (∀ value, env h' !! key = Some value → value ≠ "" → validator rule value = true)
  ∧ (required rule = true ∨ is_Some (defaultOf rules key) →
     ∃ value, env h' !! key = Some value ∧ value ≠ "").
Proof.
  intros Hnodup Hdefaults Hok Hin h'.
  destruct (validateConfig_runs rules h Hnodup)
    as (errors & warnings & env' & report & Hrun & _ & Hcount & Henv & _).
  subst h'. rewrite Hrun in *. cbn [fst snd env] in *.
  destruct (bool_decide (length errors = 0%nat)) eqn:Hnone; [|discriminate].
  apply bool_decide_eq_true in Hnone. rewrite Hnone in Hcount.
  assert (Hclean : complaints h (key, rule) = 0%nat).
  { apply (sum_list_zero (complaints h <$> rules)); [done|].
    apply list_elem_of_fmap. by exists (key, rule). }
  simpl in Hclean. rewrite Henv. split.
  - intros value Hvalue Hne.
    destruct (env h !! key) as [v|] eqn:Hv; cbn [falsy] in Hvalue.
    + destruct (bool_decide (v = "")) eqn:Hempty.
      * destruct (defaultOf rules key) as [d|] eqn:Hd.
        -- injection Hvalue as ->.
           apply defaultOf_Some in Hd as (_ & rule' & Hin' & _ & Hrule').
           rewrite <- (NoDup_fst_unique rules key rule rule' Hnodup Hin Hin') in Hrule'.
           exact (proj1 (Forall_forall _ _) Hdefaults _ Hin value Hrule').
        -- apply bool_decide_eq_true in Hempty. congruence.
      * injection Hvalue as ->. by destruct (validator rule value).
    + destruct (defaultOf rules key) as [d|] eqn:Hd; [|discriminate].
      injection Hvalue as ->.
      apply defaultOf_Some in Hd as (_ & rule' & Hin' & _ & Hrule').
      rewrite <- (NoDup_fst_unique rules key rule rule' Hnodup Hin Hin') in Hrule'.
      exact (proj1 (Forall_forall _ _) Hdefaults _ Hin value Hrule').
  - intros Hset.
    destruct (env h !! key) as [v|] eqn:Hv; cbn [falsy].
    + destruct (bool_decide (v = "")) eqn:Hempty.
      * destruct (defaultOf rules key) as [d|] eqn:Hd.
        -- exists d. split; [done|]. by apply defaultOf_Some in Hd as [? _].
        -- destruct Hset as [Hreq|[d Hd']]; [|discriminate]. by rewrite Hreq in Hclean.
      * exists v. split; [done|]. by apply bool_decide_eq_false in Hempty.
    + destruct (defaultOf rules key) as [d|] eqn:Hd.
      * exists d. split; [done|]. by apply defaultOf_Some in Hd as [? _].
      * destruct Hset as [Hreq|[d Hd']]; [|discriminate]. by rewrite Hreq in Hclean.
Qed.

(** X17. Validation is idempotent. When the defaults of the rules satisfy
    their own validators, as those of [validationRules] do, a second
    [validateConfig] right after a successful one succeeds, leaves the
    environment as the first one left it, and warns about nothing: the
    first run has written every default it announced. *)
Theorem validateConfig_is_idempotent rules h :
  NoDup rules.*1 →
  Forall (λ entry, ∀ default, default_ entry.2 = Some default →
                              validator entry.2 default = true) rules →
  (validateConfig rules h).1 = Ok tt →
  let h' := (validateConfig rules h).2 in
  ∃ report,
    validateConfig rules h' =
      (Ok tt,
       mkHost (env h')
         (console h'
          ++ [(console_log, "[CONFIG] Validating audit-service environment configuration...")]
          ++ report))
    ∧ Forall (λ line, line.1 ≠ console_warn) report.
Proof.
  intros Hnodup Hdefaults Hok h'.
  pose proof (λ key rule, validateConfig_valid_after rules h key rule Hnodup Hdefaults Hok)
    as Hvalid. cbv zeta in Hvalid. fold h' in Hvalid.
  assert (Henv : ∀ key, env h' !! key =
            if falsy (env h !! key)
            then (if defaultOf rules key is Some default then Some default else env h !! key)
            else env h !! key).
  { intros key. subst h'.
    destruct (validateConfig_runs rules h Hnodup)
      as (errors & warnings & env' & report & -> & _ & _ & Henv & _). apply Henv. }
  destruct (validateConfig_runs rules h' Hnodup)
    as (errors2 & warnings2 & env2 & report2 & Hrun2 & Hreport2 & Hcount2 & Henv2 & Hwarn2).
  assert (Hdefault2 : ∀ key, falsy (env h' !! key) = true → defaultOf rules key = None).
  { intros key Hfalsy. rewrite Henv in Hfalsy.
    destruct (defaultOf rules key) as [d|] eqn:Hd; [|done].
    apply defaultOf_Some in Hd as (Hne & _).
    destruct (falsy (env h !! key)) eqn:Hwas; cbn [falsy] in Hfalsy.
    - by rewrite bool_decide_eq_false_2 in Hfalsy.
    - congruence. }
  assert (Hclean2 : sum_list (complaints h' <$> rules) = 0%nat).
  { apply sum_list_all_zero, Forall_fmap, Forall_forall. intros [key rule] Hin.
    destruct (Hvalid key rule Hin) as [Hvalue Hset].
    unfold compose, complaints. cbv beta iota.
    destruct (env h' !! key) as [value|] eqn:Hkey.
    - destruct (bool_decide (value = "")) eqn:Hempty.
      + apply bool_decide_eq_true in Hempty. subst value.
        destruct (required rule) eqn:Hreq; [|done].
        destruct Hset as (v & Hv & Hne); [by left|]. congruence.
      + apply bool_decide_eq_false in Hempty. by rewrite (Hvalue value eq_refl Hempty).
    - destruct (required rule) eqn:Hreq; [|done].
      destruct Hset as (v & Hv & Hne); [by left|]. congruence. }
  rewrite Hclean2 in Hcount2. rewrite Hwarn2 in Hrun2 by (intros key _; apply Hdefault2).
  rewrite Hcount2 in Hrun2. rewrite bool_decide_eq_true_2 in Hrun2 by done.
  assert (Henv2' : env2 = env h').
  { apply map_eq. intros key. rewrite Henv2.
    destruct (falsy (env h' !! key)) eqn:Hfalsy; [|done].
    by rewrite (Hdefault2 key Hfalsy). }
  exists report2. rewrite Hrun2, Henv2'. by split.
Qed.

End Validator.

(** PORT is set to 0, which is rejected: it is left as it is, and the
    default of a variable that is not set is written although
    [validateConfig] throws. *)
Lemma validateConfig_writes_defaults_only_witness :
  let h := mkHost {[ "PORT" := "0" ]} [] in
  (validateConfig validationRules h).1
    = Throw (Error "Configuration validation failed with 2 error(s)")
  ∧ env (validateConfig validationRules h).2 !! "PORT" = Some "0"
  ∧ env (validateConfig validationRules h).2 !! "POSTGRES_PORT" = Some "5432".
Proof.
  intros h. split; [vm_compute; reflexivity|].
  rewrite !(validateConfig_writes_defaults_only validationRules h _ validationRules_NoDup).
  split; vm_compute; reflexivity.
Defined.

Lemma validationRules_optional : Forall (λ entry, required entry.2 = false) validationRules.
Proof.
  unfold validationRules. repeat (apply List.Forall_cons; [reflexivity|]). apply List.Forall_nil.
Qed.

(** Every default of the table passes the validator of its own entry. *)
Lemma validationRules_defaults_valid :
  Forall (λ entry, ∀ default, default_ entry.2 = Some default →
                              validator entry.2 default = true) validationRules.
Proof.
  unfold validationRules.
  repeat (apply List.Forall_cons; [intros default [= <-]; vm_compute; reflexivity|]).
  apply List.Forall_nil.
Qed.

(** PORT and DB_SSL are rejected, nothing else is set: two variables,
    four errors. *)
Lemma validateConfig_counts_each_invalid_variable_twice_witness :
  (validateConfig validationRules (mkHost {[ "PORT" := "0"; "DB_SSL" := "yes" ]} [])).1
  = Throw (Error "Configuration validation failed with 4 error(s)").
Proof.
  rewrite (validateConfig_counts_each_invalid_variable_twice validationRules _
             validationRules_NoDup validationRules_optional).
  vm_compute. reflexivity.
Defined.

(** The empty environment is accepted; validated again, nothing changes. *)
Lemma validateConfig_is_idempotent_witness :
  let h' := (validateConfig validationRules (mkHost ∅ [])).2 in
  (validateConfig validationRules h').1 = Ok tt
  ∧ env (validateConfig validationRules h').2 = env h'.
Proof.
  intros h'.
  destruct (validateConfig_is_idempotent validationRules (mkHost ∅ [])
              validationRules_NoDup validationRules_defaults_valid)
    as (report & Hrun & _).
  - vm_compute. reflexivity.
  - fold h' in Hrun. rewrite Hrun. split; reflexivity.
Defined.

(** ** Configuration: the secret managers *)

Lemma or_else_set value fallback : value ≠ "" → or_else (Some value) fallback = value.
Proof. intros Hne. unfold or_else. by rewrite bool_decide_eq_false_2. Qed.

(** X18. After a successful [validateConfig], [getDatabaseConfig] takes
    every field from the environment and none from its own fallbacks:
    the host, the database, the user and the password are the non-empty
    values of their variables, and the port is a number between 1 and
    65535, never [NaN]. When it reports [ssl], [getEnvBoolean] of
    config/index.ts reads DB_SSL as [true] as well. *)
Theorem validated_environment_configures_the_database h :
  (validateConfig validationRules h).1 = Ok tt →
  let h' := (validateConfig validationRules h).2 in
  ∃ cfg portNum,
    getDatabaseConfig h' = (Ok cfg, h')
    ∧ port cfg = Some portNum ∧ 1 ≤ portNum ≤ 65535
    ∧ env h' !! "POSTGRES_HOST" = Some (host cfg) ∧ host cfg ≠ ""
    ∧ env h' !! "POSTGRES_DB" = Some (database cfg) ∧ database cfg ≠ ""
    ∧ env h' !! "POSTGRES_USER" = Some (username cfg) ∧ username cfg ≠ ""
    ∧ env h' !! "POSTGRES_PASSWORD" = Some (password cfg) ∧ password cfg ≠ ""
    ∧ (ssl cfg = true → getEnvBoolean "DB_SSL" (Some false) h' = (Ok true, h')).
Proof.
  intros Hok h'.
  assert (Hset : ∀ key rule, (key, rule) ∈ validationRules → is_Some (defaultOf validationRules key) →
            ∃ value, env h' !! key = Some value ∧ value ≠ "" ∧ validator rule value = true).
  { intros key rule Hin Hdefault.
    destruct (validateConfig_valid_after validationRules h key rule validationRules_NoDup
                validationRules_defaults_valid Hok Hin) as [Hvalid Hset].
    destruct Hset as (value & Hvalue & Hne); [by right|]. exists value. auto. }
  destruct (Hset "POSTGRES_HOST" _ ltac:(unfold validationRules; do 4 apply list_elem_of_further;
                                         apply list_elem_of_here) ltac:(by eexists))
    as (vhost & Hhost & Hhost_ne & _).
  destruct (Hset "POSTGRES_PORT" _ ltac:(unfold validationRules; do 5 apply list_elem_of_further;
                                         apply list_elem_of_here) ltac:(by eexists))
    as (vport & Hport & Hport_ne & Hport_valid).
  destruct (Hset "POSTGRES_DB" _ ltac:(unfold validationRules; do 6 apply list_elem_of_further;
                                       apply list_elem_of_here) ltac:(by eexists))
    as (vdb & Hdb & Hdb_ne & _).
  destruct (Hset "POSTGRES_USER" _ ltac:(unfold validationRules; do 7 apply list_elem_of_further;
                                         apply list_elem_of_here) ltac:(by eexists))
    as (vuser & Huser & Huser_ne & _).
  destruct (Hset "POSTGRES_PASSWORD" _ ltac:(unfold validationRules; do 8 apply list_elem_of_further;
                                             apply list_elem_of_here) ltac:(by eexists))
    as (vpass & Hpass & Hpass_ne & _).
  cbn [validator] in Hport_valid. unfold isValidPort in Hport_valid.
  destruct (parseInt vport) as [portNum|] eqn:Hparse; [|discriminate].
  apply andb_prop in Hport_valid as [Hpos%Z.ltb_lt Hmax%Z.leb_le].
  unfold getDatabaseConfig, getEnvBoolean, bind, getenv, gets, ret.
  rewrite Hhost, Hport, Hdb, Huser, Hpass, !or_else_set by done. rewrite Hparse.
  eexists _, portNum. split; [reflexivity|]. cbn [port host database username password ssl].
  split; [done|]. split; [lia|]. do 8 (split; [done|]).
  intros Hssl. apply bool_decide_eq_true in Hssl.
  destruct (env h' !! "DB_SSL") as [v|] eqn:Hv; cbn [or_else falsy] in *.
  - destruct (bool_decide (v = "")) eqn:Hempty; [discriminate|]. subst v. reflexivity.
  - discriminate.
Qed.

(** With nothing set, the defaults of the validator are what
    [getDatabaseConfig] returns. *)
Lemma validated_environment_configures_the_database_witness :
  let h' := (validateConfig validationRules (mkHost ∅ [])).2 in
  ∃ cfg, getDatabaseConfig h' = (Ok cfg, h') ∧ port cfg = Some 5432.
Proof.
  intros h'.
  destruct (validated_environment_configures_the_database (mkHost ∅ []))
    as (cfg & portNum & Hrun & Hport & _).
  - vm_compute. reflexivity.
  - fold h' in Hrun. exists cfg. split; [exact Hrun|].
    assert (Hcfg : (getDatabaseConfig h').1 = Ok cfg) by (by rewrite Hrun).
    vm_compute in Hcfg. injection Hcfg as <-. reflexivity.
Defined.

Section DaprSecrets.
Variable enabled : bool.
Variable sidecar : string → option (gmap string string).

Lemma dapr_getSecret_finds name h :
  dapr_getSecret enabled sidecar name h = (Ok (secretOf enabled sidecar name), h).
Proof.
  unfold dapr_getSecret, secretOf, try_catch. destruct enabled; [|reflexivity]. cbn [negb].
  destruct (sidecar name) as [response|]; [|reflexivity]. cbn.
  by destruct (response !! name).
Qed.

Lemma lookup_withSecrets names e name :
  withSecrets enabled sidecar names e !! name =
    if bool_decide (name ∈ names) && negb (falsy (secretOf enabled sidecar name))
    then secretOf enabled sidecar name else e !! name.
Proof.
  induction names as [|name' names IH]; [done|]. cbn [withSecrets foldr].
  fold (withSecrets enabled sidecar names e).
  destruct (decide (name = name')) as [->|Hne].
  - rewrite (bool_decide_eq_true_2 (name' ∈ name' :: names)) by apply list_elem_of_here.
    cbn [andb]. destruct (secretOf enabled sidecar name') as [value|] eqn:Hsecret; cbn [falsy].
    + destruct (bool_decide (value = "")) eqn:Hempty; cbn [negb].
      * rewrite IH, ?Hsecret. cbn [falsy]. rewrite ?Hempty, andb_false_r. done.
      * by rewrite lookup_insert_eq.
    + rewrite IH, ?Hsecret. cbn [falsy negb]. by rewrite andb_false_r.
  - assert (Hin : bool_decide (name ∈ name' :: names) = bool_decide (name ∈ names)).
    { apply bool_decide_ext. rewrite elem_of_cons. split; [by intros [?|?] | by right]. }
    rewrite Hin.
    destruct (secretOf enabled sidecar name') as [value|]; [|exact IH].
    destruct (bool_decide (value = "")); [exact IH|]. by rewrite lookup_insert_ne.
Qed.

Lemma or_else2_withSecrets names e name fallback :
  name ∈ names →
  or_else2 (secretOf enabled sidecar name) (e !! name) fallback
  = or_else (withSecrets enabled sidecar names e !! name) fallback.
Proof.
  intros Hin. rewrite lookup_withSecrets, bool_decide_eq_true_2 by done. cbn [andb].
  unfold or_else2. destruct (secretOf enabled sidecar name) as [value|]; cbn [falsy or_else negb].
  - by destruct (bool_decide (value = "")) eqn:Hempty; cbn [negb or_else]; rewrite ?Hempty.
  - done.
Qed.

(** X19. The Dapr secret manager answers for the database as the
    environment secret manager does on the environment with the secrets
    laid over it: a secret that the sidecar returns and that is not empty
    takes the place of the variable of the same name, and everything else
    (a secret that is missing or empty, a sidecar that cannot be reached,
    Dapr switched off) falls back to the variable and then to the
    default. For the broker and the JWT secret there is no such fallback:
    with Dapr switched off both calls throw, whatever the environment
    holds. *)
Theorem dapr_secrets_override_the_environment h :
  let names := ["POSTGRES_HOST"; "POSTGRES_PORT"; "POSTGRES_DB"; "POSTGRES_USER";
                "POSTGRES_PASSWORD"; "DB_SSL"] in
  let overlaid := mkHost (withSecrets enabled sidecar names (env h)) (console h) in
  dapr_getDatabaseConfig enabled sidecar h = ((getDatabaseConfig overlaid).1, h)
  ∧ (enabled = false →
     dapr_getDatabaseConfig enabled sidecar h = getDatabaseConfig h
     ∧ dapr_getMessageBrokerConfig enabled sidecar h
       = (Throw (Error "Missing required message broker secrets from Dapr"), h)
     ∧ dapr_getJwtConfig enabled sidecar h
       = (Throw (Error "JWT_SECRET not found in Dapr secret store"), h)).
Proof.
  intros names overlaid. split.
  - unfold dapr_getDatabaseConfig, getDatabaseConfig, bind.
    rewrite !dapr_getSecret_finds. unfold getenv, gets, ret. subst overlaid. cbn [env fst].
    rewrite <- !(or_else2_withSecrets names (env h))
      by (subst names; repeat first [apply list_elem_of_here | apply list_elem_of_further]).
    reflexivity.
  - intros Hoff. unfold dapr_getDatabaseConfig, dapr_getMessageBrokerConfig, dapr_getJwtConfig,
      bind. rewrite !dapr_getSecret_finds. unfold secretOf. rewrite Hoff. by repeat split.
Qed.

End DaprSecrets.

(** The sidecar knows the host and returns an empty password; the
    environment sets the password and the port. *)
Lemma dapr_secrets_override_the_environment_witness :
  let sidecar := λ name : string,
    Some ({[ "POSTGRES_HOST" := "db.internal"; "POSTGRES_PASSWORD" := "" ]}
            : gmap string string) in
  let h := mkHost {[ "POSTGRES_HOST" := "localhost"; "POSTGRES_PASSWORD" := "s3cret";
                     "POSTGRES_PORT" := "5433" ]} [] in
  (dapr_getDatabaseConfig true sidecar h).1
  = Ok (mkDatabaseConfig "db.internal" (Some 5433) "audit_service_db" "postgres" "s3cret" false)
  ∧ (dapr_getMessageBrokerConfig false sidecar h).1
    = Throw (Error "Missing required message broker secrets from Dapr").
Proof.
  intros sidecar h.
  destruct (dapr_secrets_override_the_environment false sidecar h) as [_ Hoff].
  destruct (Hoff eq_refl) as (_ & Hbroker & _).
  split; [|by rewrite Hbroker].
  rewrite (proj1 (dapr_secrets_override_the_environment true sidecar h)).
  vm_compute. reflexivity.
Defined.

(** ** The database connection *)

Section ConnectionProperties.
Variable config_database : DatabaseSettings.
Implicit Types (n : Node) (p : Pool).

Lemma initialize_runs n :
  ∃ p n', initialize config_database n = (Ok p, n')
    ∧ pool n' = Some p
    ∧ (∀ p0, pool n = Some p0 → p = p0 ∧ n' = n)
    ∧ (pool n = None → pool_id p = built n ∧ built n' = S (built n))
    ∧ (built n ≤ built n')%nat
    ∧ ended n' = ended n
    ∧ clients n' = clients n.
Proof.
  unfold initialize, bind, gets. destruct (pool n) as [p0|] eqn:Hpool.
  - exists p0, n. split; [reflexivity|]. split; [done|]. split; [by intros ? [= <-]|].
    split; [done|]. auto.
  - unfold on_host, getDatabaseConfig, bind, getenv, gets, ret, log_entry, modify.
    eexists _, _. split; [reflexivity|]. cbn. split; [done|]. split; [done|].
    split; [done|]. split; [lia|]. done.
Qed.

(** X20. [testConnection] never rejects: it resolves to [true] when the
    pool gives a client and the query goes through, and to [false], after
    an error entry, in every other case. The client it took is released
    on both paths, the pool is initialised afterwards even when the test
    failed, and a pool that was there before is kept. *)
Theorem testConnection_never_rejects connectFails queryFails n :
  ∃ n', testConnection config_database connectFails queryFails n
          = (Ok (negb connectFails && negb queryFails), n')
    ∧ clients n' = clients n
    ∧ is_Some (pool n')
    ∧ (∀ p, pool n = Some p → pool n' = Some p)
    ∧ last (entries n') =
        Some (if negb connectFails && negb queryFails
              then mkLog lvl_info "[SUCCESS] Database connection test successful"
              else mkLog lvl_error "[ERROR] Database connection test failed").
Proof.
  destruct (initialize_runs n) as (p & n1 & Hinit & Hpool & Hkept & _ & _ & _ & Hclients).
  assert (Hkeep : ∀ p0, pool n = Some p0 → pool n1 = Some p0).
  { intros p0 Hp0. destruct (Hkept p0 Hp0) as [<- _]. exact Hpool. }
  unfold testConnection, try_catch, try_finally. unfold bind at 1. rewrite Hinit.
  destruct connectFails, queryFails; cbn -[last];
    (eexists; split; [reflexivity|]; cbn -[last]; rewrite ?Hclients;
     repeat split; eauto using last_snoc).
Qed.

Lemma perform_consistent n call :
  consistent n → consistent (perform config_database n call).
Proof.
  intros Hn. pose proof Hn as (Hpool & Hended & Hnodup & Hclients).
  destruct call as [| |connectFails queryFails|endFails|key value]; cbn [perform].
  - destruct (initialize_runs n) as (p & n' & -> & Hp & Hkept & Hnew & Hle & He & Hc).
    cbn [snd]. unfold consistent. rewrite He, Hc. split; [|split; [|done]].
    + intros p' Hp'. rewrite Hp in Hp'. injection Hp' as <-.
      destruct (pool n) as [p0|] eqn:Hpool0.
      * destruct (Hkept p0 eq_refl) as [-> ->]. by apply Hpool.
      * destruct (Hnew eq_refl) as [-> ->]. split; [lia|].
        intros Hin. pose proof (proj1 (Forall_forall _ _) Hended _ Hin) as Hlt.
        cbv beta in Hlt. lia.
    + eapply Forall_impl; [exact Hended|]. cbn. lia.
  - unfold getPool, bind, gets. by destruct (pool n).
  - destruct (initialize_runs n) as (p & n1 & Hinit & Hp & Hkept & Hnew & Hle & He & Hc).
    assert (Hn1 : consistent n1).
    { unfold consistent. rewrite He, Hc. split; [|split; [|done]].
      - intros p' Hp'. rewrite Hp in Hp'. injection Hp' as <-.
        destruct (pool n) as [p0|] eqn:Hpool0.
        + destruct (Hkept p0 eq_refl) as [-> ->]. by apply Hpool.
        + destruct (Hnew eq_refl) as [-> ->]. split; [lia|].
          intros Hin. pose proof (proj1 (Forall_forall _ _) Hended _ Hin) as Hlt.
        cbv beta in Hlt. lia.
      - eapply Forall_impl; [exact Hended|]. cbn. lia. }
    destruct Hn1 as (Hpool1 & Hended1 & Hnodup1 & Hclients1).
    unfold testConnection, try_catch, try_finally. unfold bind at 1. rewrite Hinit.
    destruct connectFails, queryFails; cbn; unfold consistent; cbn;
      rewrite ?Hclients1; done.
  - unfold close, bind, gets. destruct (pool n) as [p|] eqn:Hp; [|done].
    destruct endFails; cbn; [done|]. clear Hn. unfold consistent. cbn.
    destruct (Hpool p eq_refl) as [Hlt Hfresh].
    split; [done|]. split; [|split; [|done]].
    + apply Forall_app. split; [done|]. by apply Forall_singleton.
    + apply NoDup_app. split; [done|]. split; [|apply NoDup_singleton].
      intros i Hi ->%list_elem_of_singleton. done.
  - done.
Qed.

(** X21. The connection never hands out a pool that was ended. Whatever is
    called on it, in whatever order and with whatever outcomes of
    [connect], [query] and [end], and however the environment changes in
    between: the pool [getPool] or [initialize] then returns is not one
    on which [end()] completed, and no client of [testConnection] is
    left checked out. *)
Theorem connection_never_returns_an_ended_pool h calls p n' :
  let n := foldl (perform config_database) (mkNode h None 0 [] 0 []) calls in
  getPool n = (Ok p, n') ∨ initialize config_database n = (Ok p, n') →
  (pool_id p ∉ ended n') ∧ clients n' = 0%nat.
Proof.
  intros n Hcall.
  assert (Hrun : ∀ calls n0, consistent n0 → consistent (foldl (perform config_database) n0 calls)).
  { clear. induction calls as [|call calls IH]; intros n0 Hn0; [done|].
    apply IH, perform_consistent, Hn0. }
  assert (Hn : consistent n).
  { apply Hrun. unfold consistent. cbn. split; [done|]. split; [done|].
    split; [apply NoDup_nil_2 | done]. }
  destruct Hcall as [Hget|Hinit].
  - pose proof (perform_consistent n GetPool Hn) as (Hpool & _ & _ & Hclients).
    cbn [perform] in *. rewrite Hget in *. cbn [snd] in *. split; [|done].
    unfold getPool, bind, gets in Hget. destruct (pool n) as [p0|] eqn:Hp0; [|discriminate].
    injection Hget as <- <-. by apply Hpool.
  - pose proof (perform_consistent n Initialize Hn) as (Hpool & _ & _ & Hclients).
    cbn [perform] in *. rewrite Hinit in *. cbn [snd] in *. split; [|done].
    destruct (initialize_runs n) as (p1 & n1 & Hinit1 & Hp1 & _).
    rewrite Hinit in Hinit1. injection Hinit1 as <- <-. by apply Hpool.
Qed.

End ConnectionProperties.

(** The pool is closed, and initialised again after the environment
    changed: the second pool is a new one. *)
Lemma connection_never_returns_an_ended_pool_witness :
  let settings := mkDatabaseSettings false 5 20 in
  let n := foldl (perform settings) (mkNode (mkHost ∅ []) None 0 [] 0 [])
                 [Initialize; Close false; Setenv "POSTGRES_HOST" "db"] in
  ∃ p n', initialize settings n = (Ok p, n')
          ∧ ended n' = [0%nat] ∧ (pool_id p ∉ ended n').
Proof.
  intros settings n.
  eexists _, _. split; [vm_compute; reflexivity|]. split; [reflexivity|].
  refine (proj1 (connection_never_returns_an_ended_pool settings (mkHost ∅ [])
                   [Initialize; Close false; Setenv "POSTGRES_HOST" "db"] _ _ _)).
  right. vm_compute. reflexivity.
Defined.

(** ** The logger bound to a trace *)

(** X22. An entry written through a logger bound to a trace carries the
    bound [traceId], whatever the metadata of the call says, and the
    bound [spanId] when one was given; [business], [security] and [audit]
    stamp their [eventType] over the caller's; every other key of the
    metadata goes through unchanged. Business and audit events are
    written at level info, security events at level warn. *)
Theorem bound_logger_stamps_trace_and_event_type traceId spanId m message metadata calls :
  ∃ meta,
    withTraceContext traceId spanId m message metadata calls
      = (Ok tt, calls ++ [mkCall (match m with
                                  | m_debug => winston_debug
                                  | m_error => winston_error
                                  | m_warn | m_security => winston_warn
                                  | m_info | m_business | m_audit => winston_info
                                  end) message (Some meta)])
    ∧ meta !! "traceId" = Some (JStr traceId)
    ∧ meta !! "spanId" =
        match spanId with
        | Some span => if bool_decide (span = "") then spread metadata !! "spanId"
                       else Some (JStr span)
        | None => spread metadata !! "spanId"
        end
    ∧ meta !! "eventType" =
        match m with
        | m_business => Some (JStr "business")
        | m_security => Some (JStr "security")
        | m_audit => Some (JStr "audit")
        | _ => spread metadata !! "eventType"
        end
    ∧ ∀ key, key ≠ "traceId" → key ≠ "spanId" → key ≠ "eventType" →
             meta !! key = spread metadata !! key.
Proof.
  assert (Htrace : ∀ key,
    (traceMetadata traceId spanId ∪ spread metadata) !! key =
      if decide (key = "traceId") then Some (JStr traceId)
      else if decide (key = "spanId") then
        match spanId with
        | Some span => if bool_decide (span = "") then spread metadata !! "spanId"
                       else Some (JStr span)
        | None => spread metadata !! "spanId"
        end
      else spread metadata !! key).
  { intros key. rewrite lookup_union. unfold traceMetadata.
    destruct (decide (key = "traceId")) as [->|Hne1].
    - destruct spanId as [span|]; [case_bool_decide|];
        rewrite ?lookup_insert_ne, ?lookup_singleton_eq by done;
        by destruct (spread metadata !! "traceId").
    - destruct (decide (key = "spanId")) as [->|Hne2].
      + destruct spanId as [span|]; [case_bool_decide|];
          rewrite ?lookup_insert_eq, ?lookup_singleton_ne by done;
          by destruct (spread metadata !! "spanId").
      + destruct spanId as [span|]; [case_bool_decide|];
          rewrite ?lookup_insert_ne, ?lookup_singleton_ne by done;
          by destruct (spread metadata !! key). }
  destruct m; (eexists; split; [reflexivity|]); cbn [spread default];
    rewrite ?lookup_insert_eq, ?lookup_insert_ne, !Htrace by done;
    repeat split; try done;
    intros key H1 H2 H3; rewrite ?lookup_insert_ne, Htrace by done;
    rewrite !decide_False by done; done.
Qed.
